(** * Riff Hero: chart parsing, tempo map and note scoring

    A shallow embedding of the timing core of [src/main.cpp]: the chart
    parser ([Chart::ParserChart]), the tempo calculator
    ([Chart::CalculadoraTempo]) and the rules of the game for notes, hits
    and sustains ([Jogo]), followed by the properties of the specification
    that were checked against them.  The loading of the chart into the
    game, the text of the scores, the lines of text of the panel and the
    life of the particles are embedded as well, with properties of their
    own.

    Conventions of the embedding.
    - [int] is [Z]; the places where the range of [int] matters
      ([std::numeric_limits<int>::max()], [std::stoi]) spell it out.
    - [double] in the tempo calculator is a type [D] with the operations of
      the class [Double].  Two instances are given: [Q], where every
      operation is exact, and [float], the binary64 numbers of the machine,
      where every operation rounds.  Theorems over all inputs are proved
      for the exact instance; the binary64 instance runs the code on
      concrete inputs.  A division is a partial operation, undefined for a
      divisor that is zero.
    - The parser and the game are modelled in exact arithmetic: their
      [double] and [float] are [Q], and [sf::Time] is a number of
      microseconds in [Z].
    - [std::map] is [gmap], iterated in the order of its keys; [std::set]
      is [gset]; [std::vector] is [list]; [std::string] is [string], a list
      of bytes.
    - An exception that leaves a function is a result [Lancou e].
    - The window, the drawing, the sounds and the making of particles are
      left out; the position of the music and its status are inputs, the
      files of music that can be opened are a predicate on the paths, and
      the width of a text in the font is a function on the texts. *)

From Stdlib Require Import ZArith QArith Qabs Qminmax Qround Floats Uint63 String Ascii
  Lia Lqa.
From stdpp Require Import base option list sorting gmap.

Close Scope Q_scope.
Local Open Scope Z_scope.

(** ** Numbers *)

(** [std::numeric_limits<int>::max()] and [::min()] for a 32-bit [int]. *)
Definition INT_MAX : Z := 2147483647.
Definition INT_MIN : Z := -2147483648.

(** The operations on [double] that the tempo calculator uses. *)
Class Double (D : Type) := {
  of_int : Z → D;          (* static_cast<double>(int), integral literals *)
  dadd : D → D → D;
  dmul : D → D → D;
  ddiv : D → D → D;        (* the quotient, for a divisor that is not zero *)
  deqb : D → D → bool;     (* == *)
  dleb : D → D → bool      (* <= *)
}.

(** Exact arithmetic. *)
#[global] Instance Double_Q : Double Q := {|
  of_int := inject_Z;
  dadd := Qplus;
  dmul := Qmult;
  ddiv := Qdiv;
  deqb := Qeq_bool;
  dleb := Qle_bool
|}.

(** Binary64 arithmetic, round to nearest even. *)
Definition float_of_int (z : Z) : float :=
  if z <? 0 then PrimFloat.opp (PrimFloat.of_uint63 (Uint63.of_Z (- z)))
  else PrimFloat.of_uint63 (Uint63.of_Z z).

#[global] Instance Double_float : Double float := {|
  of_int := float_of_int;
  dadd := PrimFloat.add;
  dmul := PrimFloat.mul;
  ddiv := PrimFloat.div;
  deqb := PrimFloat.eqb;
  dleb := PrimFloat.leb
|}.

(** A division whose divisor is zero is recorded as [None], so that
    "no division by zero is performed" is a statement about results. *)
Definition dividir `{Double D} (a b : D) : option D :=
  if deqb b (of_int 0) then None else Some (ddiv a b).

(** ** namespace Chart *)

Module Chart.

(** [struct MudancaTempo]: a tempo change. *)
Record MudancaTempo := { tick : Z; valorBruto : Z }.

(** [struct AssinaturaTempo]: a time signature. *)
Record AssinaturaTempo := { ts_tick : Z; numerador : Z; denominador : Z }.

(** [struct NotaChart]: a note of the chart. *)
Record NotaChart := { n_tick : Z; traste : Z; comprimento : Z }.

(** [struct DadosChart].  The text fields keep the bytes that were read. *)
Record DadosChart (D : Type) := {
  nome : string; artista : string; streamMusica : string;
  criadorChart : string; album : string; ano : string;
  genero : string; tipoMidia : string;
  offset : D;
  resolucao : Z;
  dificuldade : Z;
  inicioPreview : D;
  fimPreview : D;
  jogador2 : string;
  mudancasTempo : gmap Z MudancaTempo;
  assinaturasTempo : gmap Z AssinaturaTempo;
  notas : list NotaChart
}.
Arguments nome {D}. Arguments artista {D}. Arguments streamMusica {D}.
Arguments criadorChart {D}. Arguments album {D}. Arguments ano {D}.
Arguments genero {D}. Arguments tipoMidia {D}. Arguments offset {D}.
Arguments resolucao {D}. Arguments dificuldade {D}.
Arguments inicioPreview {D}. Arguments fimPreview {D}.
Arguments jogador2 {D}. Arguments mudancasTempo {D}.
Arguments assinaturasTempo {D}. Arguments notas {D}.

(** The values of a [std::map<int, V>] in the order of its iteration. *)
Definition chave_le {V} (p q : Z * V) : Prop := p.1 ≤ q.1.
#[global] Instance chave_le_dec {V} (p q : Z * V) : Decision (chave_le p q).
Proof. unfold chave_le. apply _. Defined.

Definition valores_em_ordem {V} (m : gmap Z V) : list V :=
  (merge_sort chave_le (map_to_list m)).*2.

(** The comparison that the constructor of the calculator sorts by. *)
Definition tick_le (a b : MudancaTempo) : Prop := tick a ≤ tick b.
#[global] Instance tick_le_dec a b : Decision (tick_le a b).
Proof. unfold tick_le. apply _. Defined.

Section Tempo.
Context {D : Type} `{Double D}.

(** [MudancaTempo::obterBPM]. *)
Definition obterBPM (m : MudancaTempo) : option D :=
  dividir (of_int (valorBruto m)) (of_int 1000).

(** [MudancaTempo::obterMicrossegundosPorBatida]. *)
Definition obterMicrossegundosPorBatida (m : MudancaTempo) : option D :=
  bpm ← obterBPM m;
  if dleb bpm (of_int 0) then Some (of_int 0)
  else dividir (of_int 60000000) bpm.

(** [class CalculadoraTempo]. *)
Record CalculadoraTempo := {
  referenciaChart : DadosChart D;
  mudancasTempoOrdenadas : list MudancaTempo
}.

(** The constructor: copy the tempo changes, sort them by tick, and
    make sure that there is one at tick 0. *)
Definition novaCalculadoraTempo (chart : DadosChart D) : CalculadoraTempo :=
  let copiadas := valores_em_ordem (mudancasTempo chart) in
  let ordenadas := merge_sort tick_le copiadas in
  {| referenciaChart := chart;
     mudancasTempoOrdenadas :=
       match ordenadas with
       | [] => {| tick := 0; valorBruto := 120000 |} :: ordenadas
       | primeira :: _ =>
           if negb (tick primeira =? 0)
           then {| tick := 0; valorBruto := 120000 |} :: ordenadas
           else ordenadas
       end |}.

(** The loop of [ticksParaSegundos], from index [i] on: [eventos] is
    [mudancasTempoOrdenadas[i..]].  The result is what the function
    returns, whether the loop is left by [break], by running out of
    events, or by the [return] of the resolution guard. *)
Fixpoint percorrerSegmentos (chart : DadosChart D) (tickAlvo : Z)
    (eventos : list MudancaTempo) (tempoEmSegundos : D) (tickAtual : Z)
    : option D :=
  match eventos with
  | [] => Some (dadd tempoEmSegundos (offset chart))
  | eventoTempoAtual :: resto =>
      let proximoTickTempo :=
        match resto with
        | proximo :: _ => tick proximo
        | [] => INT_MAX
        end in
      let tickFinalSegmento := Z.min tickAlvo proximoTickTempo in
      let ticksNoSegmento := tickFinalSegmento - tickAtual in
      let sair := Some (dadd tempoEmSegundos (offset chart)) in
      let acumular :=
        microssegundosPorBatida ← obterMicrossegundosPorBatida eventoTempoAtual;
        if resolucao chart =? 0
        then Some (dadd tempoEmSegundos (offset chart))
        else
          microssegundosPorTick ←
            dividir microssegundosPorBatida (of_int (resolucao chart));
          segundosPorTick ← dividir microssegundosPorTick (of_int 1000000);
          let duracaoSegmentoSegundos :=
            dmul (of_int ticksNoSegmento) segundosPorTick in
          let tempo' := dadd tempoEmSegundos duracaoSegmentoSegundos in
          if tickAlvo <=? tickFinalSegmento
          then Some (dadd tempo' (offset chart))
          else percorrerSegmentos chart tickAlvo resto tempo' tickFinalSegmento in
      if (ticksNoSegmento <=? 0) && (0 <? tickAlvo)
      then (if tickAlvo <=? tickAtual then sair else acumular)
      else if ticksNoSegmento <? 0 then sair
      else acumular
  end.

(** [CalculadoraTempo::ticksParaSegundos]. *)
Definition ticksParaSegundos (c : CalculadoraTempo) (tickAlvo : Z) : option D :=
  percorrerSegmentos (referenciaChart c) tickAlvo
    (mudancasTempoOrdenadas c) (of_int 0) 0.
End Tempo.

Arguments CalculadoraTempo D : clear implicits.

End Chart.

(** ** Text: lines, character classes and regular expressions *)

Definition codigo (c : ascii) : Z := Z.of_nat (nat_of_ascii c).

(** [isspace] and [isdigit] in the "C" locale. *)
Definition isspace (c : ascii) : bool :=
  (codigo c =? 32) || ((9 <=? codigo c) && (codigo c <=? 13)).
Definition isdigit (c : ascii) : bool :=
  (48 <=? codigo c) && (codigo c <=? 57).

(** The characters of [" \t\r\n"], which the parser trims. *)
Definition branco (c : ascii) : bool :=
  (codigo c =? 32) || (codigo c =? 9) || (codigo c =? 13) || (codigo c =? 10).

Fixpoint tirar_inicio (f : ascii → bool) (s : string) : string :=
  match s with
  | String c s' => if f c then tirar_inicio f s' else s
  | EmptyString => EmptyString
  end.

Definition inverter (s : string) : string :=
  string_of_list_ascii (rev (list_ascii_of_string s)).

(** [find_first_not_of] / [erase] / [find_last_not_of] / [erase]. *)
Definition aparar (s : string) : string :=
  inverter (tirar_inicio branco (inverter (tirar_inicio branco s))).

(** The lines that successive [std::getline] calls read from a stream. *)
Fixpoint getlines_aux (s : string) (atual : list ascii) : list string :=
  match s with
  | EmptyString =>
      match atual with
      | [] => []
      | _ => [string_of_list_ascii (rev atual)]
      end
  | String c s' =>
      if codigo c =? 10
      then string_of_list_ascii (rev atual) :: getlines_aux s' []
      else getlines_aux s' (c :: atual)
  end.
Definition getlines (s : string) : list string := getlines_aux s [].

(** Regular expressions of the ECMAScript grammar, as far as the parser
    uses them, with the backtracking order of [std::regex]. *)
Inductive regex :=
| RChar (classe : ascii → bool)
| RSeq (r1 r2 : regex)
| RStar (guloso : bool) (r : regex)
| ROpt (r : regex)
| RGroup (n : nat) (r : regex).

(** The texts of the groups that have matched, by the number of the group. *)
Abbreviation captures := (gmap nat string).

(** The loop of a starred expression.  [passo] matches the expression
    once; a turn that takes no character is not repeated, and there are at
    most [n] turns. *)
Fixpoint repetir
    (passo : string → captures → (string → captures → option captures)
             → option captures)
    (guloso : bool) (k : string → captures → option captures)
    (n : nat) (s : string) (caps : captures) : option captures :=
  match n with
  | O => k s caps
  | S n' =>
      let mais := λ _ : unit,
        passo s caps (λ s' caps',
          if (String.length s' <? String.length s)%nat
          then repetir passo guloso k n' s' caps' else None) in
      if guloso
      then match mais () with Some c => Some c | None => k s caps end
      else match k s caps with Some c => Some c | None => mais () end
  end.

(** [casar r s caps k]: match [r] at the head of [s] and go on with [k] on
    the rest; the first way that [k] accepts wins. *)
Fixpoint casar (r : regex) (s : string) (caps : captures)
    (k : string → captures → option captures) {struct r} : option captures :=
  match r with
  | RChar classe =>
      match s with
      | String c s' => if classe c then k s' caps else None
      | EmptyString => None
      end
  | RSeq r1 r2 => casar r1 s caps (λ s' caps', casar r2 s' caps' k)
  | ROpt r1 =>
      match casar r1 s caps k with
      | Some c => Some c
      | None => k s caps
      end
  | RStar guloso r1 => repetir (casar r1) guloso k (S (String.length s)) s caps
  | RGroup n r1 =>
      casar r1 s caps (λ s' caps',
        k s' (<[n := substring 0 (String.length s - String.length s') s]> caps'))
  end.

(** [std::regex_match]: the whole text must match. *)
Definition regex_match (s : string) (r : regex) : option captures :=
  casar r s ∅ (λ s' caps, match s' with EmptyString => Some caps | _ => None end).

(** [correspondencia[n].str()]. *)
Definition str (caps : captures) (n : nat) : string := default EmptyString (caps !! n).

Definition lit (c : ascii) : regex := RChar (Ascii.eqb c).
Definition qualquer : regex :=            (* . *)
  RChar (λ c, negb (codigo c =? 10) && negb (codigo c =? 13)).
Definition rd : regex := RChar isdigit.   (* \d *)
Definition rs : regex := RChar isspace.   (* \s *)
Definition mais (r : regex) : regex := RSeq r (RStar true r).        (* r+ *)
Definition mais_preguicoso (r : regex) : regex := RSeq r (RStar false r). (* r+? *)
Definition varios (r : regex) : regex := RStar true r.               (* r* *)
(** The expressions of a list one after the other (the empty expression
    for no expression). *)
Fixpoint seq (rs : list regex) : regex :=
  match rs with
  | [] => ROpt (RChar (λ _, false))
  | [r] => r
  | r :: rs' => RSeq r (seq rs')
  end.

(** The five patterns of [fazerParsingChart]. *)
Definition padraoSecao : regex :=                 (* \[(.+)\] *)
  seq [lit "["; RGroup 1 (mais qualquer); lit "]"].
Definition padraoChaveValor : regex :=            (* \s*(.+?)\s*=\s*(.+) *)
  seq [varios rs; RGroup 1 (mais_preguicoso qualquer); varios rs; lit "=";
       varios rs; RGroup 2 (mais qualquer)].
Definition padraoNota : regex :=          (* (\d+)\s*=\s*N\s+(\d+)\s+(\d+) *)
  seq [RGroup 1 (mais rd); varios rs; lit "="; varios rs; lit "N"; mais rs;
       RGroup 2 (mais rd); mais rs; RGroup 3 (mais rd)].
Definition padraoTempo : regex :=                 (* (\d+)\s*=\s*B\s+(\d+) *)
  seq [RGroup 1 (mais rd); varios rs; lit "="; varios rs; lit "B"; mais rs;
       RGroup 2 (mais rd)].
Definition padraoAssinaturaTempo : regex := (* (\d+)\s*=\s*TS\s+(\d+)(?:\s+(\d+))? *)
  seq [RGroup 1 (mais rd); varios rs; lit "="; varios rs; lit "T"; lit "S";
       mais rs; RGroup 2 (mais rd); ROpt (seq [mais rs; RGroup 3 (mais rd)])].

(** ** Conversions of the standard library *)

(** The exceptions that [std::stoi] and [std::stod] throw. *)
Inductive excecao := invalid_argument | out_of_range.

(** What a call comes to: a value, an exception that leaves it, or a
    [double] that is an infinity or a NaN, for which exact arithmetic has
    no value. *)
Inductive resultado (A : Type) :=
| Valor (a : A)
| Lancou (e : excecao)
| NaoFinito.
Arguments Valor {A}. Arguments Lancou {A}. Arguments NaoFinito {A}.

Definition ligar {A B} (x : resultado A) (f : A → resultado B) : resultado B :=
  match x with
  | Valor a => f a
  | Lancou e => Lancou e
  | NaoFinito => NaoFinito
  end.
#[global] Instance resultado_bind : MBind resultado := λ _ _ f x, ligar x f.
#[global] Instance resultado_ret : MRet resultado := λ _ a, Valor a.

(** The digits at the head of a text, read in basis [b], with their
    number, and the rest of the text. *)
Definition valor_digito (b : Z) (c : ascii) : option Z :=
  let n := codigo c in
  let v := if (48 <=? n) && (n <=? 57) then n - 48
           else if (97 <=? n) && (n <=? 102) then n - 87
           else if (65 <=? n) && (n <=? 70) then n - 55
           else 16 in
  if v <? b then Some v else None.

Fixpoint ler_digitos (b : Z) (s : string) (acc : Z) (n : Z) : Z * Z * string :=
  match s with
  | String c s' =>
      match valor_digito b c with
      | Some v => ler_digitos b s' (acc * b + v) (n + 1)
      | None => (acc, n, s)
      end
  | EmptyString => (acc, n, s)
  end.

(** An optional sign: whether it is a minus, and the rest. *)
Definition ler_sinal (s : string) : bool * string :=
  match s with
  | String "-" s' => (true, s')
  | String "+" s' => (false, s')
  | _ => (false, s)
  end.

(** [std::stoi(s)]: [strtol] in basis 10 on the whole text, the value of
    the longest prefix that is a number; [invalid_argument] when there is
    none, [out_of_range] when it is not an [int]. *)
Definition stoi (s : string) : resultado Z :=
  let '(negativo, s1) := ler_sinal (tirar_inicio isspace s) in
  let '(v, n, _) := ler_digitos 10 s1 0 0 in
  if n =? 0 then Lancou invalid_argument
  else
    let v' := if negativo then - v else v in
    if (v' <? INT_MIN) || (INT_MAX <? v') then Lancou out_of_range
    else Valor v'.

(** Lower case of a letter, for the spellings of infinity and NaN. *)
Definition minuscula (c : ascii) : ascii :=
  let n := codigo c in
  if (65 <=? n) && (n <=? 90) then ascii_of_nat (Z.to_nat (n + 32)) else c.

Fixpoint comeca_com (p s : string) : bool :=
  match p, s with
  | EmptyString, _ => true
  | String a p', String b s' => Ascii.eqb a (minuscula b) && comeca_com p' s'
  | _, EmptyString => false
  end.

(** The exponent part [e±ddd] (or [p±ddd]) at the head of a text, 0 when
    there is none. *)
Definition ler_expoente (marca : ascii) (s : string) : Z :=
  match s with
  | String c s' =>
      if Ascii.eqb marca (minuscula c) then
        let '(negativo, s1) := ler_sinal s' in
        let '(e, n, _) := ler_digitos 10 s1 0 0 in
        if n =? 0 then 0 else if negativo then - e else e
      else 0
  | EmptyString => 0
  end.

(** A mantissa in basis [b]: digits with at most one point among them.
    The result is the integer that the digits spell without the point, the
    number of digits, the number of digits after the point, and the rest. *)
Definition ler_mantissa (b : Z) (s : string) : Z * Z * Z * string :=
  let '(m1, n1, s1) := ler_digitos b s 0 0 in
  match s1 with
  | String "." s2 =>
      let '(m2, n2, s3) := ler_digitos b s2 m1 0 in
      (m2, n1 + n2, n2, s3)
  | _ => (m1, n1, 0, s1)
  end.

Definition potencia (b : Z) (e : Z) : Q :=
  if 0 <=? e then inject_Z (b ^ e) else Qinv (inject_Z (b ^ (- e))).

(** From this magnitude on a value rounds to an infinity of binary64. *)
Definition limite_double : Q := inject_Z (2 ^ 1024 - 2 ^ 970).

(** [std::stod(s)]: [strtod] on the whole text, in the "C" locale.  The
    value of the longest prefix that is a decimal or hexadecimal number,
    taken exactly; [invalid_argument] when there is none, [out_of_range]
    when it overflows.  (Whether a result too small for a normal binary64
    number is an error depends on the C library; it is a value here.) *)
Definition stod (s : string) : resultado Q :=
  let '(negativo, s1) := ler_sinal (tirar_inicio isspace s) in
  if comeca_com "inf" s1 || comeca_com "nan" s1 then NaoFinito
  else
    let hexadecimal :=
      match s1 with
      | String "0" (String x s2) =>
          if Ascii.eqb "x" (minuscula x) then
            let '(m, n, f, s3) := ler_mantissa 16 s2 in
            if n =? 0 then None
            else Some (Qmult (inject_Z m) (potencia 2 (ler_expoente "p" s3 - 4 * f)))
          else None
      | _ => None
      end in
    let decimal :=
      let '(m, n, f, s3) := ler_mantissa 10 s1 in
      if n =? 0 then None
      else Some (Qmult (inject_Z m) (potencia 10 (ler_expoente "e" s3 - f))) in
    match (match hexadecimal with Some q => Some q | None => decimal end) with
    | None => Lancou invalid_argument
    | Some q =>
        if Qle_bool limite_double q then Lancou out_of_range
        else Valor (if negativo then Qopp q else q)
    end.

(** ** The chart parser *)

Module ParserChart.
Import Chart.
Local Open Scope string_scope.

(** A [DadosChart] as its declaration initialises it. *)
Definition dadosChartInicial : DadosChart Q :=
  {| nome := ""; artista := ""; streamMusica := "";
     criadorChart := ""; album := ""; ano := ""; genero := ""; tipoMidia := "";
     offset := 0%Q; resolucao := 192; dificuldade := 0;
     inicioPreview := 0%Q; fimPreview := 0%Q; jogador2 := "";
     mudancasTempo := ∅; assinaturasTempo := ∅; notas := [] |}.

(** Assignments to the fields of a chart. *)
Definition com_texto (campo : string) (v : string) (c : DadosChart Q) : DadosChart Q :=
  {| nome := if String.eqb campo "Name" then v else nome c;
     artista := if String.eqb campo "Artist" then v else artista c;
     streamMusica := if String.eqb campo "MusicStream" then v else streamMusica c;
     criadorChart := if String.eqb campo "Charter" then v else criadorChart c;
     album := if String.eqb campo "Album" then v else album c;
     ano := if String.eqb campo "Year" then v else ano c;
     genero := if String.eqb campo "Genre" then v else genero c;
     tipoMidia := if String.eqb campo "MediaType" then v else tipoMidia c;
     offset := offset c; resolucao := resolucao c; dificuldade := dificuldade c;
     inicioPreview := inicioPreview c; fimPreview := fimPreview c;
     jogador2 := if String.eqb campo "Player2" then v else jogador2 c;
     mudancasTempo := mudancasTempo c; assinaturasTempo := assinaturasTempo c;
     notas := notas c |}.

Definition com_double (campo : string) (v : Q) (c : DadosChart Q) : DadosChart Q :=
  {| nome := nome c; artista := artista c; streamMusica := streamMusica c;
     criadorChart := criadorChart c; album := album c; ano := ano c;
     genero := genero c; tipoMidia := tipoMidia c;
     offset := if String.eqb campo "Offset" then v else offset c;
     resolucao := resolucao c; dificuldade := dificuldade c;
     inicioPreview := if String.eqb campo "PreviewStart" then v else inicioPreview c;
     fimPreview := if String.eqb campo "PreviewEnd" then v else fimPreview c;
     jogador2 := jogador2 c;
     mudancasTempo := mudancasTempo c; assinaturasTempo := assinaturasTempo c;
     notas := notas c |}.

Definition com_int (campo : string) (v : Z) (c : DadosChart Q) : DadosChart Q :=
  {| nome := nome c; artista := artista c; streamMusica := streamMusica c;
     criadorChart := criadorChart c; album := album c; ano := ano c;
     genero := genero c; tipoMidia := tipoMidia c;
     offset := offset c;
     resolucao := if String.eqb campo "Resolution" then v else resolucao c;
     dificuldade := if String.eqb campo "Difficulty" then v else dificuldade c;
     inicioPreview := inicioPreview c; fimPreview := fimPreview c;
     jogador2 := jogador2 c;
     mudancasTempo := mudancasTempo c; assinaturasTempo := assinaturasTempo c;
     notas := notas c |}.

Definition com_tempos (m : gmap Z MudancaTempo) (c : DadosChart Q) : DadosChart Q :=
  {| nome := nome c; artista := artista c; streamMusica := streamMusica c;
     criadorChart := criadorChart c; album := album c; ano := ano c;
     genero := genero c; tipoMidia := tipoMidia c;
     offset := offset c; resolucao := resolucao c; dificuldade := dificuldade c;
     inicioPreview := inicioPreview c; fimPreview := fimPreview c;
     jogador2 := jogador2 c;
     mudancasTempo := m; assinaturasTempo := assinaturasTempo c;
     notas := notas c |}.

Definition com_assinaturas (m : gmap Z AssinaturaTempo) (c : DadosChart Q) : DadosChart Q :=
  {| nome := nome c; artista := artista c; streamMusica := streamMusica c;
     criadorChart := criadorChart c; album := album c; ano := ano c;
     genero := genero c; tipoMidia := tipoMidia c;
     offset := offset c; resolucao := resolucao c; dificuldade := dificuldade c;
     inicioPreview := inicioPreview c; fimPreview := fimPreview c;
     jogador2 := jogador2 c;
     mudancasTempo := mudancasTempo c; assinaturasTempo := m;
     notas := notas c |}.

Definition com_notas (l : list NotaChart) (c : DadosChart Q) : DadosChart Q :=
  {| nome := nome c; artista := artista c; streamMusica := streamMusica c;
     criadorChart := criadorChart c; album := album c; ano := ano c;
     genero := genero c; tipoMidia := tipoMidia c;
     offset := offset c; resolucao := resolucao c; dificuldade := dificuldade c;
     inicioPreview := inicioPreview c; fimPreview := fimPreview c;
     jogador2 := jogador2 c;
     mudancasTempo := mudancasTempo c; assinaturasTempo := assinaturasTempo c;
     notas := l |}.

(** [std::map::emplace]: nothing happens when the key is there already. *)
Definition emplace {V} (k : Z) (v : V) (m : gmap Z V) : gmap Z V :=
  match m !! k with
  | Some _ => m
  | None => <[k := v]> m
  end.

(** The value of a [Song] line without the quotes around it. *)
Definition aspas : ascii := ascii_of_nat 34.
Definition sem_aspas (valor : string) : string :=
  let n := String.length valor in
  if (2 <=? n)%nat
     && bool_decide (String.get 0 valor = Some aspas)
     && bool_decide (String.get (n - 1) valor = Some aspas)
  then substring 1 (n - 2) valor
  else valor.

Definition chaves_texto : list string :=
  ["Name"; "Artist"; "Charter"; "Album"; "Year"; "Genre"; "MediaType";
   "Player2"; "MusicStream"].
Definition chaves_double : list string := ["Offset"; "PreviewStart"; "PreviewEnd"].
Definition chaves_int : list string := ["Resolution"; "Difficulty"].
Definition esta_em (s : string) (l : list string) : bool := existsb (String.eqb s) l.

(** [ParserChart::processarLinhaNaSecao]. *)
Definition processarLinhaNaSecao (chart : DadosChart Q) (secao linha : string)
    : resultado (DadosChart Q) :=
  if String.eqb secao "Song" then
    match regex_match linha padraoChaveValor with
    | Some correspondencia =>
        let chave := str correspondencia 1 in
        let valor := sem_aspas (str correspondencia 2) in
        if esta_em chave chaves_texto then Valor (com_texto chave valor chart)
        else if esta_em chave chaves_double then
          v ← stod valor; Valor (com_double chave v chart)
        else if esta_em chave chaves_int then
          v ← stoi valor; Valor (com_int chave v chart)
        else Valor chart
    | None => Valor chart
    end
  else if String.eqb secao "SyncTrack" then
    match regex_match linha padraoTempo with
    | Some correspondencia =>
        t ← stoi (str correspondencia 1);
        v ← stoi (str correspondencia 2);
        Valor (com_tempos
                 (emplace t {| tick := t; valorBruto := v |} (mudancasTempo chart))
                 chart)
    | None =>
        match regex_match linha padraoAssinaturaTempo with
        | Some correspondencia =>
            d ← (if bool_decide (is_Some (correspondencia !! 3%nat))
                 then stoi (str correspondencia 3) else Valor 4);
            let denominador := if (d =? 0)%Z then 4 else d in
            t ← stoi (str correspondencia 1);
            n ← stoi (str correspondencia 2);
            Valor (com_assinaturas
                     (emplace t {| ts_tick := t; numerador := n;
                                   denominador := denominador |}
                        (assinaturasTempo chart))
                     chart)
        | None => Valor chart
        end
    end
  else if String.eqb secao "ExpertSingle" || String.eqb secao "HardSingle"
          || String.eqb secao "MediumSingle" || String.eqb secao "EasySingle" then
    match regex_match linha padraoNota with
    | Some correspondencia =>
        t ← stoi (str correspondencia 1);
        tr ← stoi (str correspondencia 2);
        comp ← stoi (str correspondencia 3);
        Valor (com_notas
                 (notas chart ++ [{| n_tick := t; traste := tr; comprimento := comp |}])
                 chart)
    | None => Valor chart
    end
  else Valor chart.

(** One turn of the loop over the lines; the state is the current section
    and the chart. *)
Definition processarLinha (estado : string * DadosChart Q) (linhaLida : string)
    : resultado (string * DadosChart Q) :=
  let '(secaoAtual, dadosChart) := estado in
  let linhaAtual := aparar linhaLida in
  if String.eqb linhaAtual "" || String.prefix "//" linhaAtual then Valor estado
  else
    match regex_match linhaAtual padraoSecao with
    | Some correspondencia => Valor (str correspondencia 1, dadosChart)
    | None =>
        if String.eqb linhaAtual "{" || String.eqb linhaAtual "}" then Valor estado
        else if negb (String.eqb secaoAtual "") then
          c ← processarLinhaNaSecao dadosChart secaoAtual linhaAtual;
          Valor (secaoAtual, c)
        else Valor estado
    end.

Fixpoint processarLinhas (estado : string * DadosChart Q) (linhas : list string)
    : resultado (string * DadosChart Q) :=
  match linhas with
  | [] => Valor estado
  | l :: resto => e ← processarLinha estado l; processarLinhas e resto
  end.

Definition nota_le (a b : NotaChart) : Prop := n_tick a ≤ n_tick b.
#[global] Instance nota_le_dec a b : Decision (nota_le a b).
Proof. unfold nota_le. apply _. Defined.

(** [lerArquivoUtf8]: the bytes of the file without a byte order mark,
    nothing when the file cannot be opened ([arquivo = None]). *)
Definition lerArquivoUtf8 (arquivo : option string) : string :=
  match arquivo with
  | None => ""
  | Some conteudo =>
      match conteudo with
      | String a (String b (String c resto)) =>
          if ((codigo a =? 239) && (codigo b =? 187) && (codigo c =? 191))%Z
          then resto else conteudo
      | _ => conteudo
      end
  end.

(** [ParserChart::fazerParsingChart], on the file at the path: [None] is
    [std::nullopt]. *)
Definition fazerParsingChart (arquivo : option string)
    : resultado (option (DadosChart Q)) :=
  let conteudoUtf8 := lerArquivoUtf8 arquivo in
  if String.eqb conteudoUtf8 "" then Valor None
  else
    e ← processarLinhas ("", dadosChartInicial) (getlines conteudoUtf8);
    Valor (Some (com_notas (merge_sort nota_le (notas e.2)) e.2)).

End ParserChart.

(** ** Constants of the game *)

Definition ALTURA_JANELA : Z := 1200.
Definition NUMERO_PISTAS : Z := 5.
Definition ALTURA_NOTA : Z := 45.
Definition Y_ZONA_ACERTO : Z := ALTURA_JANELA - 100.
Definition ALTURA_ZONA_ACERTO : Z := 75.
Definition VELOCIDADE_QUEDA_NOTA_PPS : Q := 800.
Definition FPS_JOGO : Z := 165.
Definition ATUALIZACAO_JOGO_MS : Z := 1000 / FPS_JOGO.
Definition TOLERANCIA_ACERTO_MS : Z := 200.
Definition OFFSET_LATENCIA_AUDIO_SEC : Q := 0.
(** [sf::seconds(0.08f)], in microseconds as [sf::Time] keeps it. *)
Definition INTERVALO_SPAWN_PARTICULA_SUSTAIN : Z := 80000.
(** [tempoPorFrame], in microseconds. *)
Definition tempoPorFrame : Z := ATUALIZACAO_JOGO_MS * 1000.

(** [<] on exact numbers. *)
Definition Qltb (a b : Q) : bool := negb (Qle_bool b a).

(** ** Players and notes *)

Module Keyboard.
(** [sf::Keyboard::Key]: the keys of the two players, the space bar, and
    the other keys by their number. *)
Inductive Key :=
| A | S | D | F | G | J | K | L | Semicolon | Apostrophe | Space
| Outra (n : nat).

#[global] Instance Key_eq_dec : EqDecision Key.
Proof. solve_decision. Defined.

Definition para_nat (k : Key) : nat :=
  match k with
  | A => 0 | S => 1 | D => 2 | F => 3 | G => 4 | J => 5 | K => 6 | L => 7
  | Semicolon => 8 | Apostrophe => 9 | Space => 10 | Outra n => 11 + n
  end.
Definition de_nat (n : nat) : Key :=
  match n with
  | 0 => A | 1 => S | 2 => D | 3 => F | 4 => G | 5 => J | 6 => K | 7 => L
  | 8 => Semicolon | 9 => Apostrophe | 10 => Space | _ => Outra (n - 11)
  end%nat.

#[global] Instance Key_countable : Countable Key.
Proof.
  apply (inj_countable' para_nat de_nat).
  intros []; try reflexivity.
  simpl. f_equal. lia.
Defined.
End Keyboard.


(** [struct Jogador].  (The name and the place on the screen are read by
    the drawing only.) *)
Record Jogador := {
  pontuacao : Z;
  mapeamentoTeclaPista : gmap Keyboard.Key Z;
  teclasPresionadas : gset Keyboard.Key;
  pistaPermiteAcertoNotaCurta : gmap Z bool
}.

(** The constructor of [Jogador]: every lane of the key map allows a hit. *)
Definition novoJogador (mapaTeclas : gmap Keyboard.Key Z) : Jogador :=
  {| pontuacao := 0;
     mapeamentoTeclaPista := mapaTeclas;
     teclasPresionadas := ∅;
     pistaPermiteAcertoNotaCurta :=
       foldr (λ par m, <[par.2 := true]> m) ∅ (map_to_list mapaTeclas) |}.

(** [Jogador::adicionarPontuacao]. *)
Definition adicionarPontuacao (pontos : Z) (j : Jogador) : Jogador :=
  {| pontuacao := pontuacao j + pontos;
     mapeamentoTeclaPista := mapeamentoTeclaPista j;
     teclasPresionadas := teclasPresionadas j;
     pistaPermiteAcertoNotaCurta := pistaPermiteAcertoNotaCurta j |}.

Definition com_teclas (t : gset Keyboard.Key) (j : Jogador) : Jogador :=
  {| pontuacao := pontuacao j;
     mapeamentoTeclaPista := mapeamentoTeclaPista j;
     teclasPresionadas := t;
     pistaPermiteAcertoNotaCurta := pistaPermiteAcertoNotaCurta j |}.

Definition com_permissoes (p : gmap Z bool) (j : Jogador) : Jogador :=
  {| pontuacao := pontuacao j;
     mapeamentoTeclaPista := mapeamentoTeclaPista j;
     teclasPresionadas := teclasPresionadas j;
     pistaPermiteAcertoNotaCurta := p |}.

Definition com_pontuacao (p : Z) (j : Jogador) : Jogador :=
  {| pontuacao := p;
     mapeamentoTeclaPista := mapeamentoTeclaPista j;
     teclasPresionadas := teclasPresionadas j;
     pistaPermiteAcertoNotaCurta := pistaPermiteAcertoNotaCurta j |}.

(** The owner of a note: a pointer to one of the two players. *)
Inductive Dono := J1 | J2.
#[global] Instance Dono_eq_dec : EqDecision Dono.
Proof. solve_decision. Defined.

(** [struct Nota].  (The colour is read by the drawing only.) *)
Record Nota := {
  timestampSec : Q;
  tickOriginal : Z;
  pista : Z;
  traste : Z;
  posicaoY : Q;
  naTela : bool;
  acertada : bool;
  perdida : bool;
  dono : Dono;
  ehNotaLonga : bool;
  tempoFimSustainSec : Q;
  sustainAtivo : bool;
  sustainCompleto : bool;
  tempoAtePróximaParticulaSustain : Z
}.

(** The constructor of [Nota]. *)
Definition novaNota (notaChart : Chart.NotaChart) (timestampSeg fimSustainSeg : Q)
    (proprietario : Dono) : Nota :=
  {| timestampSec := timestampSeg;
     tickOriginal := Chart.n_tick notaChart;
     pista := Chart.traste notaChart;
     traste := Chart.traste notaChart;
     posicaoY := 0;
     naTela := false; acertada := false; perdida := false;
     dono := proprietario;
     ehNotaLonga := 0 <? Chart.comprimento notaChart;
     tempoFimSustainSec := fimSustainSeg;
     sustainAtivo := false; sustainCompleto := false;
     tempoAtePróximaParticulaSustain := 0 |}.

(** Assignments to the fields of a note that the game changes. *)
Definition com_posicaoY (y : Q) (n : Nota) : Nota :=
  {| timestampSec := timestampSec n; tickOriginal := tickOriginal n;
     pista := pista n; traste := traste n; posicaoY := y;
     naTela := naTela n; acertada := acertada n; perdida := perdida n;
     dono := dono n; ehNotaLonga := ehNotaLonga n;
     tempoFimSustainSec := tempoFimSustainSec n;
     sustainAtivo := sustainAtivo n; sustainCompleto := sustainCompleto n;
     tempoAtePróximaParticulaSustain := tempoAtePróximaParticulaSustain n |}.

Definition com_naTela (b : bool) (n : Nota) : Nota :=
  {| timestampSec := timestampSec n; tickOriginal := tickOriginal n;
     pista := pista n; traste := traste n; posicaoY := posicaoY n;
     naTela := b; acertada := acertada n; perdida := perdida n;
     dono := dono n; ehNotaLonga := ehNotaLonga n;
     tempoFimSustainSec := tempoFimSustainSec n;
     sustainAtivo := sustainAtivo n; sustainCompleto := sustainCompleto n;
     tempoAtePróximaParticulaSustain := tempoAtePróximaParticulaSustain n |}.

Definition com_acertada (b : bool) (n : Nota) : Nota :=
  {| timestampSec := timestampSec n; tickOriginal := tickOriginal n;
     pista := pista n; traste := traste n; posicaoY := posicaoY n;
     naTela := naTela n; acertada := b; perdida := perdida n;
     dono := dono n; ehNotaLonga := ehNotaLonga n;
     tempoFimSustainSec := tempoFimSustainSec n;
     sustainAtivo := sustainAtivo n; sustainCompleto := sustainCompleto n;
     tempoAtePróximaParticulaSustain := tempoAtePróximaParticulaSustain n |}.

Definition com_perdida (b : bool) (n : Nota) : Nota :=
  {| timestampSec := timestampSec n; tickOriginal := tickOriginal n;
     pista := pista n; traste := traste n; posicaoY := posicaoY n;
     naTela := naTela n; acertada := acertada n; perdida := b;
     dono := dono n; ehNotaLonga := ehNotaLonga n;
     tempoFimSustainSec := tempoFimSustainSec n;
     sustainAtivo := sustainAtivo n; sustainCompleto := sustainCompleto n;
     tempoAtePróximaParticulaSustain := tempoAtePróximaParticulaSustain n |}.

Definition com_sustainAtivo (b : bool) (n : Nota) : Nota :=
  {| timestampSec := timestampSec n; tickOriginal := tickOriginal n;
     pista := pista n; traste := traste n; posicaoY := posicaoY n;
     naTela := naTela n; acertada := acertada n; perdida := perdida n;
     dono := dono n; ehNotaLonga := ehNotaLonga n;
     tempoFimSustainSec := tempoFimSustainSec n;
     sustainAtivo := b; sustainCompleto := sustainCompleto n;
     tempoAtePróximaParticulaSustain := tempoAtePróximaParticulaSustain n |}.

Definition com_sustainCompleto (b : bool) (n : Nota) : Nota :=
  {| timestampSec := timestampSec n; tickOriginal := tickOriginal n;
     pista := pista n; traste := traste n; posicaoY := posicaoY n;
     naTela := naTela n; acertada := acertada n; perdida := perdida n;
     dono := dono n; ehNotaLonga := ehNotaLonga n;
     tempoFimSustainSec := tempoFimSustainSec n;
     sustainAtivo := sustainAtivo n; sustainCompleto := b;
     tempoAtePróximaParticulaSustain := tempoAtePróximaParticulaSustain n |}.

Definition com_tempoParticula (t : Z) (n : Nota) : Nota :=
  {| timestampSec := timestampSec n; tickOriginal := tickOriginal n;
     pista := pista n; traste := traste n; posicaoY := posicaoY n;
     naTela := naTela n; acertada := acertada n; perdida := perdida n;
     dono := dono n; ehNotaLonga := ehNotaLonga n;
     tempoFimSustainSec := tempoFimSustainSec n;
     sustainAtivo := sustainAtivo n; sustainCompleto := sustainCompleto n;
     tempoAtePróximaParticulaSustain := t |}.

(** ** The game: what one update and one key event do to the notes *)

Section Regras.
Local Open Scope Q_scope.

(** Half the height of a note head, [ALTURA_NOTA / 2.f]. *)
Definition raioCapeca : Q := inject_Z ALTURA_NOTA / 2.

(** The length of the tail of a long note on the screen. *)
Definition pixelsSustain (nota : Nota) : Q :=
  (tempoFimSustainSec nota - timestampSec nota) * VELOCIDADE_QUEDA_NOTA_PPS.

(** [Jogo::atualizarVisibilidadeNota]. *)
Definition atualizarVisibilidadeNota (nota : Nota) : Nota :=
  let cabecaPotencialmenteVisivel :=
    Qltb 0 (posicaoY nota + raioCapeca)
    && Qltb (posicaoY nota - raioCapeca) (inject_Z ALTURA_JANELA) in
  let caldaPotencialmenteVisivel :=
    if ehNotaLonga nota then
      let yTopoRealCalda := posicaoY nota - Qmax 0 (pixelsSustain nota) in
      let yFundoRealCalda := posicaoY nota in
      Qltb 0 yFundoRealCalda && Qltb yTopoRealCalda (inject_Z ALTURA_JANELA)
    else false in
  let nota :=
    if (cabecaPotencialmenteVisivel || caldaPotencialmenteVisivel)
       && negb (naTela nota)
    then com_naTela true nota else nota in
  if naTela nota then
    if Qltb (posicaoY nota + raioCapeca) 0 then
      let nota :=
        if negb (acertada nota) && negb (perdida nota)
        then com_perdida true nota else nota in
      com_naTela false nota
    else
      let yVisualMaisAlto :=
        if ehNotaLonga nota then posicaoY nota - pixelsSustain nota
        else posicaoY nota - raioCapeca in
      if Qltb (inject_Z ALTURA_JANELA) yVisualMaisAlto then
        let nota :=
          if negb (acertada nota) && negb (perdida nota)
          then com_perdida true nota else nota in
        let nota :=
          if ehNotaLonga nota && acertada nota && negb (sustainCompleto nota)
          then com_perdida true nota else nota in
        com_naTela false nota
      else com_naTela true nota
  else nota.

(** [Jogo::verificarNotaPerdida]. *)
Definition verificarNotaPerdida (nota : Nota) (tempoMusicaSec : Q) : Nota :=
  if negb (ehNotaLonga nota)
     && Qltb (inject_Z (Y_ZONA_ACERTO + ALTURA_ZONA_ACERTO) + raioCapeca)
             (posicaoY nota)
  then com_perdida true nota
  else if ehNotaLonga nota
          && Qltb (tempoFimSustainSec nota + inject_Z TOLERANCIA_ACERTO_MS / 1000)
                  tempoMusicaSec
  then com_perdida true nota
  else nota.

(** The body of the loop of [Jogo::atualizarLogicaJogador].  (The code
    rounds [yAlvo] to a [float] before it stores it; the position is here
    the number before that rounding, so a statement on a position right
    at a limit of a comparison is one of the model only.) *)
Definition atualizarLogicaNota (tempoMusicaSec : Q) (nota : Nota) : Nota :=
  let tempoAteAcerto := timestampSec nota - tempoMusicaSec in
  let yAlvo := inject_Z Y_ZONA_ACERTO - tempoAteAcerto * VELOCIDADE_QUEDA_NOTA_PPS in
  let nota := com_posicaoY yAlvo nota in
  if perdida nota then atualizarVisibilidadeNota nota
  else
    let nota := atualizarVisibilidadeNota nota in
    if naTela nota && negb (acertada nota)
    then verificarNotaPerdida nota tempoMusicaSec
    else nota.

(** [Jogo::atualizarLogicaJogador]. *)
Definition atualizarLogicaJogador (notasJogador : list Nota) (tempoMusicaSec : Q)
    : list Nota :=
  map (atualizarLogicaNota tempoMusicaSec) notasJogador.

(** Whether the player holds a key of the lane. *)
Definition teclaPresionadaParaPista (jogador : Jogador) (p : Z) : bool :=
  existsb (λ par : Keyboard.Key * Z,
             (par.2 =? p)%Z && bool_decide (par.1 ∈ teclasPresionadas jogador))
          (map_to_list (mapeamentoTeclaPista jogador)).

(** The body of the loop of [Jogo::atualizarSustainParaJogador]; [dt] is in
    microseconds.  (The particles that are spawned are not kept.) *)
Definition atualizarSustainNota (tempoMusicaSec : Q) (dt : Z)
    (jogador : Jogador) (nota : Nota) : Jogador * Nota :=
  if negb (ehNotaLonga nota) || sustainCompleto nota || perdida nota
     || negb (naTela nota) || negb (acertada nota)
  then (jogador, nota)
  else
    let dentroPeríodoSustain :=
      Qle_bool (timestampSec nota) tempoMusicaSec
      && Qle_bool tempoMusicaSec (tempoFimSustainSec nota) in
    let '(jogador, nota) :=
      if teclaPresionadaParaPista jogador (pista nota) && dentroPeríodoSustain
      then
        let nota := com_sustainAtivo true nota in
        let jogador := adicionarPontuacao 1 jogador in
        let nota :=
          com_tempoParticula (tempoAtePróximaParticulaSustain nota - dt)%Z nota in
        let nota :=
          if (tempoAtePróximaParticulaSustain nota <=? 0)%Z
          then com_tempoParticula INTERVALO_SPAWN_PARTICULA_SUSTAIN nota
          else nota in
        (jogador, nota)
      else (jogador, com_sustainAtivo false nota) in
    if Qltb (tempoFimSustainSec nota) tempoMusicaSec && sustainAtivo nota
    then (adicionarPontuacao 20 jogador,
          com_sustainAtivo false (com_sustainCompleto true nota))
    else (jogador, nota).

(** [Jogo::atualizarSustainParaJogador]. *)
Fixpoint atualizarSustainParaJogador (jogador : Jogador) (notas : list Nota)
    (tempoMusicaSec : Q) (dt : Z) : Jogador * list Nota :=
  match notas with
  | [] => (jogador, [])
  | nota :: resto =>
      let '(jogador, nota) := atualizarSustainNota tempoMusicaSec dt jogador nota in
      let '(jogador, resto) :=
        atualizarSustainParaJogador jogador resto tempoMusicaSec dt in
      (jogador, nota :: resto)
  end.

(** The condition of [Jogo::verificarAcertoNota] for a hit. *)
Definition podeAcertar (nota : Nota) (pistaAlvo : Z) (tempoMusicaSec : Q) : bool :=
  (pista nota =? pistaAlvo)%Z && negb (acertada nota) && negb (perdida nota)
  && naTela nota
  && Qle_bool (inject_Z (Y_ZONA_ACERTO - ALTURA_NOTA)) (posicaoY nota)
  && Qle_bool (posicaoY nota)
              (inject_Z (Y_ZONA_ACERTO + ALTURA_ZONA_ACERTO + ALTURA_NOTA))
  && Qle_bool (Qabs (timestampSec nota - tempoMusicaSec) * 1000)
              (inject_Z TOLERANCIA_ACERTO_MS).

(** The body of the loop of [Jogo::verificarAcertoNota].  (The sound and
    the particles of a hit are not kept.) *)
Definition acertarNota (pistaAlvo : Z) (tempoMusicaSec : Q)
    (jogador : Jogador) (nota : Nota) : Jogador * Nota :=
  if podeAcertar nota pistaAlvo tempoMusicaSec then
    let nota := com_acertada true nota in
    if ehNotaLonga nota then (adicionarPontuacao 5 jogador, nota)
    else (adicionarPontuacao 10 jogador, nota)
  else (jogador, nota).

Fixpoint acertarNotas (pistaAlvo : Z) (tempoMusicaSec : Q)
    (jogador : Jogador) (notas : list Nota) : Jogador * list Nota :=
  match notas with
  | [] => (jogador, [])
  | nota :: resto =>
      let '(jogador, nota) := acertarNota pistaAlvo tempoMusicaSec jogador nota in
      let '(jogador, resto) := acertarNotas pistaAlvo tempoMusicaSec jogador resto in
      (jogador, nota :: resto)
  end.

(** [Jogo::verificarAcertoNota]: the value returned, the player and the
    notes. *)
Definition verificarAcertoNota (jogador : Jogador) (notas : list Nota)
    (pistaAlvo : Z) (tempoMusicaSec : Q) : bool * Jogador * list Nota :=
  let '(jogador, notas) := acertarNotas pistaAlvo tempoMusicaSec jogador notas in
  (false, jogador, notas).

End Regras.

(** [std::map<int, bool>::operator[]]: the value at the key, which is
    inserted as [false] when it is not there. *)
Definition indexar (m : gmap Z bool) (k : Z) : bool * gmap Z bool :=
  match m !! k with
  | Some b => (b, m)
  | None => (false, <[k := false]> m)
  end.

(** [class Jogo], as far as the notes and the scores go. *)
Record Jogo := {
  jogoRodando : bool;
  jogoIniciado : bool;
  chartCarregado : bool;
  jogador1 : Jogador;
  jogador2 : Jogador;
  todasNotasMusicaMestre : list Nota;
  notasJ1 : list Nota;
  notasJ2 : list Nota
}.

Definition ordenarPorTempo (a b : Nota) : Prop :=
  (timestampSec a <= timestampSec b)%Q.
#[global] Instance ordenarPorTempo_dec a b : Decision (ordenarPorTempo a b).
Proof. unfold ordenarPorTempo, Qle. apply _. Defined.

(** A player at the start of a game. *)
Definition reiniciarJogador (j : Jogador) : Jogador :=
  {| pontuacao := 0;
     mapeamentoTeclaPista := mapeamentoTeclaPista j;
     teclasPresionadas := ∅;
     pistaPermiteAcertoNotaCurta := (λ _, true) <$> pistaPermiteAcertoNotaCurta j |}.

(** The notes of an owner, copied from the master list for a new game. *)
Definition instanciasDe (d : Dono) (mestre : list Nota) : list Nota :=
  merge_sort ordenarPorTempo
    (com_tempoParticula 0 <$> filter (λ n, dono n = d) mestre).

(** [Jogo::iniciarJogo].  (The music is started by the caller's clock.) *)
Definition iniciarJogo (g : Jogo) : Jogo :=
  if negb (chartCarregado g) || jogoIniciado g then g
  else
    {| jogoRodando := true;
       jogoIniciado := true;
       chartCarregado := chartCarregado g;
       jogador1 := reiniciarJogador (jogador1 g);
       jogador2 := reiniciarJogador (jogador2 g);
       todasNotasMusicaMestre := todasNotasMusicaMestre g;
       notasJ1 := instanciasDe J1 (todasNotasMusicaMestre g);
       notasJ2 := instanciasDe J2 (todasNotasMusicaMestre g) |}.

(** The closure [processarTeclaPressJogador] of [Jogo::processarTeclaPress];
    [posicaoMusica] is [musica.getPlayingOffset()], in seconds, when the key
    event is handled. *)
Definition processarTeclaPressJogador (tecla : Keyboard.Key) (posicaoMusica : Q)
    (jogador : Jogador) (notasJogador : list Nota) : Jogador * list Nota :=
  match mapeamentoTeclaPista jogador !! tecla with
  | Some p =>
      let jogador := com_teclas ({[tecla]} ∪ teclasPresionadas jogador) jogador in
      let '(permite, permissoes) := indexar (pistaPermiteAcertoNotaCurta jogador) p in
      let jogador := com_permissoes permissoes jogador in
      if permite then
        let tempoAtualMusicaSec := (posicaoMusica + OFFSET_LATENCIA_AUDIO_SEC)%Q in
        let '(notaCurtaFoiAcertada, jogador, notasJogador) :=
          verificarAcertoNota jogador notasJogador p tempoAtualMusicaSec in
        if notaCurtaFoiAcertada
        then (com_permissoes (<[p := false]> (pistaPermiteAcertoNotaCurta jogador))
                jogador, notasJogador)
        else (jogador, notasJogador)
      else (jogador, notasJogador)
  | None => (jogador, notasJogador)
  end.

(** [Jogo::processarTeclaPress]. *)
Definition processarTeclaPress (g : Jogo) (tecla : Keyboard.Key) (posicaoMusica : Q)
    : Jogo :=
  if bool_decide (tecla = Keyboard.Space) && negb (jogoIniciado g) && chartCarregado g
  then iniciarJogo g
  else if negb (jogoRodando g) then g
  else
    let '(j1, n1) :=
      processarTeclaPressJogador tecla posicaoMusica (jogador1 g) (notasJ1 g) in
    let '(j2, n2) :=
      processarTeclaPressJogador tecla posicaoMusica (jogador2 g) (notasJ2 g) in
    {| jogoRodando := jogoRodando g; jogoIniciado := jogoIniciado g;
       chartCarregado := chartCarregado g;
       jogador1 := j1; jogador2 := j2;
       todasNotasMusicaMestre := todasNotasMusicaMestre g;
       notasJ1 := n1; notasJ2 := n2 |}.

(** The closure [processarTeclaReleaseJogador]. *)
Definition processarTeclaReleaseJogador (tecla : Keyboard.Key) (jogador : Jogador) : Jogador :=
  match mapeamentoTeclaPista jogador !! tecla with
  | Some p =>
      com_permissoes (<[p := true]> (pistaPermiteAcertoNotaCurta jogador))
        (com_teclas (teclasPresionadas jogador ∖ {[tecla]}) jogador)
  | None => jogador
  end.

(** [Jogo::processarTeclaRelease]. *)
Definition processarTeclaRelease (g : Jogo) (tecla : Keyboard.Key) : Jogo :=
  if negb (jogoRodando g) then g
  else
    {| jogoRodando := jogoRodando g; jogoIniciado := jogoIniciado g;
       chartCarregado := chartCarregado g;
       jogador1 := processarTeclaReleaseJogador tecla (jogador1 g);
       jogador2 := processarTeclaReleaseJogador tecla (jogador2 g);
       todasNotasMusicaMestre := todasNotasMusicaMestre g;
       notasJ1 := notasJ1 g; notasJ2 := notasJ2 g |}.

(** A note that is still to be resolved. *)
Definition temNotasAtivas (notas : list Nota) : bool :=
  existsb (λ nota, naTela nota && negb (acertada nota) && negb (perdida nota)) notas.

(** [Jogo::atualizar]: [posicaoMusica] is [musica.getPlayingOffset()] in
    seconds and [tocando] whether the status of the music is [Playing];
    [dt], in microseconds, is the fixed step. *)
Definition atualizar (g : Jogo) (dt : Z) (posicaoMusica : Q) (tocando : bool) : Jogo :=
  if negb (jogoRodando g) then g
  else
    let tempoAtualMusicaSec := (posicaoMusica + OFFSET_LATENCIA_AUDIO_SEC)%Q in
    let n1 := atualizarLogicaJogador (notasJ1 g) tempoAtualMusicaSec in
    let n2 := atualizarLogicaJogador (notasJ2 g) tempoAtualMusicaSec in
    let '(j1, n1) := atualizarSustainParaJogador (jogador1 g) n1 tempoAtualMusicaSec dt in
    let '(j2, n2) := atualizarSustainParaJogador (jogador2 g) n2 tempoAtualMusicaSec dt in
    {| jogoRodando :=
         if negb tocando && jogoIniciado g
         then (if negb (temNotasAtivas n1) && negb (temNotasAtivas n2)
               then false else jogoRodando g)
         else jogoRodando g;
       jogoIniciado := jogoIniciado g;
       chartCarregado := chartCarregado g;
       jogador1 := j1; jogador2 := j2;
       todasNotasMusicaMestre := todasNotasMusicaMestre g;
       notasJ1 := n1; notasJ2 := n2 |}.

(** The key maps of the two players, as the constructor of [Jogo] gives
    them. *)
Definition teclasJogador1 : gmap Keyboard.Key Z :=
  list_to_map [(Keyboard.A, 0); (Keyboard.S, 1); (Keyboard.D, 2);
               (Keyboard.F, 3); (Keyboard.G, 4)].
Definition teclasJogador2 : gmap Keyboard.Key Z :=
  list_to_map [(Keyboard.J, 0); (Keyboard.K, 1); (Keyboard.L, 2);
               (Keyboard.Semicolon, 3); (Keyboard.Apostrophe, 4)].

(** ** Loading the chart *)

(** A call of [ticksParaSegundos] by the game.  A division by zero would
    leave a number that is not finite. *)
Definition segundosDoTick (calc : Chart.CalculadoraTempo Q) (t : Z) : resultado Q :=
  match Chart.ticksParaSegundos calc t with
  | Some segundos => Valor segundos
  | None => NaoFinito
  end.

(** The loop of [Jogo::carregarDadosChart] over the notes of the chart: a
    note whose fret is below [NUMERO_PISTAS] makes a note for each player.
    (The sum [tick + comprimento] is that of [Z]; in the code it is one of
    [int].) *)
Fixpoint converterNotas (calc : Chart.CalculadoraTempo Q)
    (notasChart : list Chart.NotaChart) : resultado (list Nota) :=
  match notasChart with
  | [] => Valor []
  | notaChart :: resto =>
      if Chart.traste notaChart <? NUMERO_PISTAS then
        tempoNotaSec ← segundosDoTick calc (Chart.n_tick notaChart);
        tempoFimSustainSec ←
          (if 0 <? Chart.comprimento notaChart
           then segundosDoTick calc
                  (Chart.n_tick notaChart + Chart.comprimento notaChart)
           else Valor tempoNotaSec);
        convertidas ← converterNotas calc resto;
        Valor (novaNota notaChart tempoNotaSec tempoFimSustainSec J1
               :: novaNota notaChart tempoNotaSec tempoFimSustainSec J2
               :: convertidas)
      else converterNotas calc resto
  end.

(** [std::string::rfind('.')]: the place of the last point. *)
Fixpoint ultimoPonto (s : string) (i : nat) (achado : option nat) : option nat :=
  match s with
  | EmptyString => achado
  | String c s' =>
      ultimoPonto s' (S i) (if Ascii.eqb c "." then Some i else achado)
  end.

(** [Jogo::carregarAudio]: whether a file of music is found.  [abre] tells
    of a path whether [musica.openFromFile] opens it. *)
Definition carregarAudio (abre : string → bool) (chart : Chart.DadosChart Q) : bool :=
  let nomeArquivoAudio :=
    if String.eqb (Chart.streamMusica chart) EmptyString then "song.ogg"%string
    else Chart.streamMusica chart in
  if abre nomeArquivoAudio then true
  else
    let nomeBase :=
      match ultimoPonto nomeArquivoAudio 0 None with
      | None => nomeArquivoAudio
      | Some posicaoPonto => substring 0 posicaoPonto nomeArquivoAudio
      end in
    existsb (λ ext, abre (String.append nomeBase ext))
      [".ogg"; ".wav"; ".flac"; ".mp3"]%string.

(** The game as its constructor leaves it: [Jogo::carregarDadosChart] on
    the file of the chart ([None] when it cannot be opened). *)
Definition carregarDadosChart (arquivo : option string) (abre : string → bool)
    : resultado Jogo :=
  chartProcessado ← ParserChart.fazerParsingChart arquivo;
  match chartProcessado with
  | None =>
      Valor {| jogoRodando := false; jogoIniciado := false;
               chartCarregado := false;
               jogador1 := novoJogador teclasJogador1;
               jogador2 := novoJogador teclasJogador2;
               todasNotasMusicaMestre := []; notasJ1 := []; notasJ2 := [] |}
  | Some dadosChart =>
      let calculadoraTempo := Chart.novaCalculadoraTempo dadosChart in
      convertidas ← converterNotas calculadoraTempo (Chart.notas dadosChart);
      Valor {| jogoRodando := false; jogoIniciado := false;
               chartCarregado := carregarAudio abre dadosChart;
               jogador1 := novoJogador teclasJogador1;
               jogador2 := novoJogador teclasJogador2;
               todasNotasMusicaMestre := merge_sort ordenarPorTempo convertidas;
               notasJ1 := []; notasJ2 := [] |}
  end.

(** ** The score as text *)

(** The character of a decimal digit. *)
Definition digito (d : Z) : ascii := ascii_of_nat (Z.to_nat (48 + d)).

(** The decimal digits of a number that is not negative, in front of
    [resto]; [n] bounds their number. *)
Fixpoint decimal (n : nat) (v : Z) (resto : string) : string :=
  match n with
  | O => resto
  | S n' =>
      let resto' := String (digito (v mod 10)) resto in
      if v <? 10 then resto' else decimal n' (v / 10) resto'
  end.

(** [std::to_string(int)]: an [int] has ten digits at most. *)
Definition to_string (v : Z) : string :=
  if v <? 0 then String "-" (decimal 10 (- v) EmptyString)
  else decimal 10 v EmptyString.

(** The loop of the closure [formatarPontuacao] of
    [Jogo::desenharPainelCentral], from the last character of the text to
    the first: [invertida] holds the characters that are still to be
    taken, the last one first. *)
Fixpoint agrupar (invertida : list ascii) (contador : Z) (resultado : string)
    : string :=
  match invertida with
  | [] => resultado
  | c :: resto =>
      let resultado :=
        if (0 <? contador) && (Z.rem contador 3 =? 0)
        then String "," resultado else resultado in
      agrupar resto (contador + 1) (String c resultado)
  end.

(** The closure [formatarPontuacao]. *)
Definition formatarPontuacao (pontuacao : Z) : string :=
  agrupar (rev (list_ascii_of_string (to_string pontuacao))) 0 EmptyString.

(** ** Lines of text for the panel *)

(** The words that [operator>>] reads from a stream one after the other:
    the runs of characters that are not white space.  [atual] holds the
    characters of the word that is being read, the last one first. *)
Fixpoint palavras_aux (s : string) (atual : list ascii) : list string :=
  match s with
  | EmptyString =>
      match atual with
      | [] => []
      | _ => [string_of_list_ascii (rev atual)]
      end
  | String c s' =>
      if isspace c then
        match atual with
        | [] => palavras_aux s' []
        | _ => string_of_list_ascii (rev atual) :: palavras_aux s' []
        end
      else palavras_aux s' (c :: atual)
  end.
Definition palavras (s : string) : list string := palavras_aux s [].

Section QuebrarTexto.
(** The width of a line of text in the font and the size of the call,
    [textoTeste.getLocalBounds().size.x]. *)
Variable largura : string → Q.

(** The loop of [Jogo::quebrarTexto] over the words. *)
Fixpoint quebrarPalavras (larguraMaxima : Q) (restantes : list string)
    (linhaAtual : string) (linhas : list string) : list string :=
  match restantes with
  | [] =>
      if String.eqb linhaAtual EmptyString then linhas else linhas ++ [linhaAtual]
  | palavra :: restantes' =>
      let linhaTestada :=
        if String.eqb linhaAtual EmptyString then palavra
        else String.append linhaAtual (String " " palavra) in
      if Qle_bool (largura linhaTestada) larguraMaxima
      then quebrarPalavras larguraMaxima restantes' linhaTestada linhas
      else if negb (String.eqb linhaAtual EmptyString)
      then quebrarPalavras larguraMaxima restantes' palavra (linhas ++ [linhaAtual])
      else quebrarPalavras larguraMaxima restantes' EmptyString (linhas ++ [palavra])
  end.

(** [Jogo::quebrarTexto], for a text that is given by its bytes in UTF-8. *)
Definition quebrarTexto (texto : string) (larguraMaxima : Q) : list string :=
  if String.eqb texto EmptyString then []
  else quebrarPalavras larguraMaxima (palavras texto) EmptyString [].
End QuebrarTexto.

(** ** Particles *)

Definition TEMPO_VIDA_PARTICULA_MAX_SEC : Q := 1 # 2.

(** [struct Particula]: the place, the speed, the time to live in
    microseconds, and of the shape the alpha of its colour. *)
Record Particula := {
  posicao : Q * Q;
  velocidade : Q * Q;
  tempoVida : Z;
  alfa : Z
}.

(** The predicate of [std::erase_if] in [Jogo::atualizarParticulas]:
    [None] for a particle that is erased.  (The conversion of the alpha to
    [std::uint8_t] is that of a number from 0 to 255.) *)
Definition atualizarParticula (dt : Z) (p : Particula) : option Particula :=
  let tempoVida := tempoVida p - dt in
  if tempoVida <=? 0 then None
  else
    let dtSec := (inject_Z dt / 1000000)%Q in
    let proporcaoTempoVida :=
      (inject_Z tempoVida / 1000000 / TEMPO_VIDA_PARTICULA_MAX_SEC)%Q in
    Some {| posicao := ((posicao p).1 + (velocidade p).1 * dtSec,
                        (posicao p).2 + (velocidade p).2 * dtSec)%Q;
            velocidade := velocidade p;
            tempoVida := tempoVida;
            alfa := Qfloor (Qmax 0 (255 * proporcaoTempoVida)) |}.

(** [Jogo::atualizarParticulas]. *)
Definition atualizarParticulas (dt : Z) (particulas : list Particula)
    : list Particula :=
  omap (atualizarParticula dt) particulas.

(** * Definitions for the statements *)

(** ** The tempo calculator in exact arithmetic *)

(** Microseconds per beat and seconds per tick of a tempo change. *)
Definition usQ (ev : Chart.MudancaTempo) : Q :=
  if Qle_bool (inject_Z (Chart.valorBruto ev) / inject_Z 1000) (inject_Z 0)
  then inject_Z 0
  else (inject_Z 60000000 / (inject_Z (Chart.valorBruto ev) / inject_Z 1000))%Q.

Definition segundosPorTickQ (res : Z) (ev : Chart.MudancaTempo) : Q :=
  (usQ ev / inject_Z res / inject_Z 1000000)%Q.

(** The ticks of the tempo changes after the current one increase
    strictly, from the current tick on. *)
Definition crescente (cur : Z) (resto : list Chart.MudancaTempo) : Prop :=
  StronglySorted Z.lt (cur :: (Chart.tick <$> resto)).

(** The tick at which the current segment ends. *)
Definition proximoTick (resto : list Chart.MudancaTempo) : Z :=
  match resto with
  | p :: _ => Chart.tick p
  | [] => INT_MAX
  end.

(** What the parser guarantees of the tempo changes of a chart: each is
    filed under its own tick, which is not negative. *)
Definition temposBemFormados (m : gmap Z Chart.MudancaTempo) : Prop :=
  map_Forall (λ k ev, Chart.tick ev = k ∧ 0 ≤ k) m.

#[local] Instance tick_le_total : Total Chart.tick_le.
Proof. intros a b. unfold Chart.tick_le. lia. Qed.
#[local] Instance tick_le_trans : Transitive Chart.tick_le.
Proof. intros a b c. unfold Chart.tick_le. lia. Qed.

(** The tempo changes of a chart as the constructor of the calculator
    sorts them, before it looks for one at tick 0. *)
Definition eventosOrdenados {D} (chart : Chart.DadosChart D) : list Chart.MudancaTempo :=
  merge_sort Chart.tick_le (Chart.valores_em_ordem (Chart.mudancasTempo chart)).

(** A chart with the given offset, resolution and tempo changes, and the
    other fields as [DadosChart] initialises them. *)
Definition chart_de {D} `{Double D} (off : D) (res : Z)
    (tempos : gmap Z Chart.MudancaTempo) : Chart.DadosChart D :=
  {| Chart.nome := EmptyString; Chart.artista := EmptyString;
     Chart.streamMusica := EmptyString; Chart.criadorChart := EmptyString;
     Chart.album := EmptyString; Chart.ano := EmptyString;
     Chart.genero := EmptyString; Chart.tipoMidia := EmptyString;
     Chart.offset := off; Chart.resolucao := res; Chart.dificuldade := 0;
     Chart.inicioPreview := of_int 0; Chart.fimPreview := of_int 0;
     Chart.jogador2 := EmptyString;
     Chart.mudancasTempo := tempos;
     Chart.assinaturasTempo := ∅;
     Chart.notas := [] |}.

(** One tempo change, at tick 0. *)
Definition um_tempo (raw : Z) : gmap Z Chart.MudancaTempo :=
  {[ 0 := {| Chart.tick := 0; Chart.valorBruto := raw |} ]}.

(** 120 BPM from tick 0 and 150 BPM from tick 384. *)
Definition dois_tempos : gmap Z Chart.MudancaTempo :=
  <[ 384 := {| Chart.tick := 384; Chart.valorBruto := 150000 |} ]> (um_tempo 120000).

(** 150 BPM from tick 384, and nothing before. *)
Definition tempo_tardio : gmap Z Chart.MudancaTempo :=
  {[ 384 := {| Chart.tick := 384; Chart.valorBruto := 150000 |} ]}.

(** The results of the calculator at the ticks [0 .. n], one after the
    other, do not decrease (for runs in binary64). *)
Fixpoint naoDecresce (c : Chart.CalculadoraTempo float) (anterior : float) (t : Z)
    (n : nat) : bool :=
  match n with
  | O => true
  | S n' =>
      match Chart.ticksParaSegundos c t with
      | Some r => PrimFloat.leb anterior r && naoDecresce c r (t + 1) n'
      | None => false
      end
  end.

(** ** The parser *)

(** A line that is neither blank, a comment, a section header nor a brace. *)
Definition linhaDeDados (l : string) : bool :=
  negb (String.eqb l EmptyString || String.prefix "//" l)
  && negb (bool_decide (is_Some (regex_match l padraoSecao)))
  && negb (String.eqb l "{" || String.eqb l "}").

(** The lines that [processarLinhaNaSecao] receives, each with the section
    it is read in, when the loop starts in section [sec]. *)
Fixpoint linhasComSecao (sec : string) (linhas : list string) : list (string * string) :=
  match linhas with
  | [] => []
  | l :: resto =>
      let a := aparar l in
      if String.eqb a EmptyString || String.prefix "//" a then linhasComSecao sec resto
      else
        match regex_match a padraoSecao with
        | Some correspondencia => linhasComSecao (str correspondencia 1) resto
        | None =>
            if String.eqb a "{" || String.eqb a "}" then linhasComSecao sec resto
            else if negb (String.eqb sec EmptyString)
            then (sec, a) :: linhasComSecao sec resto
            else linhasComSecao sec resto
        end
  end.

(** Whether a line of data gives a value to [Resolution] in [Song]. *)
Definition atribuiResolution (par : string * string) : bool :=
  String.eqb par.1 "Song"
  && match regex_match par.2 padraoChaveValor with
     | Some correspondencia => String.eqb (str correspondencia 1) "Resolution"
     | None => false
     end.

(** No line of the section [Song] gives a value to [Resolution]. *)
Definition semResolution (linhas : list string) : Prop :=
  forallb (λ par, negb (atribuiResolution par)) (linhasComSecao EmptyString linhas) = true.

(** The denominator that a [TS] line gives. *)
Definition denominadorDe (correspondencia : captures) : resultado Z :=
  (if bool_decide (is_Some (correspondencia !! 3%nat))
   then stoi (str correspondencia 3) else Valor 4)
  ≫= λ d, Valor (if d =? 0 then 4 else d).

(** The numbers of the groups of a regular expression. *)
Fixpoint grupos (r : regex) : list nat :=
  match r with
  | RChar _ => []
  | RSeq r1 r2 => grupos r1 ++ grupos r2
  | RStar _ r1 => grupos r1
  | ROpt r1 => grupos r1
  | RGroup n r1 => n :: grupos r1
  end.

(** The text of a file from its lines. *)
Definition nl : string := String (ascii_of_nat 10) EmptyString.
Definition juntar (ls : list string) : string :=
  fold_right (λ l s, String.append l (String.append nl s)) EmptyString ls.

(** A chart file with no [Resolution] line. *)
Definition arquivo_sem_resolution : string :=
  juntar ["[Song]"; "{"; "  Name = Teste"; "  Offset = 0.5"; "}";
          "[SyncTrack]"; "{"; "  0 = TS 4"; "  0 = B 120000"; "}";
          "[ExpertSingle]"; "{"; "  192 = N 0 0"; "  96 = N 1 20"; "}"]%string.

(** A chart file whose offset is no number. *)
Definition arquivo_notanumber : string :=
  juntar ["[Song]"; "{"; "  Name = Teste"; "  Offset = notanumber";
          "  Resolution = 192"; "}"]%string.

(** A chart file whose offset [std::stod] reads as a NaN. *)
Definition arquivo_offset_nan : string :=
  juntar ["[Song]"; "{"; "  Offset = nan"; "  Resolution = 192"; "}";
          "[SyncTrack]"; "{"; "  0 = B 120000"; "  384 = B 150000"; "}"]%string.

(** A chart file whose numbers are followed by other text. *)
Definition arquivo_12abc : string :=
  juntar ["[Song]"; "{"; "  Offset = 12abc"; "  Resolution = 192ticks"; "}"]%string.

(** A chart file with two tempo lines and two time signature lines at
    tick 0. *)
Definition arquivo_duplicado : string :=
  juntar ["[Song]"; "{"; "  Resolution = 192"; "}";
          "[SyncTrack]"; "{"; "  0 = TS 4"; "  0 = B 120000";
          "  0 = TS 3 8"; "  0 = B 90000"; "}"]%string.

(** ** Sessions of the game *)

(** What reaches the game: an update at a position of the music, a key
    pressed at a position of the music, a key released. *)
Inductive Evento :=
| Atualizar (posicaoMusica : Q)
| Pressionar (tecla : Keyboard.Key) (posicaoMusica : Q)
| Soltar (tecla : Keyboard.Key).

Definition reagir (g : Jogo) (e : Evento) : Jogo :=
  match e with
  | Atualizar t => atualizar g tempoPorFrame t true
  | Pressionar tecla t => processarTeclaPress g tecla t
  | Soltar tecla => processarTeclaRelease g tecla
  end.

Definition simular (g : Jogo) (eventos : list Evento) : Jogo :=
  fold_left reagir eventos g.

(** The game after its constructor, with a chart loaded that gives the
    master list [mestre]. *)
Definition jogoCarregado (mestre : list Nota) : Jogo :=
  {| jogoRodando := false; jogoIniciado := false; chartCarregado := true;
     jogador1 := novoJogador teclasJogador1;
     jogador2 := novoJogador teclasJogador2;
     todasNotasMusicaMestre := mestre;
     notasJ1 := []; notasJ2 := [] |}.

(** The two notes, one for each player, that a note of the chart makes. *)
Definition parDeNotas (n : Chart.NotaChart) (inicio fim : Q) : list Nota :=
  [novaNota n inicio fim J1; novaNota n inicio fim J2].

(** A long note of lane 0 from second 1/2 to second 1. *)
Definition mestreSustain : list Nota :=
  parDeNotas {| Chart.n_tick := 192; Chart.traste := 0; Chart.comprimento := 192 |}
    (1 # 2) 1.

(** Player 1 presses [A] on time and holds it until after the end. *)
Definition sessaoSustain : list Evento :=
  [Pressionar Keyboard.Space 0; Atualizar (1 # 2); Pressionar Keyboard.A (1 # 2);
   Atualizar (6 # 10); Atualizar (7 # 10); Atualizar (8 # 10); Atualizar (9 # 10);
   Atualizar 1; Atualizar (11 # 10); Atualizar (12 # 10)].

(** A short note of lane 0 at second 1. *)
Definition mestreCurta : list Nota :=
  parDeNotas {| Chart.n_tick := 384; Chart.traste := 0; Chart.comprimento := 0 |} 1 1.

(** The short note of player 1 after an update at [t]. *)
Definition notaCurtaEm (t : Q) : Nota :=
  atualizarLogicaNota t
    (novaNota {| Chart.n_tick := 384; Chart.traste := 0; Chart.comprimento := 0 |}
       1 1 J1).

(** Two short notes of lane 0, at 1/2 s and at 6/10 s. *)
Definition mestreDuasCurtas : list Nota :=
  parDeNotas {| Chart.n_tick := 192; Chart.traste := 0; Chart.comprimento := 0 |}
    (1 # 2) (1 # 2)
  ++ parDeNotas {| Chart.n_tick := 230; Chart.traste := 0; Chart.comprimento := 0 |}
       (6 # 10) (6 # 10).

(** The hit zone: the positions at which a note can be hit. *)
Definition naFaixaDeAcerto (y : Q) : Prop :=
  (inject_Z (Y_ZONA_ACERTO - ALTURA_NOTA) <= y
   ∧ y <= inject_Z (Y_ZONA_ACERTO + ALTURA_ZONA_ACERTO + ALTURA_NOTA))%Q.

(** ** The tempo in force *)

(** The tempo change in force at a tick: the last one of the list, after
    the current one, whose tick is not after it. *)
Fixpoint tempoVigente (ev : Chart.MudancaTempo) (resto : list Chart.MudancaTempo)
    (k : Z) : Chart.MudancaTempo :=
  match resto with
  | p :: resto' => if Chart.tick p <=? k then tempoVigente p resto' k else ev
  | [] => ev
  end.

Definition tempoNoTick {D} (c : Chart.CalculadoraTempo D) (k : Z)
    : option Chart.MudancaTempo :=
  match Chart.mudancasTempoOrdenadas c with
  | ev :: resto => Some (tempoVigente ev resto k)
  | [] => None
  end.

(** ** What the parser reads *)

(** The sections whose lines are lines of notes, and the sections that the
    parser reads. *)
Definition secoesDeNotas : list string :=
  ["ExpertSingle"; "HardSingle"; "MediumSingle"; "EasySingle"]%string.
Definition secoesLidas : list string :=
  ("Song" :: "SyncTrack" :: secoesDeNotas)%string.

(** Whether a line of data is a line of a note, in a section of notes. *)
Definition linhaDeNota (par : string * string) : bool :=
  ParserChart.esta_em par.1 secoesDeNotas
  && bool_decide (is_Some (regex_match par.2 padraoNota)).

(** The numbers of a parsed note are those of an [int] that is not
    negative. *)
Definition naoNegativo (v : Z) : Prop := 0 ≤ v ≤ INT_MAX.

(** What the parser guarantees of a note, a tempo change and a time
    signature. *)
Definition notaValida (n : Chart.NotaChart) : Prop :=
  naoNegativo (Chart.n_tick n) ∧ naoNegativo (Chart.traste n)
  ∧ naoNegativo (Chart.comprimento n).
Definition tempoValido (k : Z) (ev : Chart.MudancaTempo) : Prop :=
  Chart.tick ev = k ∧ naoNegativo k ∧ naoNegativo (Chart.valorBruto ev).
Definition assinaturaValida (k : Z) (a : Chart.AssinaturaTempo) : Prop :=
  Chart.ts_tick a = k ∧ naoNegativo k ∧ naoNegativo (Chart.numerador a)
  ∧ 0 < Chart.denominador a ≤ INT_MAX.

(** A chart file with notes in two sections of notes, and a section that
    the parser does not read. *)
Definition arquivo_duas_dificuldades : string :=
  juntar ["[Song]"; "{"; "  Resolution = 192"; "  Resolution = 480"; "}";
          "[SyncTrack]"; "{"; "  0 = TS 3 0"; "  0 = B 120000"; "  960 = TS 6 8"; "}";
          "[Events]"; "{"; "  0 = E section"; "  77 = N 1 2"; "}";
          "[ExpertSingle]"; "{"; "  960 = N 2 0"; "  480 = N 0 240"; "}";
          "[EasySingle]"; "{"; "  240 = N 1 0"; "}"]%string.

(** The chart of the file [arquivo_duas_dificuldades]. *)
Definition chart_duas_dificuldades : Chart.DadosChart Q :=
  {| Chart.nome := EmptyString; Chart.artista := EmptyString;
     Chart.streamMusica := EmptyString; Chart.criadorChart := EmptyString;
     Chart.album := EmptyString; Chart.ano := EmptyString;
     Chart.genero := EmptyString; Chart.tipoMidia := EmptyString;
     Chart.offset := 0%Q; Chart.resolucao := 480; Chart.dificuldade := 0;
     Chart.inicioPreview := 0%Q; Chart.fimPreview := 0%Q;
     Chart.jogador2 := EmptyString;
     Chart.mudancasTempo := um_tempo 120000;
     Chart.assinaturasTempo :=
       <[ 960 := {| Chart.ts_tick := 960; Chart.numerador := 6;
                    Chart.denominador := 8 |} ]>
         {[ 0 := {| Chart.ts_tick := 0; Chart.numerador := 3;
                    Chart.denominador := 4 |} ]};
     Chart.notas :=
       [ {| Chart.n_tick := 240; Chart.traste := 1; Chart.comprimento := 0 |};
         {| Chart.n_tick := 480; Chart.traste := 0; Chart.comprimento := 240 |};
         {| Chart.n_tick := 960; Chart.traste := 2; Chart.comprimento := 0 |} ] |}.

#[local] Instance nota_le_total : Total ParserChart.nota_le.
Proof. intros a b. unfold ParserChart.nota_le. lia. Qed.
#[local] Instance nota_le_trans : Transitive ParserChart.nota_le.
Proof. intros a b c. unfold ParserChart.nota_le. lia. Qed.

(** The text of a group [(\d+)] starts with a digit. *)
Definition digitos (x : string) : Prop :=
  ∃ c l n, isdigit c = true ∧ x = substring 0 n (String c l).

(** The text of a file from its lines, each with the end of line [fim];
    [juntar] is [juntarCom nl]. *)
Definition juntarCom (fim : string) (ls : list string) : string :=
  fold_right (λ l s, String.append l (String.append fim s)) EmptyString ls.

(** The end of line of two characters, carriage return and line feed. *)
Definition crlf : string := String (ascii_of_nat 13) nl.

(** A line has no line feed in it. *)
Definition semQuebra (l : string) : Prop :=
  Forall (λ c, codigo c ≠ 10) (list_ascii_of_string l).

(** ** What the handlers keep *)

(** The points that a hit pays. *)
Definition pontosDoAcerto (n : Nota) : Z := if ehNotaLonga n then 5 else 10.

(** What the handlers keep of a note.  The note stays the note it is.
    An update leaves [acertada] as it is, and a note that is lost stays
    lost, and a short note that is hit is not lost by it.  A key press
    leaves [perdida] as it is, a note that is hit stays hit, and a note that
    is lost is not hit by it. *)
Definition mesmaNota (n n' : Nota) : Prop :=
  timestampSec n' = timestampSec n ∧ tickOriginal n' = tickOriginal n
  ∧ pista n' = pista n ∧ traste n' = traste n ∧ dono n' = dono n
  ∧ ehNotaLonga n' = ehNotaLonga n
  ∧ tempoFimSustainSec n' = tempoFimSustainSec n.

Definition atualizada (n n' : Nota) : Prop :=
  mesmaNota n n'
  ∧ acertada n' = acertada n
  ∧ (perdida n = true → perdida n' = true)
  ∧ (ehNotaLonga n = false → acertada n = true → perdida n' = perdida n).

Definition pressionada (n n' : Nota) : Prop :=
  mesmaNota n n'
  ∧ perdida n' = perdida n
  ∧ (acertada n = true → acertada n' = true)
  ∧ (perdida n = true → acertada n' = acertada n).

(** A short note is not both hit and lost. *)
Definition exclusiva (n : Nota) : Prop :=
  ehNotaLonga n = false → ¬ (acertada n = true ∧ perdida n = true).

(** The notes that a press can hit, short and long. *)
Definition curtasAoAlcance (notas : list Nota) (p : Z) (t : Q) : list Nota :=
  List.filter (λ n, podeAcertar n p t && negb (ehNotaLonga n)) notas.
Definition longasAoAlcance (notas : list Nota) (p : Z) (t : Q) : list Nota :=
  List.filter (λ n, podeAcertar n p t && ehNotaLonga n) notas.

(** ** The loaded game *)


(** The tick and the lane of the notes of a chart that the game takes, and
    of the notes of a player. *)
Definition notasJogaveis (c : Chart.DadosChart Q) : list (Z * Z) :=
  (λ n, (Chart.n_tick n, Chart.traste n))
    <$> List.filter (λ n, Chart.traste n <? NUMERO_PISTAS) (Chart.notas c).
Definition ticksEPistas (notas : list Nota) : list (Z * Z) :=
  (λ n, (tickOriginal n, pista n)) <$> notas.

(** No file of music is missing. *)
Definition abreTudo : string → bool := λ _, true.

#[local] Instance ordenarPorTempo_total : Total ordenarPorTempo.
Proof.
  intros a b. unfold ordenarPorTempo.
  destruct (Qlt_le_dec (timestampSec b) (timestampSec a)); [right|left]; [|done].
  by apply Qlt_le_weak.
Qed.
#[local] Instance ordenarPorTempo_trans : Transitive ordenarPorTempo.
Proof. intros a b c. unfold ordenarPorTempo. apply Qle_trans. Qed.

(** ** Texts *)

(** A text without its commas. *)
Fixpoint semVirgulas (s : string) : string :=
  match s with
  | EmptyString => EmptyString
  | String c s' => if Ascii.eqb c "," then semVirgulas s' else String c (semVirgulas s')
  end.

(** The three digits of a number below 1000. *)
Definition tresDigitos (v : Z) : string :=
  String (digito (v / 100)) (String (digito (v / 10 mod 10))
    (String (digito (v mod 10)) EmptyString)).

(** A word: a text that is not empty and has no white space. *)
Definition ehPalavra (w : string) : Prop :=
  w ≠ EmptyString ∧ Forall (λ c, isspace c = false) (list_ascii_of_string w).

(** A width for the examples: 10 for each byte. *)
Definition larguraFixa (s : string) : Q := inject_Z (10 * Z.of_nat (String.length s)).

(** ** Particles of the examples *)

(** A particle of a hit after 100 ms, and one that has 4 ms left. *)
Definition particulasDeExemplo : list Particula :=
  [ {| posicao := (40, 1100)%Q; velocidade := (100, -50)%Q;
       tempoVida := 400000; alfa := 255 |};
    {| posicao := (120, 1100)%Q; velocidade := (0, 75)%Q;
       tempoVida := 4000; alfa := 2 |} ].

(** * The tempo calculator *)

Section Calculadora.
Import Chart.

(** ** The list of the calculator *)

Lemma valores_em_ordem_perm {V} (m : gmap Z V) :
  valores_em_ordem m ≡ₚ (map_to_list m).*2.
Proof. unfold valores_em_ordem. by rewrite merge_sort_Permutation. Qed.

Lemma ordenadas_perm (m : gmap Z MudancaTempo) :
  merge_sort tick_le (valores_em_ordem m) ≡ₚ (map_to_list m).*2.
Proof. by rewrite merge_sort_Permutation, valores_em_ordem_perm. Qed.

Lemma ticks_das_chaves (m : gmap Z MudancaTempo) :
  temposBemFormados m → tick <$> (map_to_list m).*2 = (map_to_list m).*1.
Proof.
  intros Hwf. rewrite <- list_fmap_compose. apply Forall_fmap_ext_1.
  apply Forall_forall. intros [k ev] Hin. apply elem_of_map_to_list in Hin.
  by destruct (Hwf k ev Hin).
Qed.

Lemma ordenadas_NoDup (m : gmap Z MudancaTempo) :
  temposBemFormados m →
  NoDup (tick <$> merge_sort tick_le (valores_em_ordem m)).
Proof.
  intros Hwf.
  assert (tick <$> merge_sort tick_le (valores_em_ordem m)
          ≡ₚ (map_to_list m).*1) as ->.
  { rewrite <- (ticks_das_chaves m Hwf). apply fmap_Permutation, ordenadas_perm. }
  apply NoDup_fst_map_to_list.
Qed.

Lemma ordenadas_nonneg (m : gmap Z MudancaTempo) :
  temposBemFormados m →
  Forall (λ ev, 0 ≤ tick ev) (merge_sort tick_le (valores_em_ordem m)).
Proof.
  intros Hwf. rewrite ordenadas_perm. apply Forall_forall. intros ev Hin.
  apply list_elem_of_fmap in Hin as ([k ev'] & -> & Hin).
  apply elem_of_map_to_list in Hin. destruct (Hwf k ev' Hin) as [Hk ?].
  simpl. lia.
Qed.

Lemma estritamente_crescente (l : list MudancaTempo) :
  StronglySorted tick_le l → NoDup (tick <$> l) →
  StronglySorted Z.lt (tick <$> l).
Proof.
  induction 1 as [|a l Hs IH Ha]; intros Hnd; simpl; [constructor|].
  apply NoDup_cons in Hnd as [Hnin Hnd].
  constructor; [by apply IH|].
  apply Forall_fmap, Forall_forall. intros b Hb. simpl.
  rewrite Forall_forall in Ha. specialize (Ha b Hb). unfold tick_le in Ha.
  assert (tick a ≠ tick b).
  { intros Heq. apply Hnin. rewrite Heq. apply list_elem_of_fmap. eauto. }
  lia.
Qed.

(** The list of the calculator starts at tick 0. *)
Lemma mudancasTempoOrdenadas_inicio {D} (chart : DadosChart D) :
  ∃ ev resto, mudancasTempoOrdenadas (novaCalculadoraTempo chart) = ev :: resto
              ∧ tick ev = 0.
Proof.
  unfold novaCalculadoraTempo. simpl.
  destruct (merge_sort tick_le _) as [|p r]; [by eexists _, _|].
  destruct (tick p =? 0) eqn:E; simpl; [|by eexists _, _].
  apply Z.eqb_eq in E. by eexists _, _.
Qed.

(** For tempo changes that are well formed, it increases strictly. *)
Lemma mudancasTempoOrdenadas_crescente {D} (chart : DadosChart D) :
  temposBemFormados (mudancasTempo chart) →
  ∃ ev resto, mudancasTempoOrdenadas (novaCalculadoraTempo chart) = ev :: resto
              ∧ tick ev = 0 ∧ crescente 0 resto.
Proof.
  intros Hwf. unfold novaCalculadoraTempo. simpl.
  pose proof (ordenadas_NoDup _ Hwf) as Hnd.
  pose proof (ordenadas_nonneg _ Hwf) as Hnn.
  pose proof (StronglySorted_merge_sort tick_le
                (valores_em_ordem (mudancasTempo chart))) as Hs.
  pose proof (estritamente_crescente _ Hs Hnd) as Hlt.
  destruct (merge_sort tick_le _) as [|p r].
  { eexists _, _. repeat split. repeat constructor. }
  destruct (tick p =? 0) eqn:E; simpl.
  - apply Z.eqb_eq in E. eexists _, _. repeat split; [done|].
    unfold crescente. simpl in Hlt. by rewrite E in Hlt.
  - apply Z.eqb_neq in E. eexists _, _. repeat split.
    unfold crescente. constructor; [done|].
    apply Forall_cons in Hnn as [Hp Hnn].
    simpl in Hlt. apply StronglySorted_inv in Hlt as [_ Hall].
    simpl. constructor; [lia|].
    eapply Forall_impl; [exact Hall|]. simpl. intros; lia.
Qed.

(** For one tempo change at tick 0, it is that tempo change alone. *)
Lemma mudancasTempoOrdenadas_um {D} `{Double D} (off : D) (res raw : Z) :
  mudancasTempoOrdenadas (novaCalculadoraTempo (chart_de off res (um_tempo raw)))
  = [{| tick := 0; valorBruto := raw |}].
Proof.
  unfold novaCalculadoraTempo, chart_de, um_tempo. simpl.
  assert (merge_sort tick_le
            (valores_em_ordem
               ({[0 := {| tick := 0; valorBruto := raw |}]} : gmap Z MudancaTempo))
          = [{| tick := 0; valorBruto := raw |}]) as ->.
  { apply Permutation_singleton_r. rewrite ordenadas_perm.
    by rewrite map_to_list_singleton. }
  done.
Qed.

Lemma dois_tempos_bem_formados : temposBemFormados dois_tempos.
Proof.
  unfold dois_tempos, um_tempo. apply map_Forall_insert_2; [done|].
  by apply map_Forall_singleton.
Qed.

(** ** One segment, in any arithmetic *)

(** With one tempo change the loop makes one turn: the result is
    [(0.0 + tick * segundosPorTick) + offset], whatever the operations of
    [double] do. *)
Lemma ticksParaSegundos_um_segmento {D} `{Double D} (off : D) (res raw t : Z)
    (us ust spt : D) :
  res ≠ 0 → 0 ≤ t → t ≤ INT_MAX →
  obterMicrossegundosPorBatida {| tick := 0; valorBruto := raw |} = Some us →
  dividir us (of_int res) = Some ust →
  dividir ust (of_int 1000000) = Some spt →
  ticksParaSegundos (novaCalculadoraTempo (chart_de off res (um_tempo raw))) t
  = Some (dadd (dadd (of_int 0) (dmul (of_int t) spt)) off).
Proof.
  intros Hres Ht0 Ht Hus Hust Hspt. unfold ticksParaSegundos.
  rewrite mudancasTempoOrdenadas_um.
  cbn [referenciaChart novaCalculadoraTempo percorrerSegmentos].
  rewrite Hus. cbn [mbind option_bind]. cbn [chart_de resolucao offset].
  apply Z.eqb_neq in Hres. rewrite Hres, Hust. cbn [mbind option_bind].
  rewrite Hspt. cbn [mbind option_bind].
  rewrite Z.min_l by done. rewrite Z.sub_0_r, Z.leb_refl.
  destruct (decide (t = 0)) as [->|Hne]; [done|].
  assert ((t <=? 0) = false) as -> by (apply Z.leb_gt; lia).
  assert ((t <? 0) = false) as -> by (apply Z.ltb_ge; lia).
  done.
Qed.

(** ** The loop in exact arithmetic *)

Lemma Qeq_bool_false_of_not_le (x : Q) :
  Qle_bool x (inject_Z 0) = false → Qeq_bool x (inject_Z 0) = false.
Proof.
  intros Hle. destruct (Qeq_bool x (inject_Z 0)) eqn:E; [|done].
  apply Qeq_bool_iff in E.
  assert (Qle_bool x (inject_Z 0) = true) as Ht.
  { apply Qle_bool_iff. rewrite E. apply Qle_refl. }
  congruence.
Qed.

Lemma obterMicrossegundosPorBatida_Q ev :
  obterMicrossegundosPorBatida (D:=Q) ev = Some (usQ ev).
Proof.
  unfold obterMicrossegundosPorBatida, obterBPM, dividir, usQ. simpl.
  destruct (Qle_bool _ _) eqn:E; [done|].
  by rewrite (Qeq_bool_false_of_not_le _ E).
Qed.

Lemma usQ_nonneg ev : (0 <= usQ ev)%Q.
Proof.
  unfold usQ. destruct (Qle_bool _ _) eqn:E; [apply Qle_refl|].
  assert (0 < inject_Z (valorBruto ev) / inject_Z 1000)%Q as Hpos.
  { apply Qnot_le_lt. intros Hle. apply Qle_bool_iff in Hle.
    change (inject_Z 0) with 0%Q in E. congruence. }
  apply Qlt_le_weak. apply Qlt_shift_div_l; [exact Hpos|].
  rewrite Qmult_0_l. reflexivity.
Qed.

Lemma inject_Z_res_nonzero res :
  res ≠ 0 → Qeq_bool (inject_Z res) (inject_Z 0) = false.
Proof.
  intros Hr. destruct (Qeq_bool _ _) eqn:E; [|done].
  apply Qeq_bool_iff in E. unfold Qeq in E. simpl in E. lia.
Qed.

Lemma segundosPorTickQ_nonneg res ev : 0 < res → (0 <= segundosPorTickQ res ev)%Q.
Proof.
  intros Hr. unfold segundosPorTickQ.
  apply Qle_shift_div_l; [reflexivity|]. rewrite Qmult_0_l.
  apply Qle_shift_div_l; [unfold Qlt; simpl; lia|]. rewrite Qmult_0_l.
  apply usQ_nonneg.
Qed.

(** One turn of the loop, for a resolution that is not zero. *)
Lemma percorrerSegmentos_passo (chart : DadosChart Q) T ev resto tempo cur :
  resolucao chart ≠ 0 →
  percorrerSegmentos chart T (ev :: resto) tempo cur =
    let fim := Z.min T (proximoTick resto) in
    let n := fim - cur in
    let sair := Some (tempo + offset chart)%Q in
    let acumular :=
      let tempo' := (tempo + inject_Z n * segundosPorTickQ (resolucao chart) ev)%Q in
      if T <=? fim then Some (tempo' + offset chart)%Q
      else percorrerSegmentos chart T resto tempo' fim in
    if (n <=? 0) && (0 <? T) then (if T <=? cur then sair else acumular)
    else if n <? 0 then sair else acumular.
Proof.
  intros Hr. cbn [percorrerSegmentos].
  rewrite obterMicrossegundosPorBatida_Q. cbn [mbind option_bind].
  apply Z.eqb_neq in Hr as Hr'. rewrite Hr'.
  unfold dividir. cbn [deqb of_int ddiv dmul dadd Double_Q].
  rewrite (inject_Z_res_nonzero _ Hr).
  cbn [mbind option_bind].
  replace (Qeq_bool (inject_Z 1000000) (inject_Z 0)) with false by done.
  cbn [mbind option_bind]. reflexivity.
Qed.

Lemma crescente_cauda cur p resto :
  crescente cur (p :: resto) → crescente (tick p) resto ∧ cur < tick p.
Proof.
  intros Hc. apply StronglySorted_inv in Hc as [Hs Hc].
  apply Forall_cons in Hc as [Hc _]. done.
Qed.

(** At tick 0 the loop adds nothing, whatever the chart. *)
Lemma percorrerSegmentos_zero (chart : DadosChart Q) ev resto tempo :
  ∃ r, percorrerSegmentos chart 0 (ev :: resto) tempo 0 = Some r
       ∧ (r == tempo + offset chart)%Q.
Proof.
  destruct (decide (resolucao chart = 0)) as [Hz|Hnz].
  - cbn [percorrerSegmentos]. rewrite obterMicrossegundosPorBatida_Q.
    cbn [mbind option_bind]. rewrite Hz. simpl (0 =? 0).
    rewrite andb_false_r. destruct (_ <? 0); eexists; (split; [done|reflexivity]).
  - rewrite percorrerSegmentos_passo by done. cbv zeta.
    rewrite andb_false_r.
    destruct (Z.min 0 (proximoTick resto) - 0 <? 0) eqn:E.
    + eexists; split; [done|reflexivity].
    + apply Z.ltb_ge in E.
      assert (Z.min 0 (proximoTick resto) = 0) as -> by lia.
      simpl (0 <=? 0). cbv iota. eexists; split; [done|].
      change (inject_Z (0 - 0)) with 0%Q. ring.
Qed.

Section LacoExato.
Variable chart : DadosChart Q.
Hypothesis Hres : resolucao chart ≠ 0.
Local Abbreviation spt := (segundosPorTickQ (resolucao chart)).

(** The target is in the current segment. *)
Lemma percorrerSegmentos_dentro T ev resto tempo cur :
  0 ≤ cur → cur ≤ T → T ≤ proximoTick resto →
  ∃ r, percorrerSegmentos chart T (ev :: resto) tempo cur = Some r
       ∧ (r == tempo + inject_Z (T - cur) * spt ev + offset chart)%Q.
Proof.
  intros H0 Hc HT. rewrite percorrerSegmentos_passo by done. cbv zeta.
  rewrite Z.min_l by done.
  destruct ((T - cur <=? 0) && (0 <? T)) eqn:E1.
  - apply andb_prop in E1 as [E1 E2]. apply Z.leb_le in E1.
    assert (T = cur) as -> by lia.
    rewrite Z.leb_refl. eexists; split; [done|].
    rewrite Z.sub_diag. change (inject_Z 0) with 0%Q. ring.
  - assert ((T - cur <? 0) = false) as -> by (apply Z.ltb_ge; lia).
    rewrite Z.leb_refl. eexists; split; [done|]. reflexivity.
Qed.

(** The target is beyond the current segment. *)
Lemma percorrerSegmentos_alem T ev p resto tempo cur :
  0 ≤ cur → cur < tick p → tick p < T →
  percorrerSegmentos chart T (ev :: p :: resto) tempo cur =
  percorrerSegmentos chart T (p :: resto)
    (tempo + inject_Z (tick p - cur) * spt ev)%Q (tick p).
Proof.
  intros H0 Hc HT. rewrite percorrerSegmentos_passo by done.
  cbv zeta. cbn [proximoTick]. rewrite Z.min_r by lia.
  assert ((tick p - cur <=? 0) = false) as -> by (apply Z.leb_gt; lia).
  assert ((tick p - cur <? 0) = false) as -> by (apply Z.ltb_ge; lia).
  assert ((T <=? tick p) = false) as -> by (apply Z.leb_gt; lia).
  reflexivity.
Qed.

Hypothesis Hpos : 0 < resolucao chart.

Lemma termo_nonneg n ev : 0 ≤ n → (0 <= inject_Z n * spt ev)%Q.
Proof.
  intros Hn. apply Qmult_le_0_compat.
  - unfold Qle; simpl; lia.
  - by apply segundosPorTickQ_nonneg.
Qed.

(** The loop returns, and never less than what it starts with. *)
Lemma percorrerSegmentos_limite resto : ∀ ev tempo cur T,
  0 ≤ cur → cur ≤ T → T ≤ INT_MAX → crescente cur resto →
  ∃ r, percorrerSegmentos chart T (ev :: resto) tempo cur = Some r
       ∧ (tempo + offset chart <= r)%Q.
Proof.
  induction resto as [|p resto IH]; intros ev tempo cur T H0 Hc HT Hs.
  - destruct (percorrerSegmentos_dentro T ev [] tempo cur) as (r & -> & Hr);
      try done.
    exists r; split; [done|]. rewrite Hr.
    pose proof (termo_nonneg (T - cur) ev ltac:(lia)). lra.
  - apply crescente_cauda in Hs as [Hs Hlt].
    destruct (Z_le_gt_dec T (tick p)) as [Hle|Hgt].
    + destruct (percorrerSegmentos_dentro T ev (p :: resto) tempo cur)
        as (r & -> & Hr); try done.
      exists r; split; [done|]. rewrite Hr.
      pose proof (termo_nonneg (T - cur) ev ltac:(lia)). lra.
    + rewrite percorrerSegmentos_alem by lia.
      destruct (IH p (tempo + inject_Z (tick p - cur) * spt ev)%Q (tick p) T)
        as (r & -> & Hr); try done; try lia.
      exists r; split; [done|].
      pose proof (termo_nonneg (tick p - cur) ev ltac:(lia)). lra.
Qed.

(** A later target gives no smaller result. *)
Lemma percorrerSegmentos_monotono resto : ∀ ev tempo cur a b,
  0 ≤ cur → cur ≤ a → a ≤ b → b ≤ INT_MAX → crescente cur resto →
  ∃ ra rb, percorrerSegmentos chart a (ev :: resto) tempo cur = Some ra
           ∧ percorrerSegmentos chart b (ev :: resto) tempo cur = Some rb
           ∧ (ra <= rb)%Q.
Proof.
  induction resto as [|p resto IH]; intros ev tempo cur a b H0 Hca Hab Hb Hs.
  - destruct (percorrerSegmentos_dentro a ev [] tempo cur) as (ra & -> & Hra);
      [done|done|simpl; lia|].
    destruct (percorrerSegmentos_dentro b ev [] tempo cur) as (rb & -> & Hrb);
      [done|lia|done|].
    exists ra, rb; repeat split; try done. rewrite Hra, Hrb.
    assert (inject_Z (a - cur) <= inject_Z (b - cur))%Q
      by (unfold Qle; simpl; lia).
    pose proof (segundosPorTickQ_nonneg (resolucao chart) ev Hpos). nra.
  - apply crescente_cauda in Hs as [Hs Hlt].
    destruct (Z_le_gt_dec a (tick p)) as [Hale|Hagt].
    + destruct (percorrerSegmentos_dentro a ev (p :: resto) tempo cur)
        as (ra & -> & Hra); try done.
      destruct (Z_le_gt_dec b (tick p)) as [Hble|Hbgt].
      * destruct (percorrerSegmentos_dentro b ev (p :: resto) tempo cur)
          as (rb & -> & Hrb); try done; try lia.
        exists ra, rb; repeat split; try done. rewrite Hra, Hrb.
        assert (inject_Z (a - cur) <= inject_Z (b - cur))%Q
          by (unfold Qle; simpl; lia).
        pose proof (segundosPorTickQ_nonneg (resolucao chart) ev Hpos). nra.
      * rewrite (percorrerSegmentos_alem b) by lia.
        destruct (percorrerSegmentos_limite resto p
                    (tempo + inject_Z (tick p - cur) * spt ev)%Q (tick p) b)
          as (rb & -> & Hrb); try done; try lia.
        exists ra, rb; repeat split; try done. rewrite Hra.
        assert (inject_Z (a - cur) <= inject_Z (tick p - cur))%Q
          by (unfold Qle; simpl; lia).
        pose proof (segundosPorTickQ_nonneg (resolucao chart) ev Hpos). nra.
    + rewrite (percorrerSegmentos_alem a), (percorrerSegmentos_alem b) by lia.
      apply IH; try done; lia.
Qed.
End LacoExato.

(** ** The properties of the specification *)

(** C1, as amended.  For a chart with a positive resolution and one tempo
    change, at tick 0 and with a positive BPM, [ticksParaSegundos] returns
    for every tick from 0 to [INT_MAX] a number that, in exact arithmetic,
    equals [offset + tick / resolution * (60 / BPM)], where
    [BPM = valorBruto / 1000]. *)
Theorem ticksParaSegundos_um_tempo_exato (off : Q) (res raw t : Z) :
  0 < res → 0 < raw → 0 ≤ t → t ≤ INT_MAX →
  ∃ r, ticksParaSegundos (novaCalculadoraTempo (chart_de off res (um_tempo raw))) t
       = Some r
       ∧ (r == off + inject_Z t / inject_Z res * (60 / (inject_Z raw / 1000)))%Q.
Proof.
  intros Hres Hraw Ht0 Ht. unfold ticksParaSegundos.
  rewrite mudancasTempoOrdenadas_um.
  cbn [referenciaChart novaCalculadoraTempo].
  set (chart := chart_de off res (um_tempo raw)).
  assert (resolucao chart ≠ 0) as Hnz by (simpl; lia).
  destruct (percorrerSegmentos_dentro chart Hnz t
              {| tick := 0; valorBruto := raw |} [] (of_int 0) 0)
    as (r & Hr & Heq); [done|done|done|].
  exists r. split; [exact Hr|]. rewrite Heq. subst chart.
  cbn [chart_de offset resolucao of_int Double_Q]. unfold segundosPorTickQ, usQ.
  cbn [valorBruto].
  assert (Qle_bool (inject_Z raw / inject_Z 1000) (inject_Z 0) = false) as ->.
  { destruct (Qle_bool _ _) eqn:E; [|done]. apply Qle_bool_iff in E.
    change (inject_Z 0) with 0%Q in E.
    assert (0 < inject_Z raw / inject_Z 1000)%Q; [|lra].
    apply Qlt_shift_div_l; [reflexivity|]. rewrite Qmult_0_l.
    unfold Qlt; simpl; lia. }
  rewrite Z.sub_0_r.
  assert (~ inject_Z raw == 0)%Q by (unfold Qeq; simpl; lia).
  assert (~ inject_Z res == 0)%Q by (unfold Qeq; simpl; lia).
  change (inject_Z 0) with 0%Q. change (inject_Z 1000) with 1000%Q.
  change (inject_Z 1000000) with 1000000%Q.
  change (inject_Z 60000000) with 60000000%Q.
  field. repeat split; try done.
Qed.

(** C1 at 100 BPM, resolution 192, tick 192 and offset 1/4. *)
Lemma ticksParaSegundos_um_tempo_exato_witness :
  ∃ r, ticksParaSegundos
         (novaCalculadoraTempo (chart_de (1 # 4)%Q 192 (um_tempo 100000))) 192
       = Some r
       ∧ (r == (1 # 4) + inject_Z 192 / inject_Z 192
                         * (60 / (inject_Z 100000 / 1000)))%Q.
Proof.
  apply (ticksParaSegundos_um_tempo_exato (1 # 4)%Q 192 100000 192).
  - lia.
  - lia.
  - lia.
  - unfold INT_MAX. lia.
Defined.

(** C1 as the specification states it fails in binary64: at 100 BPM,
    resolution 192, offset 0 and tick 192 the code returns
    [0.60000000000000009], the double above the double nearest to 0.6,
    and not the double that [offset + tick / resolution * (60 / BPM)]
    evaluates to, in whichever order it is evaluated. *)
Lemma ticksParaSegundos_um_tempo_binary64 :
  ∃ r, ticksParaSegundos
         (novaCalculadoraTempo (chart_de 0%float 192 (um_tempo 100000))) 192
       = Some r
       ∧ PrimFloat.eqb r (0 + 192 / 192 * (60 / (100000 / 1000)))%float = false
       ∧ PrimFloat.eqb r (192 / 192 * (60 / (100000 / 1000)) + 0)%float = false
       ∧ PrimFloat.eqb r (0 + 192 / 192 * 60 / (100000 / 1000))%float = false
       ∧ PrimFloat.eqb r (0 + 192 * 60 / (192 * (100000 / 1000)))%float = false
       ∧ PrimFloat.ltb (0 + 192 / 192 * (60 / (100000 / 1000)))%float r = true.
Proof.
  eexists. split; [vm_compute; reflexivity|]. repeat split; vm_compute; reflexivity.
Qed.

(** What the code computes in binary64 for one tempo change of 100 BPM at
    resolution 192: [(0.0 + tick * 0.003125) + offset], rounded at each
    operation. *)
Example ticksParaSegundos_um_tempo_binary64_forma (off : float) (t : Z) :
  0 ≤ t → t ≤ INT_MAX →
  ticksParaSegundos (novaCalculadoraTempo (chart_de off 192 (um_tempo 100000))) t
  = Some ((0 + float_of_int t * (60000000 / (100000 / 1000) / 192 / 1000000))
          + off)%float.
Proof.
  intros Ht0 Ht.
  rewrite (ticksParaSegundos_um_segmento off 192 100000 t
             (60000000 / (100000 / 1000))%float
             (60000000 / (100000 / 1000) / 192)%float
             (60000000 / (100000 / 1000) / 192 / 1000000)%float)
    by (try done; vm_compute; reflexivity).
  reflexivity.
Qed.

(** The examples of the specification, in binary64: 192 ticks at 120 BPM
    and resolution 192 are half a second, and so is a sustain from tick
    192 to tick 384. *)
Example ticksParaSegundos_120bpm_binary64 :
  let c := novaCalculadoraTempo (chart_de 0%float 192 (um_tempo 120000)) in
  ticksParaSegundos c 192 = Some 0.5%float
  ∧ ticksParaSegundos c 384 = Some 1%float.
Proof. split; vm_compute; reflexivity. Qed.

(** C2.  For a chart whose tempo changes are well formed (as the parser
    leaves them), whose resolution is positive and whose offset is a
    number, [ticksParaSegundos] returns for all ticks
    [0 <= a <= b <= INT_MAX], and the result for [a] is at most the result
    for [b] (in exact arithmetic, where every offset is a number). *)
Theorem ticksParaSegundos_monotona (chart : DadosChart Q) (a b : Z) :
  temposBemFormados (mudancasTempo chart) → 0 < resolucao chart →
  0 ≤ a → a ≤ b → b ≤ INT_MAX →
  ∃ ra rb, ticksParaSegundos (novaCalculadoraTempo chart) a = Some ra
           ∧ ticksParaSegundos (novaCalculadoraTempo chart) b = Some rb
           ∧ (ra <= rb)%Q.
Proof.
  intros Hwf Hres Ha Hab Hb. unfold ticksParaSegundos.
  destruct (mudancasTempoOrdenadas_crescente chart Hwf)
    as (ev & resto & -> & Hev & Hs).
  cbn [referenciaChart novaCalculadoraTempo].
  apply percorrerSegmentos_monotono; try done; lia.
Qed.

(** C2 for 120 BPM from tick 0 and 150 BPM from tick 384, at the ticks 100
    and 500. *)
Lemma ticksParaSegundos_monotona_witness :
  ∃ ra rb,
    ticksParaSegundos (novaCalculadoraTempo (chart_de 0%Q 192 dois_tempos)) 100
    = Some ra
    ∧ ticksParaSegundos (novaCalculadoraTempo (chart_de 0%Q 192 dois_tempos)) 500
      = Some rb
    ∧ (ra <= rb)%Q.
Proof.
  apply (ticksParaSegundos_monotona (chart_de 0%Q 192 dois_tempos) 100 500).
  - exact dois_tempos_bem_formados.
  - reflexivity.
  - lia.
  - lia.
  - unfold INT_MAX; lia.
Defined.

(** The same chart in binary64: the results at the ticks 0 to 1000 do not
    decrease. *)
Example ticksParaSegundos_monotona_binary64 :
  naoDecresce (novaCalculadoraTempo (chart_de 0.25%float 192 dois_tempos))
    0.25%float 0 1001 = true.
Proof. vm_compute. reflexivity. Qed.

(** C2 as the specification states it, for every chart, fails for an
    offset that is no number.  [std::stod] reads the line [Offset = nan]
    of [Song] as a NaN (the model of the parser, which is in exact
    arithmetic, gives [NaoFinito] for that file).  With that offset, the
    resolution 192 and tempo changes at the ticks 0 and 384, the results
    of [ticksParaSegundos] in binary64 are NaN, and the result at tick 100
    is not at most the result at tick 500, nor at most itself. *)
Lemma ticksParaSegundos_monotona_offset_nan :
  ParserChart.fazerParsingChart (Some arquivo_offset_nan) = NaoFinito
  ∧ ∃ ra rb,
      ticksParaSegundos
        (novaCalculadoraTempo (chart_de PrimFloat.nan 192 dois_tempos)) 100 = Some ra
      ∧ ticksParaSegundos
          (novaCalculadoraTempo (chart_de PrimFloat.nan 192 dois_tempos)) 500 = Some rb
      ∧ PrimFloat.leb ra rb = false
      ∧ PrimFloat.leb ra ra = false.
Proof.
  split; [vm_compute; reflexivity|].
  eexists _, _. split; [vm_compute; reflexivity|].
  split; [vm_compute; reflexivity|]. split; vm_compute; reflexivity.
Qed.

(** C8.  When the sorted tempo changes of the chart are none, or the first
    is not at tick 0, the calculator puts [{tick: 0, valorBruto: 120000}] in
    front of them; its list always starts at tick 0; and
    [ticksParaSegundos 0] is the offset, for every chart whose offset is a
    number (in exact arithmetic, where every offset is one). *)
Theorem tempo_sintetizado_no_tick_zero (chart : DadosChart Q) :
  (match eventosOrdenados chart with
   | [] => True
   | primeira :: _ => tick primeira ≠ 0
   end →
   mudancasTempoOrdenadas (novaCalculadoraTempo chart)
   = {| tick := 0; valorBruto := 120000 |} :: eventosOrdenados chart)
  ∧ (∃ ev resto,
       mudancasTempoOrdenadas (novaCalculadoraTempo chart) = ev :: resto
       ∧ tick ev = 0)
  ∧ (∃ r, ticksParaSegundos (novaCalculadoraTempo chart) 0 = Some r
          ∧ (r == offset chart)%Q).
Proof.
  split; [|split].
  - unfold novaCalculadoraTempo, eventosOrdenados. simpl.
    destruct (merge_sort tick_le _) as [|p r]; [done|].
    intros Hp. apply Z.eqb_neq in Hp. by rewrite Hp.
  - apply mudancasTempoOrdenadas_inicio.
  - destruct (mudancasTempoOrdenadas_inicio chart) as (ev & resto & Heq & _).
    unfold ticksParaSegundos. rewrite Heq.
    destruct (percorrerSegmentos_zero (referenciaChart (novaCalculadoraTempo chart))
                ev resto (of_int 0)) as (r & Hr & Hv).
    exists r. split; [exact Hr|]. rewrite Hv. simpl. ring.
Qed.

(** C8 for a chart whose only tempo change is 150 BPM at tick 384, with
    offset 5/2: the list is 120 BPM at tick 0 and then that tempo change,
    and tick 0 is at the offset. *)
Lemma tempo_sintetizado_no_tick_zero_witness :
  mudancasTempoOrdenadas (novaCalculadoraTempo (chart_de (5 # 2)%Q 192 tempo_tardio))
  = [{| tick := 0; valorBruto := 120000 |}; {| tick := 384; valorBruto := 150000 |}]
  ∧ ∃ r, ticksParaSegundos
           (novaCalculadoraTempo (chart_de (5 # 2)%Q 192 tempo_tardio)) 0 = Some r
         ∧ (r == 5 # 2)%Q.
Proof.
  pose proof (tempo_sintetizado_no_tick_zero (chart_de (5 # 2)%Q 192 tempo_tardio))
    as (H1 & _ & H3).
  split; [|exact H3].
  rewrite H1; vm_compute; [reflexivity|discriminate].
Defined.

(** The segment that is put in front runs at 120 BPM: with the first
    tempo change at tick 384 (150 BPM) and resolution 192, tick 192 is
    half a second after the offset, tick 384 one second, and tick 576 one
    second and 4/10. *)
Example tempo_sintetizado_120bpm :
  let c := novaCalculadoraTempo (chart_de (5 # 2)%Q 192 tempo_tardio) in
  (∃ r, ticksParaSegundos c 192 = Some r ∧ (r == (5 # 2) + (1 # 2))%Q)
  ∧ (∃ r, ticksParaSegundos c 384 = Some r ∧ (r == (5 # 2) + 1)%Q)
  ∧ (∃ r, ticksParaSegundos c 576 = Some r ∧ (r == (5 # 2) + (14 # 10))%Q).
Proof. repeat split; eexists; (split; [vm_compute; reflexivity|reflexivity]). Qed.

(** C8 as the specification states it fails for an offset that is no
    number (the line [Offset = nan] of [Song]): for the chart whose only
    tempo change is 150 BPM at tick 384, 120 BPM is put in front at tick
    0, and in binary64 the result at tick 0 is [0.0 + NaN], a NaN, which
    [==] does not find equal to the offset. *)
Lemma tempo_sintetizado_offset_nan :
  mudancasTempoOrdenadas
    (novaCalculadoraTempo (chart_de PrimFloat.nan 192 tempo_tardio))
  = [{| tick := 0; valorBruto := 120000 |}; {| tick := 384; valorBruto := 150000 |}]
  ∧ ∃ r, ticksParaSegundos
           (novaCalculadoraTempo (chart_de PrimFloat.nan 192 tempo_tardio)) 0 = Some r
         ∧ PrimFloat.eqb r (offset (chart_de PrimFloat.nan 192 tempo_tardio)) = false.
Proof.
  split; [vm_compute; reflexivity|].
  eexists. split; vm_compute; reflexivity.
Qed.

(** The same chart in binary64 with offsets that are numbers: tick 0 is
    at the offset. *)
Example tempo_sintetizado_binary64 :
  (∃ r, ticksParaSegundos
          (novaCalculadoraTempo (chart_de 2.5%float 192 tempo_tardio)) 0 = Some r
        ∧ PrimFloat.eqb r 2.5%float = true)
  ∧ (∃ r, ticksParaSegundos
            (novaCalculadoraTempo (chart_de (-0.5)%float 192 tempo_tardio)) 0 = Some r
          ∧ PrimFloat.eqb r (-0.5)%float = true)
  ∧ (∃ r, ticksParaSegundos
            (novaCalculadoraTempo (chart_de PrimFloat.infinity 192 tempo_tardio)) 0
          = Some r
          ∧ PrimFloat.eqb r PrimFloat.infinity = true).
Proof. repeat split; eexists; (split; vm_compute; reflexivity). Qed.

(** C9.  For a chart whose resolution is 0, [ticksParaSegundos] returns for
    every tick, without a division by zero, what it has added up when the
    guard is reached, which is nothing, plus the offset. *)
Theorem resolucao_zero_sem_divisao (chart : DadosChart Q) (t : Z) :
  resolucao chart = 0 →
  ticksParaSegundos (novaCalculadoraTempo chart) t = Some (0 + offset chart)%Q.
Proof.
  intros Hz. unfold ticksParaSegundos.
  destruct (mudancasTempoOrdenadas_inicio chart) as (ev & resto & -> & _).
  cbn [referenciaChart novaCalculadoraTempo percorrerSegmentos].
  rewrite obterMicrossegundosPorBatida_Q. cbn [mbind option_bind]. rewrite Hz.
  simpl (0 =? 0). cbv iota.
  repeat match goal with |- context [if ?b then _ else _] => destruct b end;
    reflexivity.
Qed.

(** C9 for the chart of two tempo changes with resolution 0 and offset
    5/2, at tick 500. *)
Lemma resolucao_zero_sem_divisao_witness :
  ticksParaSegundos (novaCalculadoraTempo (chart_de (5 # 2)%Q 0 dois_tempos)) 500
  = Some (0 + (5 # 2))%Q.
Proof.
  apply (resolucao_zero_sem_divisao (chart_de (5 # 2)%Q 0 dois_tempos) 500).
  reflexivity.
Defined.

(** The same in binary64, at a tick before, in and after the tempo
    changes. *)
Example resolucao_zero_binary64 :
  let c := novaCalculadoraTempo (chart_de 2.5%float 0 dois_tempos) in
  ticksParaSegundos c 0 = Some 2.5%float
  ∧ ticksParaSegundos c 500 = Some 2.5%float
  ∧ ticksParaSegundos c (-3) = Some 2.5%float.
Proof. repeat split; vm_compute; reflexivity. Qed.

(** ** More of the calculator *)

Lemma percorrerSegmentos_retorna (chart : DadosChart Q) eventos : ∀ T tempo cur,
  ∃ r, percorrerSegmentos chart T eventos tempo cur = Some r.
Proof.
  induction eventos as [|ev resto IH]; intros T tempo cur; [by eexists|].
  destruct (decide (resolucao chart = 0)) as [Hz|Hnz].
  - cbn [percorrerSegmentos]. rewrite obterMicrossegundosPorBatida_Q.
    cbn [mbind option_bind]. rewrite Hz. simpl (0 =? 0). cbv iota.
    repeat match goal with |- context [if ?b then _ else _] => destruct b end;
      by eexists.
  - rewrite percorrerSegmentos_passo by done. cbv zeta.
    repeat match goal with |- context [if ?b then _ else _] => destruct b end;
      try by eexists.
    all: apply IH.
Qed.

(** X1.  [ticksParaSegundos] divides by zero for no chart and no tick: the
    test of [obterMicrossegundosPorBatida] for a tempo that is not positive
    and the test of the loop for a resolution of zero come before every
    division.  (In the model a division by zero has no result.) *)
Theorem ticksParaSegundos_sem_divisao_por_zero (chart : DadosChart Q) (t : Z) :
  ∃ r, ticksParaSegundos (novaCalculadoraTempo chart) t = Some r.
Proof. apply percorrerSegmentos_retorna. Qed.

(** X2.  For a negative tick [ticksParaSegundos] returns [0.0 + offset],
    whatever the tempo changes and the resolution of the chart are, in
    every arithmetic: the loop is left in its first turn. *)
Theorem ticksParaSegundos_tick_negativo {D} `{Double D} (chart : DadosChart D) (t : Z) :
  t < 0 →
  ticksParaSegundos (novaCalculadoraTempo chart) t
  = Some (dadd (of_int 0) (offset chart)).
Proof.
  intros Ht. unfold ticksParaSegundos.
  destruct (mudancasTempoOrdenadas_inicio chart) as (ev & resto & -> & _).
  cbn [referenciaChart novaCalculadoraTempo percorrerSegmentos].
  assert ((0 <? t) = false) as -> by (apply Z.ltb_ge; lia).
  rewrite andb_false_r.
  match goal with |- context [?n <? 0] =>
    assert ((n <? 0) = true) as -> by (apply Z.ltb_lt; lia) end.
  reflexivity.
Qed.

Lemma ticksParaSegundos_tick_negativo_witness :
  ticksParaSegundos (novaCalculadoraTempo (chart_de 0.25%float 192 dois_tempos)) (-3)
  = Some (dadd (of_int 0) (offset (chart_de 0.25%float 192 dois_tempos))).
Proof.
  apply (ticksParaSegundos_tick_negativo (chart_de 0.25%float 192 dois_tempos) (-3)).
  lia.
Defined.

Lemma crescente_proximoTick cur resto :
  cur < INT_MAX → crescente cur resto → cur + 1 ≤ proximoTick resto.
Proof.
  intros Hc Hs. destruct resto as [|p resto]; simpl; [lia|].
  apply crescente_cauda in Hs as [_ Hlt]. lia.
Qed.

(** One tick more adds the seconds of a tick at the tempo in force. *)
Lemma percorrerSegmentos_por_tick (chart : DadosChart Q) (Hres : resolucao chart ≠ 0)
    resto : ∀ ev tempo cur T,
  0 ≤ cur → cur ≤ T → T < INT_MAX → crescente cur resto →
  ∃ r r', percorrerSegmentos chart T (ev :: resto) tempo cur = Some r
          ∧ percorrerSegmentos chart (T + 1) (ev :: resto) tempo cur = Some r'
          ∧ (r' == r + segundosPorTickQ (resolucao chart) (tempoVigente ev resto T))%Q.
Proof.
  induction resto as [|p resto IH]; intros ev tempo cur T H0 Hc HT Hs.
  - destruct (percorrerSegmentos_dentro chart Hres T ev [] tempo cur)
      as (r & -> & Hr); [done|done|simpl; lia|].
    destruct (percorrerSegmentos_dentro chart Hres (T + 1) ev [] tempo cur)
      as (r' & -> & Hr'); [done|lia|simpl; lia|].
    exists r, r'. repeat split; try done. rewrite Hr, Hr'. simpl.
    replace (T + 1 - cur) with ((T - cur) + 1) by lia.
    rewrite inject_Z_plus. change (inject_Z 1) with 1%Q. ring.
  - apply crescente_cauda in Hs as [Hs Hlt].
    destruct (Z_lt_ge_dec T (tick p)) as [Hin|Hout].
    + destruct (percorrerSegmentos_dentro chart Hres T ev (p :: resto) tempo cur)
        as (r & -> & Hr); [done|done|simpl; lia|].
      destruct (percorrerSegmentos_dentro chart Hres (T + 1) ev (p :: resto) tempo cur)
        as (r' & -> & Hr'); [done|lia|simpl; lia|].
      exists r, r'. repeat split; try done. rewrite Hr, Hr'. cbn [tempoVigente].
      assert ((tick p <=? T) = false) as -> by (apply Z.leb_gt; lia).
      replace (T + 1 - cur) with ((T - cur) + 1) by lia.
      rewrite inject_Z_plus. change (inject_Z 1) with 1%Q. ring.
    + cbn [tempoVigente].
      assert ((tick p <=? T) = true) as -> by (apply Z.leb_le; lia).
      rewrite (percorrerSegmentos_alem chart Hres (T + 1)) by lia.
      destruct (IH p (tempo + inject_Z (tick p - cur)
                               * segundosPorTickQ (resolucao chart) ev)%Q
                  (tick p) T) as (r & r' & Hr & Hr' & Heq); try done; try lia.
      destruct (decide (T = tick p)) as [->|Hne].
      * destruct (percorrerSegmentos_dentro chart Hres (tick p) ev (p :: resto)
                    tempo cur) as (r0 & -> & Hr0); [done|lia|simpl; lia|].
        exists r0, r'. repeat split; try done.
        destruct (percorrerSegmentos_dentro chart Hres (tick p) p resto
                    (tempo + inject_Z (tick p - cur)
                             * segundosPorTickQ (resolucao chart) ev)%Q (tick p))
          as (r1 & Hr1 & Hv1); [lia|lia| |].
        { pose proof (crescente_proximoTick (tick p) resto ltac:(lia) Hs). lia. }
        rewrite Hr in Hr1. injection Hr1 as ->.
        rewrite Heq, Hv1, Hr0. rewrite Z.sub_diag. change (inject_Z 0) with 0%Q.
        ring.
      * rewrite (percorrerSegmentos_alem chart Hres T) by lia.
        exists r, r'. done.
Qed.

(** X3.  One tick more takes the seconds of one tick at the tempo in
    force.  On a chart whose tempo changes are each filed under their own
    tick, none negative, and whose resolution is not zero, for a tick [T]
    from 0 on and below the largest [int]: the time of the tick [T + 1] is
    the time of the tick [T] plus the seconds of a tick of the last tempo
    change at or before [T] (in exact arithmetic). *)
Theorem ticksParaSegundos_por_tick (chart : DadosChart Q) (T : Z) :
  temposBemFormados (mudancasTempo chart) → resolucao chart ≠ 0 →
  0 ≤ T → T < INT_MAX →
  ∃ ev r r',
    tempoNoTick (novaCalculadoraTempo chart) T = Some ev
    ∧ ticksParaSegundos (novaCalculadoraTempo chart) T = Some r
    ∧ ticksParaSegundos (novaCalculadoraTempo chart) (T + 1) = Some r'
    ∧ (r' == r + segundosPorTickQ (resolucao chart) ev)%Q.
Proof.
  intros Hwf Hres HT0 HT. unfold ticksParaSegundos, tempoNoTick.
  destruct (mudancasTempoOrdenadas_crescente chart Hwf)
    as (ev & resto & -> & Hev & Hs).
  cbn [referenciaChart novaCalculadoraTempo].
  destruct (percorrerSegmentos_por_tick chart Hres resto ev (of_int 0) 0 T)
    as (r & r' & Hr & Hr' & Heq); try done.
  exists (tempoVigente ev resto T), r, r'. done.
Qed.

Lemma ticksParaSegundos_por_tick_witness :
  ∃ ev r r',
    tempoNoTick (novaCalculadoraTempo (chart_de (1 # 4)%Q 192 dois_tempos)) 384 = Some ev
    ∧ ticksParaSegundos (novaCalculadoraTempo (chart_de (1 # 4)%Q 192 dois_tempos)) 384
      = Some r
    ∧ ticksParaSegundos (novaCalculadoraTempo (chart_de (1 # 4)%Q 192 dois_tempos))
        (384 + 1) = Some r'
    ∧ (r' == r + segundosPorTickQ
                  (resolucao (chart_de (1 # 4)%Q 192 dois_tempos)) ev)%Q.
Proof.
  apply (ticksParaSegundos_por_tick (chart_de (1 # 4)%Q 192 dois_tempos) 384).
  - exact dois_tempos_bem_formados.
  - discriminate.
  - lia.
  - unfold INT_MAX. lia.
Defined.

Lemma usQ_nao_positivo ev : valorBruto ev ≤ 0 → usQ ev = inject_Z 0.
Proof.
  intros H. unfold usQ.
  assert (Qle_bool (inject_Z (valorBruto ev) / inject_Z 1000) (inject_Z 0) = true)
    as ->; [|done].
  apply Qle_bool_iff. change (inject_Z 0) with 0%Q.
  apply Qle_shift_div_r; [reflexivity|]. rewrite Qmult_0_l.
  unfold Qle. simpl. lia.
Qed.

(** X4.  A tempo whose value is zero or negative lets no time pass: on a
    chart with that tempo alone and a resolution that is not zero, every
    tick from 0 on is at the offset of the chart (in exact arithmetic). *)
Theorem ticksParaSegundos_tempo_nao_positivo (off : Q) (res raw t : Z) :
  res ≠ 0 → raw ≤ 0 → 0 ≤ t → t ≤ INT_MAX →
  ∃ r, ticksParaSegundos (novaCalculadoraTempo (chart_de off res (um_tempo raw))) t
       = Some r
       ∧ (r == off)%Q.
Proof.
  intros Hres Hraw Ht0 Ht. unfold ticksParaSegundos.
  rewrite mudancasTempoOrdenadas_um.
  cbn [referenciaChart novaCalculadoraTempo].
  set (chart := chart_de off res (um_tempo raw)).
  assert (resolucao chart ≠ 0) as Hnz by (simpl; lia).
  destruct (percorrerSegmentos_dentro chart Hnz t
              {| tick := 0; valorBruto := raw |} [] (of_int 0) 0)
    as (r & Hr & Heq); [done|done|done|].
  exists r. split; [exact Hr|]. rewrite Heq. subst chart.
  cbn [chart_de offset resolucao of_int Double_Q]. unfold segundosPorTickQ.
  rewrite usQ_nao_positivo by done.
  assert (~ inject_Z res == 0)%Q by (unfold Qeq; simpl; lia).
  change (inject_Z 0) with 0%Q. change (inject_Z 1000000) with 1000000%Q.
  field. done.
Qed.

Lemma ticksParaSegundos_tempo_nao_positivo_witness :
  ∃ r, ticksParaSegundos
         (novaCalculadoraTempo (chart_de (5 # 2)%Q 192 (um_tempo 0))) 1000
       = Some r
       ∧ (r == 5 # 2)%Q.
Proof.
  apply (ticksParaSegundos_tempo_nao_positivo (5 # 2)%Q 192 0 1000).
  - discriminate.
  - lia.
  - lia.
  - unfold INT_MAX. lia.
Defined.

End Calculadora.

(** * The parser *)

Section Parser.
Import Chart ParserChart.
Local Open Scope string_scope.

Lemma ligar_Valor {A B} (x : resultado A) (f : A → resultado B) b :
  x ≫= f = Valor b → ∃ a, x = Valor a ∧ f a = Valor b.
Proof. destruct x; simpl; intros; [eauto|done|done]. Qed.

(** Case analysis on a computation of the parser that returned a value. *)
Ltac casos :=
  repeat match goal with
  | H : Valor _ = Valor _ |- _ => injection H as H; subst
  | H : Lancou _ = Valor _ |- _ => discriminate H
  | H : NaoFinito = Valor _ |- _ => discriminate H
  | H : context [match ?x with _ => _ end] |- _ => destruct x eqn:?; simpl in H
  | H : (_ ≫= _) = Valor _ |- _ =>
      let a := fresh "a" in let Ha := fresh "Ha" in
      destruct (ligar_Valor _ _ _ H) as (a & Ha & ?); clear H
  end.

(** ** Regular expressions *)

Lemma repetir_continua passo guloso k (P : captures → captures → Prop) :
  (∀ c, P c c) → (∀ a b c, P a b → P b c → P a c) →
  (∀ s caps k' res, passo s caps k' = Some res →
     ∃ s' caps', k' s' caps' = Some res ∧ P caps caps') →
  ∀ n s caps res, repetir passo guloso k n s caps = Some res →
    ∃ s' caps', k s' caps' = Some res ∧ P caps caps'.
Proof.
  intros Hrefl Htrans Hpasso. induction n as [|n IH]; intros s caps res H;
    cbn [repetir] in H; [eauto|].
  assert (passo s caps
            (λ s' caps', if (String.length s' <? String.length s)%nat
                         then repetir passo guloso k n s' caps' else None) = Some res
          ∨ k s caps = Some res) as [Hm|Hk].
  { destruct guloso.
    - destruct (passo s caps _) eqn:E; [left; congruence|by right].
    - destruct (k s caps) eqn:E; [right; congruence|by left]. }
  - apply Hpasso in Hm as (s1 & c1 & Hm & Hc1).
    destruct (_ <? _)%nat; [|done].
    apply IH in Hm as (s2 & c2 & Hm & Hc2). eauto.
  - eauto.
Qed.

(** A match ends in a call of the continuation, with the groups that the
    expression does not have as they were. *)
Lemma casar_continua r : ∀ s caps k res,
  casar r s caps k = Some res →
  ∃ s' caps', k s' caps' = Some res
              ∧ ∀ n, n ∉ grupos r → caps' !! n = caps !! n.
Proof.
  induction r as [classe|r1 IH1 r2 IH2|guloso r1 IH1|r1 IH1|g r1 IH1];
    intros s caps k res H; cbn [casar grupos] in *.
  - destruct s as [|c s']; [done|]. destruct (classe c); [|done]. eauto.
  - apply IH1 in H as (s1 & c1 & H & Hc1).
    apply IH2 in H as (s2 & c2 & H & Hc2).
    exists s2, c2. split; [done|]. intros n Hn.
    rewrite Hc2, Hc1; [done| |]; intros ?; apply Hn, elem_of_app; auto.
  - eapply (repetir_continua (casar r1) guloso k
              (λ a b, ∀ n, n ∉ grupos r1 → b !! n = a !! n)); [| | |exact H].
    + done.
    + intros a b c Hab Hbc n Hn. rewrite Hbc, Hab; done.
    + intros. eauto.
  - destruct (casar r1 s caps k) eqn:E.
    + injection H as ->. by apply IH1 in E.
    + eauto.
  - apply IH1 in H as (s1 & c1 & H & Hc1).
    exists s1, (<[g := substring 0 (String.length s - String.length s1) s]> c1).
    split; [exact H|].
    intros n Hn. apply not_elem_of_cons in Hn as [Hg Hn].
    rewrite lookup_insert_ne by done. auto.
Qed.

(** A pattern that starts with the group [(\d+)]: the line starts with a
    digit, and the text of the group is a prefix of the line. *)
Lemma grupo1_do_inicio (resto : regex) (l : string) (res : captures) :
  1%nat ∉ grupos resto →
  regex_match l (RSeq (RGroup 1 (mais rd)) resto) = Some res →
  ∃ c l' n, l = String c l' ∧ isdigit c = true
            ∧ res !! 1%nat = Some (substring 0 n l).
Proof.
  intros Hg H. unfold regex_match in H. cbn [casar] in H.
  assert (∃ c l', l = String c l' ∧ isdigit c = true) as (c & l' & Hl & Hd).
  { unfold mais in H. cbn [casar rd] in H. destruct l as [|c l']; [done|].
    destruct (isdigit c) eqn:E; [|done]. eauto. }
  apply casar_continua in H as (s1 & c1 & H & _).
  apply casar_continua in H as (s2 & c2 & H & Hc2).
  destruct s2; [|done]. injection H as <-.
  exists c, l', (String.length l - String.length s1)%nat.
  repeat split; try done. rewrite Hc2 by done. apply lookup_insert_eq.
Qed.

(** ** Numbers *)

Lemma valor_digito_nonneg b c v : valor_digito b c = Some v → 0 ≤ v.
Proof.
  unfold valor_digito. intros H.
  repeat (case_match; try discriminate); injection H as <-;
    repeat match goal with
           | E : _ && _ = true |- _ => apply andb_prop in E as [?%Z.leb_le ?%Z.leb_le]
           end; lia.
Qed.

Lemma ler_digitos_nonneg b s : ∀ acc n,
  0 ≤ b → 0 ≤ acc → 0 ≤ (ler_digitos b s acc n).1.1.
Proof.
  induction s as [|c s IH]; intros acc n Hb Hacc; cbn [ler_digitos]; [done|].
  destruct (valor_digito b c) as [v|] eqn:E; [|done].
  apply valor_digito_nonneg in E. apply IH; [done|]. nia.
Qed.

Lemma isdigit_nao_sinal c s :
  isdigit c = true →
  tirar_inicio isspace (String c s) = String c s
  ∧ ler_sinal (String c s) = (false, String c s).
Proof.
  intros H.
  destruct c as [[] [] [] [] [] [] [] []]; try discriminate H; done.
Qed.

(** The number that [std::stoi] reads in a text that starts with a digit
    is not negative. *)
Lemma stoi_digitos_nonneg c l n t :
  isdigit c = true → stoi (substring 0 n (String c l)) = Valor t → 0 ≤ t.
Proof.
  intros Hd. destruct n as [|n]; [done|]. cbn [substring].
  unfold stoi. destruct (isdigit_nao_sinal c (substring 0 n l) Hd) as [-> ->].
  pose proof (ler_digitos_nonneg 10 (String c (substring 0 n l)) 0 0) as Hnn.
  destruct (ler_digitos 10 _ 0 0) as [[v m] r]. simpl in Hnn.
  destruct (m =? 0)%Z; [done|]. destruct (_ || _); [done|]. intros [= <-]. lia.
Qed.

Lemma padraoTempo_tick_nonneg l res t :
  regex_match l padraoTempo = Some res → stoi (str res 1) = Valor t → 0 ≤ t.
Proof.
  intros H Ht. apply grupo1_do_inicio in H as (c & l' & n & -> & Hd & Hres).
  - unfold str in Ht. rewrite Hres in Ht. by eapply stoi_digitos_nonneg.
  - cbn. intros Hin. apply list_elem_of_singleton in Hin. discriminate Hin.
Qed.

(** ** The loop over the lines *)

Lemma processarLinhas_app e l1 l2 :
  processarLinhas e (l1 ++ l2)%list
  = processarLinhas e l1 ≫= λ e', processarLinhas e' l2.
Proof.
  revert e. induction l1 as [|l l1 IH]; intros e; simpl; [done|].
  destruct (processarLinha e l) as [e1| |]; simpl; [apply IH|done|done].
Qed.

Lemma emplace_estavel {V} (k k' : Z) (v v' : V) m :
  m !! k = Some v → emplace k' v' m !! k = Some v.
Proof.
  intros Hk. unfold emplace. destruct (m !! k') eqn:E; [done|].
  rewrite lookup_insert_ne; [done|]. intros ->. congruence.
Qed.

Lemma emplace_novo {V} (k : Z) (v : V) m :
  m !! k = None → emplace k v m !! k = Some v.
Proof. intros Hk. unfold emplace. rewrite Hk. apply lookup_insert_eq. Qed.

Lemma emplace_bem_formado t v m :
  0 ≤ t → temposBemFormados m →
  temposBemFormados (emplace t {| tick := t; valorBruto := v |} m).
Proof.
  intros Ht Hm. unfold emplace. destruct (m !! t); [done|].
  by apply map_Forall_insert_2.
Qed.

Lemma processarLinhaNaSecao_tempos c sec l c' t ev :
  processarLinhaNaSecao c sec l = Valor c' →
  mudancasTempo c !! t = Some ev → mudancasTempo c' !! t = Some ev.
Proof.
  unfold processarLinhaNaSecao. intros H Ht.
  casos; simpl; try done. by apply emplace_estavel.
Qed.

Lemma processarLinhaNaSecao_assinaturas c sec l c' t a :
  processarLinhaNaSecao c sec l = Valor c' →
  assinaturasTempo c !! t = Some a → assinaturasTempo c' !! t = Some a.
Proof.
  unfold processarLinhaNaSecao. intros H Ht.
  casos; simpl; try done; by apply emplace_estavel.
Qed.

Lemma processarLinhaNaSecao_bem_formado c sec l c' :
  processarLinhaNaSecao c sec l = Valor c' →
  temposBemFormados (mudancasTempo c) → temposBemFormados (mudancasTempo c').
Proof.
  unfold processarLinhaNaSecao. intros H Hwf.
  casos; simpl; try done.
  apply emplace_bem_formado; [|done]. eauto using padraoTempo_tick_nonneg.
Qed.

Lemma processarLinhaNaSecao_resolucao c sec l c' :
  processarLinhaNaSecao c sec l = Valor c' →
  (sec = "Song" → ∀ correspondencia,
      regex_match l padraoChaveValor = Some correspondencia →
      str correspondencia 1 ≠ "Resolution") →
  resolucao c' = resolucao c.
Proof.
  unfold processarLinhaNaSecao. intros H Hsem.
  destruct (String.eqb sec "Song") eqn:Es.
  - apply String.eqb_eq in Es.
    destruct (regex_match l padraoChaveValor) as [caps|] eqn:Ec; [|by casos].
    specialize (Hsem Es caps eq_refl). apply String.eqb_neq in Hsem.
    casos; simpl; try done. by rewrite Hsem.
  - casos; simpl; done.
Qed.

(** A turn of the loop on a line of data. *)
Lemma processarLinha_dados sec c l :
  linhaDeDados (aparar l) = true → sec ≠ "" →
  processarLinha (sec, c) l
  = processarLinhaNaSecao c sec (aparar l) ≫= λ c', Valor (sec, c').
Proof.
  unfold linhaDeDados, processarLinha. intros Hd Hs.
  apply andb_prop in Hd as [Hd H3]. apply andb_prop in Hd as [H1 H2].
  apply negb_true_iff in H1, H2, H3. rewrite H1.
  destruct (regex_match (aparar l) padraoSecao) eqn:E.
  { rewrite bool_decide_eq_false in H2. destruct H2. eauto. }
  rewrite H3. apply String.eqb_neq in Hs. by rewrite Hs.
Qed.

Lemma processarLinha_mapas e l e' :
  processarLinha e l = Valor e' →
  (∀ t ev, mudancasTempo e.2 !! t = Some ev → mudancasTempo e'.2 !! t = Some ev)
  ∧ (∀ t a, assinaturasTempo e.2 !! t = Some a
            → assinaturasTempo e'.2 !! t = Some a)
  ∧ (temposBemFormados (mudancasTempo e.2)
     → temposBemFormados (mudancasTempo e'.2)).
Proof.
  destruct e as [sec c]. unfold processarLinha. intros H.
  casos; cbn [fst snd]; try done; (split; [|split]);
    eauto using processarLinhaNaSecao_tempos, processarLinhaNaSecao_assinaturas,
      processarLinhaNaSecao_bem_formado.
Qed.

(** What the loop keeps: an entry of the two maps stays as it is, and the
    tempo changes stay well formed. *)
Lemma processarLinhas_mapas linhas : ∀ e e',
  processarLinhas e linhas = Valor e' →
  (∀ t ev, mudancasTempo e.2 !! t = Some ev → mudancasTempo e'.2 !! t = Some ev)
  ∧ (∀ t a, assinaturasTempo e.2 !! t = Some a
            → assinaturasTempo e'.2 !! t = Some a)
  ∧ (temposBemFormados (mudancasTempo e.2)
     → temposBemFormados (mudancasTempo e'.2)).
Proof.
  induction linhas as [|l linhas IH]; intros e e' H; simpl in H.
  - by injection H as ->.
  - apply ligar_Valor in H as (e1 & H1 & H2).
    destruct (processarLinha_mapas _ _ _ H1) as (Ha & Hb & Hw).
    destruct (IH _ _ H2) as (Hc & Hd & Hw'). split; [|split]; eauto.
Qed.

Lemma processarLinhas_resolucao linhas : ∀ sec c e',
  processarLinhas (sec, c) linhas = Valor e' →
  forallb (λ par, negb (atribuiResolution par)) (linhasComSecao sec linhas) = true →
  resolucao e'.2 = resolucao c.
Proof.
  induction linhas as [|l linhas IH]; intros sec c e' H Hsem; simpl in H.
  - by injection H as <-.
  - apply ligar_Valor in H as ([sec1 c1] & H1 & H2).
    simpl in Hsem. unfold processarLinha in H1.
    destruct (String.eqb (aparar l) "" || String.prefix "//" (aparar l)).
    { injection H1 as <- <-. eauto. }
    destruct (regex_match (aparar l) padraoSecao).
    { injection H1 as <- <-. eauto. }
    destruct (String.eqb (aparar l) "{" || String.eqb (aparar l) "}").
    { injection H1 as <- <-. eauto. }
    destruct (negb (String.eqb sec "")); simpl in H1.
    + apply ligar_Valor in H1 as (c2 & H1 & H3). injection H3 as <- <-.
      simpl in Hsem. apply andb_prop in Hsem as [Hl Hsem].
      rewrite (IH _ _ _ H2 Hsem).
      eapply processarLinhaNaSecao_resolucao; [exact H1|].
      intros -> caps Hc. apply negb_true_iff in Hl.
      unfold atribuiResolution in Hl. simpl in Hl. rewrite Hc in Hl.
      by apply String.eqb_neq.
    + injection H1 as <- <-. eauto.
Qed.

Lemma getlines_nao_vazio (s : string) a l d :
  getlines s = (a ++ l :: d)%list → s ≠ "".
Proof. intros H ->. by destruct a. Qed.

Lemma fazerParsingChart_linhas conteudo :
  lerArquivoUtf8 (Some conteudo) ≠ "" →
  fazerParsingChart (Some conteudo)
  = processarLinhas ("", dadosChartInicial) (getlines (lerArquivoUtf8 (Some conteudo)))
    ≫= λ e, Valor (Some (com_notas (merge_sort nota_le (notas e.2)) e.2)).
Proof.
  intros Hne. unfold fazerParsingChart. apply String.eqb_neq in Hne. by rewrite Hne.
Qed.

(** The tempo changes of a parsed chart are well formed. *)
Lemma fazerParsingChart_bem_formado arquivo c :
  fazerParsingChart arquivo = Valor (Some c) → temposBemFormados (mudancasTempo c).
Proof.
  unfold fazerParsingChart. destruct (String.eqb _ _); [done|]. intros H.
  apply ligar_Valor in H as (e & H & He). injection He as <-.
  apply processarLinhas_mapas in H as (_ & _ & H). apply H, map_Forall_empty.
Qed.

Lemma chaves_double_nao_texto k :
  esta_em k chaves_double = true → esta_em k chaves_texto = false.
Proof.
  unfold esta_em, chaves_double. simpl. rewrite orb_false_r.
  intros H. repeat (apply orb_prop in H as [H|H]); apply String.eqb_eq in H;
    by subst.
Qed.

Lemma chaves_int_nao_outras k :
  esta_em k chaves_int = true →
  esta_em k chaves_texto = false ∧ esta_em k chaves_double = false.
Proof.
  unfold esta_em, chaves_int. simpl. rewrite orb_false_r.
  intros H. repeat (apply orb_prop in H as [H|H]); apply String.eqb_eq in H;
    by subst.
Qed.

(** ** The properties of the specification *)

(** C5, as amended.  When a line of the section [Song] gives one of the
    numeric keys ([Offset], [PreviewStart], [PreviewEnd], [Resolution],
    [Difficulty]) a value on which the conversion of the standard library
    throws, the exception leaves [fazerParsingChart]: the parse of the
    whole file fails with it and no chart is returned. *)
Theorem numero_malformado_lanca (conteudo : string) antes linha depois c
    correspondencia e :
  getlines (lerArquivoUtf8 (Some conteudo)) = (antes ++ linha :: depois)%list →
  processarLinhas ("", dadosChartInicial) antes = Valor ("Song", c) →
  linhaDeDados (aparar linha) = true →
  regex_match (aparar linha) padraoChaveValor = Some correspondencia →
  (esta_em (str correspondencia 1) chaves_double = true
   ∧ stod (sem_aspas (str correspondencia 2)) = Lancou e)
  ∨ (esta_em (str correspondencia 1) chaves_int = true
     ∧ stoi (sem_aspas (str correspondencia 2)) = Lancou e) →
  fazerParsingChart (Some conteudo) = Lancou e.
Proof.
  intros Hl Ha Hd Hm Hconv.
  rewrite fazerParsingChart_linhas by (eapply getlines_nao_vazio; eauto).
  rewrite Hl, processarLinhas_app, Ha.
  unfold mbind at 2, resultado_bind, ligar at 2. cbn [processarLinhas].
  rewrite processarLinha_dados by done.
  unfold processarLinhaNaSecao.
  change (String.eqb "Song" "Song") with true. cbv iota. rewrite Hm.
  destruct Hconv as [[Hk Hs]|[Hk Hs]].
  - rewrite (chaves_double_nao_texto _ Hk), Hk, Hs. done.
  - destruct (chaves_int_nao_outras _ Hk) as [-> ->]. rewrite Hk, Hs. done.
Qed.

(** C5 for the line [Offset = notanumber]: [std::stod] throws
    [invalid_argument], and so does the parse. *)
Lemma numero_malformado_lanca_witness :
  fazerParsingChart (Some arquivo_notanumber) = Lancou invalid_argument.
Proof.
  apply (numero_malformado_lanca arquivo_notanumber
           ["[Song]"; "{"; "  Name = Teste"]
           "  Offset = notanumber" ["  Resolution = 192"; "}"]
           (com_texto "Name" "Teste" dadosChartInicial)
           (<[2%nat := "notanumber"]> (<[1%nat := "Offset"]> ∅))).
  - vm_compute. reflexivity.
  - vm_compute. reflexivity.
  - vm_compute. reflexivity.
  - vm_compute. reflexivity.
  - left. split; vm_compute; reflexivity.
Defined.

(** C5 as the specification states it fails: text that is no number but
    starts with one is converted by its numeric prefix.  For the lines
    [Offset = 12abc] and [Resolution = 192ticks] the parse returns a chart,
    with offset 12 and resolution 192. *)
Lemma prefixo_numerico_aceito :
  ∃ c, fazerParsingChart (Some arquivo_12abc) = Valor (Some c)
       ∧ (offset c == 12)%Q ∧ resolucao c = 192.
Proof. eexists. split; [vm_compute; reflexivity|]. split; reflexivity. Qed.

(** The conversions on the texts of these files. *)
Example conversoes :
  stod "notanumber" = Lancou invalid_argument
  ∧ stod "12abc" = Valor 12%Q
  ∧ stoi "192ticks" = Valor 192
  ∧ stoi "ticks" = Lancou invalid_argument
  ∧ stoi "99999999999" = Lancou out_of_range
  ∧ stod "nan" = NaoFinito.
Proof. repeat split; vm_compute; reflexivity. Qed.

(** C6, as amended.  The first line for a tick decides: when a
    [tick = B value] line of [SyncTrack] is read for a tick that has no tempo
    change yet, the parsed chart has at that tick the tempo change of this
    line, whatever lines follow; likewise for [tick = TS ...] lines and the
    time signatures. *)
Theorem primeira_linha_prevalece :
  (∀ (conteudo : string) antes linha depois c correspondencia t v c',
     getlines (lerArquivoUtf8 (Some conteudo)) = (antes ++ linha :: depois)%list →
     processarLinhas ("", dadosChartInicial) antes = Valor ("SyncTrack", c) →
     linhaDeDados (aparar linha) = true →
     regex_match (aparar linha) padraoTempo = Some correspondencia →
     stoi (str correspondencia 1) = Valor t →
     stoi (str correspondencia 2) = Valor v →
     mudancasTempo c !! t = None →
     fazerParsingChart (Some conteudo) = Valor (Some c') →
     mudancasTempo c' !! t = Some {| tick := t; valorBruto := v |})
  ∧ (∀ (conteudo : string) antes linha depois c correspondencia t n d c',
     getlines (lerArquivoUtf8 (Some conteudo)) = (antes ++ linha :: depois)%list →
     processarLinhas ("", dadosChartInicial) antes = Valor ("SyncTrack", c) →
     linhaDeDados (aparar linha) = true →
     regex_match (aparar linha) padraoTempo = None →
     regex_match (aparar linha) padraoAssinaturaTempo = Some correspondencia →
     stoi (str correspondencia 1) = Valor t →
     stoi (str correspondencia 2) = Valor n →
     denominadorDe correspondencia = Valor d →
     assinaturasTempo c !! t = None →
     fazerParsingChart (Some conteudo) = Valor (Some c') →
     assinaturasTempo c' !! t
     = Some {| ts_tick := t; numerador := n; denominador := d |}).
Proof.
  split.
  - intros conteudo antes linha depois c caps t v c' Hl Ha Hd Hm Ht Hv Hnone Hp.
    rewrite fazerParsingChart_linhas in Hp by (eapply getlines_nao_vazio; eauto).
    rewrite Hl, processarLinhas_app, Ha in Hp.
    unfold mbind at 2, resultado_bind, ligar at 2 in Hp.
    cbn [processarLinhas] in Hp.
    rewrite processarLinha_dados in Hp by done.
    unfold processarLinhaNaSecao in Hp.
    change (String.eqb "SyncTrack" "Song") with false in Hp.
    change (String.eqb "SyncTrack" "SyncTrack") with true in Hp. cbv iota in Hp.
    rewrite Hm, Ht, Hv in Hp. simpl in Hp.
    apply ligar_Valor in Hp as (e' & Hp & He). injection He as <-.
    apply processarLinhas_mapas in Hp as (Hp & _). simpl in *.
    apply Hp. by apply emplace_novo.
  - intros conteudo antes linha depois c caps t n d c'
      Hl Ha Hd Hm0 Hm Ht Hn Hden Hnone Hp.
    rewrite fazerParsingChart_linhas in Hp by (eapply getlines_nao_vazio; eauto).
    rewrite Hl, processarLinhas_app, Ha in Hp.
    unfold mbind at 2, resultado_bind, ligar at 2 in Hp.
    cbn [processarLinhas] in Hp.
    rewrite processarLinha_dados in Hp by done.
    unfold processarLinhaNaSecao in Hp.
    change (String.eqb "SyncTrack" "Song") with false in Hp.
    change (String.eqb "SyncTrack" "SyncTrack") with true in Hp. cbv iota in Hp.
    rewrite Hm0, Hm in Hp. unfold denominadorDe in Hden.
    destruct (if bool_decide (is_Some (caps !! 3%nat)) then _ else _) as [d0| |];
      simpl in Hden; try done. injection Hden as <-.
    rewrite Ht, Hn in Hp. simpl in Hp.
    apply ligar_Valor in Hp as (e' & Hp & He). injection He as <-.
    apply processarLinhas_mapas in Hp as (_ & Hp & _). simpl in *.
    apply Hp. by apply emplace_novo.
Qed.

(** C6 for a file with [0 = B 120000] and then [0 = B 90000]: the chart
    has 120000 at tick 0. *)
Lemma primeira_linha_prevalece_witness :
  ∃ c', fazerParsingChart (Some arquivo_duplicado) = Valor (Some c')
        ∧ mudancasTempo c' !! 0 = Some {| tick := 0; valorBruto := 120000 |}.
Proof.
  destruct (fazerParsingChart (Some arquivo_duplicado)) as [[c'|]| |] eqn:E;
    try (vm_compute in E; discriminate E).
  exists c'. split; [reflexivity|].
  apply (proj1 primeira_linha_prevalece arquivo_duplicado
           ["[Song]"; "{"; "  Resolution = 192"; "}"; "[SyncTrack]"; "{"; "  0 = TS 4"]
           "  0 = B 120000" ["  0 = TS 3 8"; "  0 = B 90000"; "}"]
           (com_assinaturas
              {[ 0 := {| ts_tick := 0; numerador := 4; denominador := 4 |} ]}
              (com_int "Resolution" 192 dadosChartInicial))
           (<[2%nat := "120000"]> (<[1%nat := "0"]> ∅)) 0 120000 c').
  - vm_compute. reflexivity.
  - vm_compute. reflexivity.
  - vm_compute. reflexivity.
  - vm_compute. reflexivity.
  - vm_compute. reflexivity.
  - vm_compute. reflexivity.
  - vm_compute. reflexivity.
  - exact E.
Defined.

(** C6 as the specification states it fails: in a file with the lines
    [0 = TS 4], [0 = B 120000], [0 = TS 3 8], [0 = B 90000], in this order,
    the chart has at tick 0 the tempo change 120000 and the time signature
    4/4 of the earlier lines, not 90000 and 3/8 of the later ones. *)
Lemma duplicata_nao_sobrescreve :
  ∃ c, fazerParsingChart (Some arquivo_duplicado) = Valor (Some c)
       ∧ mudancasTempo c !! 0 = Some {| tick := 0; valorBruto := 120000 |}
       ∧ assinaturasTempo c !! 0
         = Some {| ts_tick := 0; numerador := 4; denominador := 4 |}.
Proof.
  eexists. split; [vm_compute; reflexivity|]. split; vm_compute; reflexivity.
Qed.

(** C10.  For a file that has content, in which no line of the section
    [Song] gives a value to [Resolution], and whose parse throws nothing
    (and reads no infinity or NaN), the parse returns a chart, its
    resolution is 192, and the conversions of the calculator that is made
    from it use 192 ticks for a beat: tick 0 is at the offset, and from
    every tick [T] from 0 on to the next, the time grows by the seconds
    of a tick at the resolution 192, which are the microseconds of a beat
    of the tempo in force at [T], by 192, by 1000000 (in exact
    arithmetic). *)
Theorem resolucao_padrao_192 (conteudo : string) :
  lerArquivoUtf8 (Some conteudo) ≠ "" →
  semResolution (getlines (lerArquivoUtf8 (Some conteudo))) →
  (∀ e, fazerParsingChart (Some conteudo) ≠ Lancou e) →
  fazerParsingChart (Some conteudo) ≠ NaoFinito →
  ∃ c, fazerParsingChart (Some conteudo) = Valor (Some c)
       ∧ resolucao c = 192
       ∧ resolucao (referenciaChart (novaCalculadoraTempo c)) = 192
       ∧ (∃ r0, ticksParaSegundos (novaCalculadoraTempo c) 0 = Some r0
                ∧ (r0 == offset c)%Q)
       ∧ ∀ T, 0 ≤ T → T < INT_MAX →
           ∃ ev r r',
             tempoNoTick (novaCalculadoraTempo c) T = Some ev
             ∧ ticksParaSegundos (novaCalculadoraTempo c) T = Some r
             ∧ ticksParaSegundos (novaCalculadoraTempo c) (T + 1) = Some r'
             ∧ (r' == r + usQ ev / 192 / 1000000)%Q.
Proof.
  intros Hne Hsem Hex Hnf.
  assert (∃ c, fazerParsingChart (Some conteudo) = Valor (Some c)
               ∧ resolucao c = 192) as (c & Hp & Hres).
  { rewrite fazerParsingChart_linhas in * by done.
    destruct (processarLinhas _ _) as [[sec c]| |] eqn:E; simpl in *.
    - eexists; split; [done|]. simpl.
      pose proof (processarLinhas_resolucao _ _ _ _ E Hsem). done.
    - by destruct (Hex e).
    - done. }
  exists c. split; [done|]. split; [done|]. split; [done|].
  pose proof (fazerParsingChart_bem_formado _ _ Hp) as Hwf.
  destruct (mudancasTempoOrdenadas_crescente c Hwf) as (ev & resto & Heq & Hev & Hs).
  split.
  - unfold ticksParaSegundos. rewrite Heq.
    destruct (percorrerSegmentos_zero (referenciaChart (novaCalculadoraTempo c))
                ev resto (of_int 0)) as (r & Hr & Hv).
    exists r. split; [exact Hr|]. rewrite Hv. simpl. ring.
  - intros T HT0 HT. unfold ticksParaSegundos, tempoNoTick. rewrite Heq.
    cbn [referenciaChart novaCalculadoraTempo].
    assert (resolucao c ≠ 0) as Hnz by lia.
    destruct (percorrerSegmentos_por_tick c Hnz resto ev (of_int 0) 0 T)
      as (r & r' & Hr & Hr' & Hpasso); try done.
    exists (tempoVigente ev resto T), r, r'. repeat split; try done.
    rewrite Hpasso, Hres. reflexivity.
Qed.

(** C10 for a file with a name, an offset, a tempo change, a time
    signature and two notes. *)
Lemma resolucao_padrao_192_witness :
  ∃ c, fazerParsingChart (Some arquivo_sem_resolution) = Valor (Some c)
       ∧ resolucao c = 192
       ∧ resolucao (referenciaChart (novaCalculadoraTempo c)) = 192
       ∧ (∃ r0, ticksParaSegundos (novaCalculadoraTempo c) 0 = Some r0
                ∧ (r0 == offset c)%Q)
       ∧ ∀ T, 0 ≤ T → T < INT_MAX →
           ∃ ev r r',
             tempoNoTick (novaCalculadoraTempo c) T = Some ev
             ∧ ticksParaSegundos (novaCalculadoraTempo c) T = Some r
             ∧ ticksParaSegundos (novaCalculadoraTempo c) (T + 1) = Some r'
             ∧ (r' == r + usQ ev / 192 / 1000000)%Q.
Proof.
  apply (resolucao_padrao_192 arquivo_sem_resolution).
  - vm_compute. discriminate.
  - vm_compute. reflexivity.
  - intros e. vm_compute. discriminate.
  - vm_compute. discriminate.
Defined.

(** The conversions of that file, whose offset is half a second and whose
    tempo is 120 BPM: a beat is 192 ticks, so tick 96 is at 0.75 s, tick
    192 at 1 s and tick 384 at 1.5 s. *)
Example resolucao_padrao_192_conversoes :
  ∃ c, fazerParsingChart (Some arquivo_sem_resolution) = Valor (Some c)
       ∧ (∃ r, ticksParaSegundos (novaCalculadoraTempo c) 96 = Some r
               ∧ (r == 3 # 4)%Q)
       ∧ (∃ r, ticksParaSegundos (novaCalculadoraTempo c) 192 = Some r
               ∧ (r == 1)%Q)
       ∧ (∃ r, ticksParaSegundos (novaCalculadoraTempo c) 384 = Some r
               ∧ (r == 3 # 2)%Q).
Proof.
  eexists. split; [vm_compute; reflexivity|].
  repeat split; eexists; (split; [vm_compute; reflexivity|reflexivity]).
Qed.

(** The results of the calculator do not decrease for a parsed chart with
    a positive resolution. *)
Corollary ticksParaSegundos_monotona_parse arquivo (c : DadosChart Q) (a b : Z) :
  fazerParsingChart arquivo = Valor (Some c) → 0 < resolucao c →
  0 ≤ a → a ≤ b → b ≤ INT_MAX →
  ∃ ra rb, ticksParaSegundos (novaCalculadoraTempo c) a = Some ra
           ∧ ticksParaSegundos (novaCalculadoraTempo c) b = Some rb
           ∧ (ra <= rb)%Q.
Proof.
  intros Hp Hres Ha Hab Hb. apply fazerParsingChart_bem_formado in Hp.
  unfold ticksParaSegundos.
  destruct (mudancasTempoOrdenadas_crescente c Hp) as (ev & resto & -> & Hev & Hs).
  cbn [referenciaChart novaCalculadoraTempo].
  apply percorrerSegmentos_monotono; try done; lia.
Qed.

(** ** The groups of digits *)

Lemma casar_sem_grupos r s caps k res :
  grupos r = [] → casar r s caps k = Some res → ∃ s', k s' caps = Some res.
Proof.
  intros Hg H. apply casar_continua in H as (s' & caps' & H & Hc).
  exists s'. replace caps with caps'; [done|].
  apply map_eq. intros n. apply Hc. rewrite Hg. apply not_elem_of_nil.
Qed.

Lemma casar_seq_sem_grupos r1 r2 s caps k res :
  grupos r1 = [] → casar (RSeq r1 r2) s caps k = Some res →
  ∃ s', casar r2 s' caps k = Some res.
Proof. intros Hg H. cbn [casar] in H. by apply casar_sem_grupos in H. Qed.

Lemma casar_grupo_digitos n s caps k res :
  casar (RGroup n (mais rd)) s caps k = Some res →
  ∃ x s', digitos x ∧ k s' (<[n := x]> caps) = Some res.
Proof.
  intros H. cbn [casar] in H.
  assert (∃ c l, s = String c l ∧ isdigit c = true) as (c & l & -> & Hd).
  { unfold mais in H. cbn [casar rd] in H. destruct s as [|c l]; [done|].
    destruct (isdigit c) eqn:E; [|done]. eauto. }
  apply casar_sem_grupos in H as (s' & H); [|done].
  eexists _, s'. split; [|exact H]. by eexists c, l, _.
Qed.

Lemma casar_seq_grupo_digitos n r2 s caps k res :
  casar (RSeq (RGroup n (mais rd)) r2) s caps k = Some res →
  ∃ x s', digitos x ∧ casar r2 s' (<[n := x]> caps) k = Some res.
Proof.
  intros H. change (casar (RGroup n (mais rd)) s caps
                      (λ s' caps', casar r2 s' caps' k) = Some res) in H.
  by apply casar_grupo_digitos in H.
Qed.

Lemma regex_match_fim (s : string) (caps res : captures) :
  match s with EmptyString => Some caps | _ => None end = Some res → res = caps.
Proof. destruct s; congruence. Qed.

Ltac passo_sem_grupos H :=
  let s := fresh "resto" in
  apply casar_seq_sem_grupos in H as (s & H); [|reflexivity].

(** The groups of a line of a note. *)
Lemma padraoNota_grupos l res :
  regex_match l padraoNota = Some res →
  ∃ x1 x2 x3, digitos x1 ∧ digitos x2 ∧ digitos x3
              ∧ res = <[3%nat := x3]> (<[2%nat := x2]> (<[1%nat := x1]> ∅)).
Proof.
  unfold regex_match, padraoNota. cbn [seq]. intros H.
  apply casar_seq_grupo_digitos in H as (x1 & s1 & Hx1 & H).
  do 5 passo_sem_grupos H.
  apply casar_seq_grupo_digitos in H as (x2 & s2 & Hx2 & H).
  passo_sem_grupos H.
  apply casar_grupo_digitos in H as (x3 & s3 & Hx3 & H).
  apply regex_match_fim in H. by exists x1, x2, x3.
Qed.

Lemma padraoTempo_grupos l res :
  regex_match l padraoTempo = Some res →
  ∃ x1 x2, digitos x1 ∧ digitos x2
           ∧ res = <[2%nat := x2]> (<[1%nat := x1]> ∅).
Proof.
  unfold regex_match, padraoTempo. cbn [seq]. intros H.
  apply casar_seq_grupo_digitos in H as (x1 & s1 & Hx1 & H).
  do 5 passo_sem_grupos H.
  apply casar_grupo_digitos in H as (x2 & s2 & Hx2 & H).
  apply regex_match_fim in H. by exists x1, x2.
Qed.

Lemma padraoAssinaturaTempo_grupos l res :
  regex_match l padraoAssinaturaTempo = Some res →
  ∃ x1 x2, digitos x1 ∧ digitos x2
           ∧ (res = <[2%nat := x2]> (<[1%nat := x1]> ∅)
              ∨ ∃ x3, digitos x3
                      ∧ res = <[3%nat := x3]> (<[2%nat := x2]> (<[1%nat := x1]> ∅))).
Proof.
  unfold regex_match, padraoAssinaturaTempo. cbn [seq]. intros H.
  apply casar_seq_grupo_digitos in H as (x1 & s1 & Hx1 & H).
  do 6 passo_sem_grupos H.
  apply casar_seq_grupo_digitos in H as (x2 & s2 & Hx2 & H).
  exists x1, x2. split; [done|]. split; [done|].
  cbn [casar] in H.
  match type of H with
  | match ?m with _ => _ end = _ => destruct m as [r|] eqn:E
  end.
  - injection H as ->. right.
    change (casar (RSeq (mais rs) (RGroup 3 (mais rd))) s2
              (<[2%nat:=x2]> (<[1%nat:=x1]> ∅))
              (λ s' caps, match s' with EmptyString => Some caps | _ => None end)
            = Some res) in E.
    passo_sem_grupos E.
    apply casar_grupo_digitos in E as (x3 & s3 & Hx3 & E).
    apply regex_match_fim in E. by exists x3.
  - apply regex_match_fim in H. by left.
Qed.

Lemma stoi_int s v : stoi s = Valor v → INT_MIN ≤ v ≤ INT_MAX.
Proof.
  unfold stoi. destruct (ler_sinal _) as [neg s1].
  destruct (ler_digitos 10 s1 0 0) as [[v0 n] r].
  destruct (n =? 0)%Z; [done|].
  destruct (_ || _) eqn:E; [done|]. intros [= <-].
  apply orb_false_elim in E as [E1 E2].
  apply Z.ltb_ge in E1, E2. done.
Qed.

Lemma stoi_digitos x v : digitos x → stoi x = Valor v → naoNegativo v.
Proof.
  intros (c & l & n & Hd & ->) H. split.
  - by eapply stoi_digitos_nonneg.
  - by apply stoi_int in H as [_ ?].
Qed.


(** ** What the lines leave in the chart *)

Lemma str_grupos (x1 x2 x3 : string) :
  let duas : captures := <[2%nat := x2]> (<[1%nat := x1]> ∅) in
  let tres : captures := <[3%nat := x3]> duas in
  str duas 1 = x1 ∧ str duas 2 = x2 ∧ duas !! 3%nat = None
  ∧ str tres 1 = x1 ∧ str tres 2 = x2 ∧ str tres 3 = x3
  ∧ tres !! 3%nat = Some x3.
Proof.
  intros duas tres. unfold str, tres, duas.
  rewrite !(lookup_insert_ne _ 3%nat 1%nat), !(lookup_insert_ne _ 3%nat 2%nat),
    !(lookup_insert_ne _ 2%nat 1%nat), !(lookup_insert_ne _ 2%nat 3%nat),
    !(lookup_insert_ne _ 1%nat 3%nat), !lookup_insert_eq, lookup_empty by done.
  done.
Qed.

Lemma emplace_map_Forall {V} (P : Z → V → Prop) k v m :
  P k v → map_Forall P m → map_Forall P (emplace k v m).
Proof.
  intros Hv Hm. unfold emplace. destruct (m !! k); [done|].
  by apply map_Forall_insert_2.
Qed.

Lemma processarLinhaNaSecao_valida c sec l c' :
  processarLinhaNaSecao c sec l = Valor c' →
  Forall notaValida (notas c) ∧ map_Forall tempoValido (mudancasTempo c)
  ∧ map_Forall assinaturaValida (assinaturasTempo c) →
  Forall notaValida (notas c') ∧ map_Forall tempoValido (mudancasTempo c')
  ∧ map_Forall assinaturaValida (assinaturasTempo c').
Proof.
  unfold processarLinhaNaSecao. intros H (Hn & Ht & Ha).
  destruct (String.eqb sec "Song").
  { casos; simpl; done. }
  destruct (String.eqb sec "SyncTrack").
  { destruct (regex_match l padraoTempo) as [caps|] eqn:Et.
    - apply padraoTempo_grupos in Et as (x1 & x2 & Hx1 & Hx2 & ->).
      destruct (str_grupos x1 x2 "") as (E1 & E2 & _).
      rewrite E1, E2 in H.
      apply ligar_Valor in H as (t & Ht1 & H).
      apply ligar_Valor in H as (v & Hv & H). injection H as <-. simpl.
      split; [done|]. split; [|done].
      apply emplace_map_Forall; [|done].
      split; [done|].
      split; simpl; [exact (stoi_digitos _ _ Hx1 Ht1)|exact (stoi_digitos _ _ Hx2 Hv)].
    - destruct (regex_match l padraoAssinaturaTempo) as [caps|] eqn:Ea;
        [|by injection H as <-].
      apply padraoAssinaturaTempo_grupos in Ea
        as (x1 & x2 & Hx1 & Hx2 & [->|(x3 & Hx3 & ->)]).
      + destruct (str_grupos x1 x2 "") as (E1 & E2 & E3 & _).
        rewrite E1, E2, E3 in H.
        rewrite bool_decide_eq_false_2 in H by (intros [? ?]; done).
        simpl in H.
        apply ligar_Valor in H as (t & Ht1 & H).
        apply ligar_Valor in H as (v & Hv & H). injection H as <-. simpl.
        split; [done|]. split; [done|].
        apply emplace_map_Forall; [|done].
        pose proof (stoi_digitos _ _ Hx1 Ht1). pose proof (stoi_digitos _ _ Hx2 Hv).
        unfold naoNegativo in *. repeat split; simpl; unfold INT_MAX in *; lia.
      + destruct (str_grupos x1 x2 x3) as (_ & _ & _ & E1 & E2 & E3 & E4).
        rewrite E1, E2, E3, E4 in H.
        rewrite bool_decide_eq_true_2 in H by eauto.
        simpl in H.
        apply ligar_Valor in H as (d & Hd & H).
        apply ligar_Valor in H as (t & Ht1 & H).
        apply ligar_Valor in H as (v & Hv & H). injection H as <-. simpl.
        split; [done|]. split; [done|].
        apply emplace_map_Forall; [|done].
        pose proof (stoi_digitos _ _ Hx1 Ht1). pose proof (stoi_digitos _ _ Hx2 Hv).
        pose proof (stoi_digitos _ _ Hx3 Hd).
        unfold naoNegativo in *. repeat split; simpl; try lia;
          destruct (d =? 0)%Z eqn:E; try apply Z.eqb_neq in E;
          unfold INT_MAX in *; lia. }
  destruct (_ || _); [|by injection H as <-].
  destruct (regex_match l padraoNota) as [caps|] eqn:En; [|by injection H as <-].
  apply padraoNota_grupos in En as (x1 & x2 & x3 & Hx1 & Hx2 & Hx3 & ->).
  destruct (str_grupos x1 x2 x3) as (_ & _ & _ & E1 & E2 & E3 & _).
  rewrite E1, E2, E3 in H.
  apply ligar_Valor in H as (t & Ht1 & H).
  apply ligar_Valor in H as (tr & Htr & H).
  apply ligar_Valor in H as (comp & Hcomp & H). injection H as <-. simpl.
  split; [|done].
  apply Forall_app. split; [done|]. apply Forall_singleton.
  split; simpl; [exact (stoi_digitos _ _ Hx1 Ht1)|].
  split; [exact (stoi_digitos _ _ Hx2 Htr)|exact (stoi_digitos _ _ Hx3 Hcomp)].
Qed.

Lemma processarLinha_valida e l e' :
  processarLinha e l = Valor e' →
  Forall notaValida (notas e.2) ∧ map_Forall tempoValido (mudancasTempo e.2)
  ∧ map_Forall assinaturaValida (assinaturasTempo e.2) →
  Forall notaValida (notas e'.2) ∧ map_Forall tempoValido (mudancasTempo e'.2)
  ∧ map_Forall assinaturaValida (assinaturasTempo e'.2).
Proof.
  destruct e as [sec c]. unfold processarLinha. intros H Hv.
  destruct (_ || _); [by injection H as <-|].
  destruct (regex_match _ padraoSecao); [by injection H as <-|].
  destruct (_ || _); [by injection H as <-|].
  destruct (negb _); [|by injection H as <-].
  apply ligar_Valor in H as (c1 & H & H1). injection H1 as <-.
  eapply processarLinhaNaSecao_valida; eauto.
Qed.

Lemma processarLinhas_valida linhas : ∀ e e',
  processarLinhas e linhas = Valor e' →
  Forall notaValida (notas e.2) ∧ map_Forall tempoValido (mudancasTempo e.2)
  ∧ map_Forall assinaturaValida (assinaturasTempo e.2) →
  Forall notaValida (notas e'.2) ∧ map_Forall tempoValido (mudancasTempo e'.2)
  ∧ map_Forall assinaturaValida (assinaturasTempo e'.2).
Proof.
  induction linhas as [|l linhas IH]; intros e e' H Hv; simpl in H.
  - by injection H as <-.
  - apply ligar_Valor in H as (e1 & H1 & H2).
    eapply IH; [exact H2|]. eapply processarLinha_valida; eauto.
Qed.

Lemma fazerParsingChart_valido arquivo c :
  fazerParsingChart arquivo = Valor (Some c) →
  Forall notaValida (notas c) ∧ map_Forall tempoValido (mudancasTempo c)
  ∧ map_Forall assinaturaValida (assinaturasTempo c).
Proof.
  unfold fazerParsingChart. destruct (String.eqb _ _); [done|]. intros H.
  apply ligar_Valor in H as (e & H & He). injection He as <-.
  apply processarLinhas_valida in H as (Hn & Ht & Ha).
  - simpl. split; [|done]. by rewrite merge_sort_Permutation.
  - simpl. split; [constructor|]. split; apply map_Forall_empty.
Qed.

(** X5.  The notes of a parsed chart are in the order of their ticks, and
    the tick, the fret and the length of each are numbers of an [int] that
    are not negative. *)
Theorem notas_do_parse_validas arquivo (c : DadosChart Q) :
  fazerParsingChart arquivo = Valor (Some c) →
  StronglySorted nota_le (notas c) ∧ Forall notaValida (notas c).
Proof.
  intros H. split; [|by apply fazerParsingChart_valido in H as (? & _)].
  unfold fazerParsingChart in H. destruct (String.eqb _ _); [done|].
  apply ligar_Valor in H as (e & H & He). injection He as <-. simpl.
  apply (StronglySorted_merge_sort nota_le).
Qed.

Lemma notas_do_parse_validas_witness :
  StronglySorted nota_le (notas chart_duas_dificuldades)
  ∧ Forall notaValida (notas chart_duas_dificuldades).
Proof.
  apply (notas_do_parse_validas (Some arquivo_duas_dificuldades)).
  vm_compute. reflexivity.
Defined.

(** X6.  In a parsed chart every tempo change and every time signature is
    filed under its own tick; the ticks, the tempo values and the
    numerators are numbers of an [int] that are not negative, and the
    denominator of a time signature is above zero. *)
Theorem sincronia_do_parse_valida arquivo (c : DadosChart Q) :
  fazerParsingChart arquivo = Valor (Some c) →
  map_Forall tempoValido (mudancasTempo c)
  ∧ map_Forall assinaturaValida (assinaturasTempo c).
Proof. intros H. by apply fazerParsingChart_valido in H as (_ & ?). Qed.

Lemma sincronia_do_parse_valida_witness :
  map_Forall tempoValido (mudancasTempo chart_duas_dificuldades)
  ∧ map_Forall assinaturaValida (assinaturasTempo chart_duas_dificuldades).
Proof.
  apply (sincronia_do_parse_valida (Some arquivo_duas_dificuldades)).
  vm_compute. reflexivity.
Defined.

(** ** The notes of all the sections of notes *)

Lemma processarLinhaNaSecao_contagem c sec l c' :
  processarLinhaNaSecao c sec l = Valor c' →
  length (notas c')
  = (length (notas c) + if linhaDeNota (sec, l) then 1 else 0)%nat.
Proof.
  unfold processarLinhaNaSecao, linhaDeNota, esta_em, secoesDeNotas.
  cbn [fst snd existsb]. intros H.
  destruct (String.eqb sec "Song") eqn:E1.
  { apply String.eqb_eq in E1 as ->. simpl. casos; simpl; lia. }
  destruct (String.eqb sec "SyncTrack") eqn:E2.
  { apply String.eqb_eq in E2 as ->. simpl. casos; simpl; lia. }
  rewrite orb_false_r, !orb_assoc.
  destruct (_ || _); [|injection H as <-; simpl; lia].
  destruct (regex_match l padraoNota) as [caps|] eqn:En.
  - rewrite bool_decide_eq_true_2 by eauto.
    apply ligar_Valor in H as (t & _ & H).
    apply ligar_Valor in H as (tr & _ & H).
    apply ligar_Valor in H as (comp & _ & H). injection H as <-. simpl.
    rewrite length_app. simpl. lia.
  - rewrite bool_decide_eq_false_2 by (intros [? ?]; done).
    injection H as <-. simpl. lia.
Qed.

Lemma processarLinhas_contagem linhas : ∀ sec c e',
  processarLinhas (sec, c) linhas = Valor e' →
  length (notas e'.2)
  = (length (notas c)
     + length (List.filter linhaDeNota (linhasComSecao sec linhas)))%nat.
Proof.
  induction linhas as [|l linhas IH]; intros sec c e' H; simpl in H.
  - injection H as <-. simpl. lia.
  - apply ligar_Valor in H as ([sec1 c1] & H1 & H2).
    cbn [linhasComSecao]. unfold processarLinha in H1.
    destruct (String.eqb (aparar l) "" || String.prefix "//" (aparar l)).
    { injection H1 as <- <-. eauto. }
    destruct (regex_match (aparar l) padraoSecao).
    { injection H1 as <- <-. eauto. }
    destruct (String.eqb (aparar l) "{" || String.eqb (aparar l) "}").
    { injection H1 as <- <-. eauto. }
    destruct (negb (String.eqb sec "")); simpl in H1.
    + apply ligar_Valor in H1 as (c2 & H1 & H3). injection H3 as <- <-.
      rewrite (IH _ _ _ H2), (processarLinhaNaSecao_contagem _ _ _ _ H1).
      cbn [List.filter]. destruct (linhaDeNota (sec, aparar l)); simpl; lia.
    + injection H1 as <- <-. eauto.
Qed.

(** X7.  A parsed chart has one note for each line of a note that the file
    has in the sections [ExpertSingle], [HardSingle], [MediumSingle] and
    [EasySingle], whichever of them: the notes of the difficulties are not
    told apart, and a line of another section gives no note. *)
Theorem notas_de_todas_as_secoes (conteudo : string) (c : DadosChart Q) :
  fazerParsingChart (Some conteudo) = Valor (Some c) →
  length (notas c)
  = length (List.filter linhaDeNota
              (linhasComSecao "" (getlines (lerArquivoUtf8 (Some conteudo))))).
Proof.
  unfold fazerParsingChart. destruct (String.eqb _ _); [done|]. intros H.
  apply ligar_Valor in H as (e & H & He). injection He as <-.
  apply processarLinhas_contagem in H. cbn [notas com_notas].
  by rewrite merge_sort_Permutation, H.
Qed.

Lemma notas_de_todas_as_secoes_witness :
  length (notas chart_duas_dificuldades)
  = length (List.filter linhaDeNota
              (linhasComSecao ""
                 (getlines (lerArquivoUtf8 (Some arquivo_duas_dificuldades))))).
Proof.
  apply (notas_de_todas_as_secoes arquivo_duas_dificuldades).
  vm_compute. reflexivity.
Defined.

(** The file of the examples has the two notes of [ExpertSingle] and the
    note of [EasySingle], by their ticks, and not the line of [Events]. *)
Example notas_de_duas_dificuldades :
  ∃ c, fazerParsingChart (Some arquivo_duas_dificuldades) = Valor (Some c)
       ∧ notas c = [ {| n_tick := 240; traste := 1; comprimento := 0 |};
                     {| n_tick := 480; traste := 0; comprimento := 240 |};
                     {| n_tick := 960; traste := 2; comprimento := 0 |} ]
       ∧ resolucao c = 480
       ∧ assinaturasTempo c !! 0
         = Some {| ts_tick := 0; numerador := 3; denominador := 4 |}.
Proof.
  eexists. split; [vm_compute; reflexivity|].
  split; [reflexivity|]. split; [reflexivity|]. vm_compute. reflexivity.
Qed.

(** ** The keys of [Song] *)

(** X8.  The last line of [Song] that gives [Resolution] a value decides:
    when a line of data of [Song] gives it the number [n] and no later
    line of the file gives it a value, the parsed chart has the resolution
    [n], whatever the lines before have given. *)
Theorem ultima_resolution_prevalece (conteudo : string) antes linha depois c
    correspondencia n c' :
  getlines (lerArquivoUtf8 (Some conteudo)) = (antes ++ linha :: depois)%list →
  processarLinhas ("", dadosChartInicial) antes = Valor ("Song", c) →
  linhaDeDados (aparar linha) = true →
  regex_match (aparar linha) padraoChaveValor = Some correspondencia →
  str correspondencia 1 = "Resolution" →
  stoi (sem_aspas (str correspondencia 2)) = Valor n →
  forallb (λ par, negb (atribuiResolution par)) (linhasComSecao "Song" depois) = true →
  fazerParsingChart (Some conteudo) = Valor (Some c') →
  resolucao c' = n.
Proof.
  intros Hl Ha Hd Hm Hk Hn Hsem Hp.
  rewrite fazerParsingChart_linhas in Hp by (eapply getlines_nao_vazio; eauto).
  rewrite Hl, processarLinhas_app, Ha in Hp.
  unfold mbind at 2, resultado_bind, ligar at 2 in Hp.
  cbn [processarLinhas] in Hp.
  rewrite processarLinha_dados in Hp by done.
  unfold processarLinhaNaSecao in Hp.
  change (String.eqb "Song" "Song") with true in Hp. cbv iota in Hp.
  rewrite Hm, Hk, Hn in Hp. simpl in Hp.
  apply ligar_Valor in Hp as (e' & Hp & He). injection He as <-.
  apply processarLinhas_resolucao in Hp; [|done]. simpl in *. done.
Qed.

Lemma ultima_resolution_prevalece_witness :
  resolucao chart_duas_dificuldades = 480.
Proof.
  apply (ultima_resolution_prevalece arquivo_duas_dificuldades
           ["[Song]"; "{"; "  Resolution = 192"]
           "  Resolution = 480"
           ["}"; "[SyncTrack]"; "{"; "  0 = TS 3 0"; "  0 = B 120000";
            "  960 = TS 6 8"; "}";
            "[Events]"; "{"; "  0 = E section"; "  77 = N 1 2"; "}";
            "[ExpertSingle]"; "{"; "  960 = N 2 0"; "  480 = N 0 240"; "}";
            "[EasySingle]"; "{"; "  240 = N 1 0"; "}"]
           (com_int "Resolution" 192 dadosChartInicial)
           (<[2%nat := "480"]> (<[1%nat := "Resolution"]> ∅)) 480
           chart_duas_dificuldades);
    vm_compute; reflexivity.
Defined.

(** ** The sections that are not read *)

Lemma processarLinhaNaSecao_nao_lida c sec l :
  esta_em sec secoesLidas = false → processarLinhaNaSecao c sec l = Valor c.
Proof.
  unfold esta_em, secoesLidas, secoesDeNotas, processarLinhaNaSecao.
  cbn [existsb]. intros H.
  repeat (apply orb_false_elim in H as [? H]).
  repeat match goal with E : String.eqb sec _ = false |- _ => rewrite E; clear E end.
  done.
Qed.

(** X9.  In a section that is not [Song], [SyncTrack] or a section of
    notes, and before the first section, the lines up to the next section
    header change nothing and throw nothing, whatever they hold. *)
Theorem secao_nao_lida_ignorada (sec : string) (c : DadosChart Q)
    (linhas : list string) :
  esta_em sec secoesLidas = false →
  Forall (λ l, regex_match (aparar l) padraoSecao = None) linhas →
  processarLinhas (sec, c) linhas = Valor (sec, c).
Proof.
  intros Hsec Hl. induction Hl as [|l linhas Hh _ IH]; [done|].
  cbn [processarLinhas]. unfold processarLinha at 1. rewrite Hh.
  destruct (_ || _); [exact IH|].
  destruct (_ || _); [exact IH|].
  destruct (negb _); [|exact IH].
  rewrite processarLinhaNaSecao_nao_lida by done. exact IH.
Qed.

Lemma secao_nao_lida_ignorada_witness :
  processarLinhas ("Events", dadosChartInicial)
    ["{"; "  0 = E section"; "  77 = N 1 2"; "  Offset = notanumber"; "}"]
  = Valor ("Events", dadosChartInicial).
Proof.
  apply (secao_nao_lida_ignorada "Events" dadosChartInicial).
  - vm_compute. reflexivity.
  - repeat (constructor; [vm_compute; reflexivity|]). constructor.
Defined.

End Parser.

(** * The game *)

Section Partida.

(** ** Sustain *)

Lemma Qltb_false_of_le a b : Qle_bool a b = true → Qltb b a = false.
Proof. intros H. unfold Qltb. by rewrite H. Qed.

(** One turn of the sustain loop never marks the note complete, and pays
    one point at most. *)
Lemma atualizarSustainNota_incompleto t dt j n :
  sustainCompleto (atualizarSustainNota t dt j n).2 = sustainCompleto n
  ∧ pontuacao j ≤ pontuacao (atualizarSustainNota t dt j n).1 ≤ pontuacao j + 1.
Proof.
  unfold atualizarSustainNota.
  destruct (negb (ehNotaLonga n) || sustainCompleto n || perdida n
            || negb (naTela n) || negb (acertada n));
    [split; simpl; [reflexivity|lia]|].
  destruct (teclaPresionadaParaPista j (pista n)); simpl.
  - destruct (Qle_bool (timestampSec n) t); simpl.
    + destruct (Qle_bool t (tempoFimSustainSec n)) eqn:E; simpl.
      * destruct (_ <=? 0); simpl; rewrite (Qltb_false_of_le _ _ E); simpl;
          (split; [reflexivity|lia]).
      * rewrite andb_false_r. split; simpl; [reflexivity|lia].
    + rewrite andb_false_r. split; simpl; [reflexivity|lia].
  - rewrite andb_false_r. split; simpl; [reflexivity|lia].
Qed.

Lemma atualizarSustainParaJogador_incompleto notas : ∀ j t dt,
  sustainCompleto <$> (atualizarSustainParaJogador j notas t dt).2
  = sustainCompleto <$> notas
  ∧ pontuacao j ≤ pontuacao (atualizarSustainParaJogador j notas t dt).1
    ≤ pontuacao j + Z.of_nat (length notas).
Proof.
  induction notas as [|n notas IH]; intros j t dt;
    cbn [atualizarSustainParaJogador]; [split; [done|simpl; lia]|].
  pose proof (atualizarSustainNota_incompleto t dt j n) as (Hc & Hp).
  destruct (atualizarSustainNota t dt j n) as [j1 n1]. cbn [fst snd] in *.
  specialize (IH j1 t dt).
  destruct (atualizarSustainParaJogador j1 notas t dt) as [j2 r2].
  cbn [fst snd] in *.
  destruct IH as [IH1 IH2]. rewrite !fmap_cons, Hc, IH1.
  split; [done|]. rewrite length_cons. lia.
Qed.

Lemma atualizarVisibilidadeNota_completo n :
  sustainCompleto (atualizarVisibilidadeNota n) = sustainCompleto n.
Proof.
  unfold atualizarVisibilidadeNota.
  repeat match goal with
         | |- context [if ?b then _ else _] => destruct b; simpl
         end; reflexivity.
Qed.

Lemma atualizarLogicaNota_completo t n :
  sustainCompleto (atualizarLogicaNota t n) = sustainCompleto n.
Proof.
  unfold atualizarLogicaNota.
  destruct (perdida _); [by rewrite atualizarVisibilidadeNota_completo|].
  destruct (_ && _).
  - unfold verificarNotaPerdida.
    repeat match goal with
           | |- context [if ?b then _ else _] => destruct b; simpl
           end; by rewrite atualizarVisibilidadeNota_completo.
  - by rewrite atualizarVisibilidadeNota_completo.
Qed.

Lemma atualizarLogicaJogador_completo t notas :
  sustainCompleto <$> atualizarLogicaJogador notas t = sustainCompleto <$> notas.
Proof.
  unfold atualizarLogicaJogador. induction notas as [|n notas IH]; simpl; [done|].
  f_equal; [apply atualizarLogicaNota_completo|apply IH].
Qed.

(** No update completes a sustain or pays the bonus of 20 points: an
    update leaves [sustainCompleto] of every note as it was and pays one
    point for a note at most. *)
Lemma atualizar_incompleto (g : Jogo) (dt : Z) (t : Q) (tocando : bool) :
  sustainCompleto <$> notasJ1 (atualizar g dt t tocando)
  = sustainCompleto <$> notasJ1 g
  ∧ sustainCompleto <$> notasJ2 (atualizar g dt t tocando)
    = sustainCompleto <$> notasJ2 g
  ∧ pontuacao (jogador1 (atualizar g dt t tocando))
    ≤ pontuacao (jogador1 g) + Z.of_nat (length (notasJ1 g))
  ∧ pontuacao (jogador2 (atualizar g dt t tocando))
    ≤ pontuacao (jogador2 g) + Z.of_nat (length (notasJ2 g)).
Proof.
  unfold atualizar. destruct (negb (jogoRodando g)); [repeat split; lia|].
  pose proof (atualizarSustainParaJogador_incompleto
                (atualizarLogicaJogador (notasJ1 g) (t + OFFSET_LATENCIA_AUDIO_SEC)%Q)
                (jogador1 g) (t + OFFSET_LATENCIA_AUDIO_SEC)%Q dt) as [H1 H1'].
  pose proof (atualizarSustainParaJogador_incompleto
                (atualizarLogicaJogador (notasJ2 g) (t + OFFSET_LATENCIA_AUDIO_SEC)%Q)
                (jogador2 g) (t + OFFSET_LATENCIA_AUDIO_SEC)%Q dt) as [H2 H2'].
  destruct (atualizarSustainParaJogador (jogador1 g) _ _ _) as [j1 n1].
  destruct (atualizarSustainParaJogador (jogador2 g) _ _ _) as [j2 n2].
  simpl in *. rewrite H1, H2, !atualizarLogicaJogador_completo.
  unfold atualizarLogicaJogador in *. rewrite !length_map in *.
  repeat split; lia.
Qed.

(** C3: the code does not do what the specification says.  Whatever the
    state, the position of the music and the keys, an update marks no
    sustain complete and pays no bonus: the test for the end is made after
    [sustainAtivo] has been cleared for a position past the end.  In the
    session in which player 1 hits the long note (1/2 s to 1 s) on time and
    holds the key until 12/10 s, the note ends hit, not complete and lost,
    and the score is 5 for the hit and 5 for the updates inside the note,
    with no bonus. *)
Theorem sustain_nunca_completo :
  (∀ (g : Jogo) (dt : Z) (t : Q) (tocando : bool),
     sustainCompleto <$> notasJ1 (atualizar g dt t tocando)
     = sustainCompleto <$> notasJ1 g
     ∧ sustainCompleto <$> notasJ2 (atualizar g dt t tocando)
       = sustainCompleto <$> notasJ2 g)
  ∧ (let g := simular (jogoCarregado mestreSustain) sessaoSustain in
     (ehNotaLonga <$> notasJ1 g) = [true]
     ∧ (acertada <$> notasJ1 g) = [true]
     ∧ (sustainCompleto <$> notasJ1 g) = [false]
     ∧ (perdida <$> notasJ1 g) = [true]
     ∧ bool_decide (Keyboard.A ∈ teclasPresionadas (jogador1 g)) = true
     ∧ pontuacao (jogador1 g) = 10).
Proof.
  split.
  - intros g dt t tocando.
    destruct (atualizar_incompleto g dt t tocando) as (H1 & H2 & _). done.
  - vm_compute. repeat split.
Qed.

(** ** Hits *)

Lemma acertarNotas_notas p t notas : ∀ j,
  (acertarNotas p t j notas).2
  = (λ n, if podeAcertar n p t then com_acertada true n else n) <$> notas.
Proof.
  induction notas as [|n notas IH]; intros j; cbn [acertarNotas]; [done|].
  unfold acertarNota at 1.
  destruct (podeAcertar n p t) eqn:E.
  - destruct (ehNotaLonga (com_acertada true n));
      match goal with |- context [acertarNotas p t ?j' notas] =>
        specialize (IH j'); destruct (acertarNotas p t j' notas) end;
      cbn [snd] in *; by rewrite fmap_cons, E, IH.
  - specialize (IH j); destruct (acertarNotas p t j notas);
      cbn [snd] in *; by rewrite fmap_cons, E, IH.
Qed.

(** [verificarAcertoNota] hits the notes that can be hit, and no other. *)
Lemma verificarAcertoNota_notas j notas p t :
  (verificarAcertoNota j notas p t).2
  = (λ n, if podeAcertar n p t then com_acertada true n else n) <$> notas.
Proof.
  unfold verificarAcertoNota. rewrite <- (acertarNotas_notas p t notas j).
  by destruct (acertarNotas p t j notas).
Qed.

(** The value that [verificarAcertoNota] returns. *)
Lemma verificarAcertoNota_false j notas p t :
  (verificarAcertoNota j notas p t).1.1 = false.
Proof. unfold verificarAcertoNota. by destruct (acertarNotas p t j notas). Qed.

Lemma podeAcertar_fora_da_janela n p t :
  (Qabs (timestampSec n - t) == 200001 # 1000000)%Q → podeAcertar n p t = false.
Proof.
  intros H. unfold podeAcertar.
  assert (Qle_bool (Qabs (timestampSec n - t) * 1000)
            (inject_Z TOLERANCIA_ACERTO_MS) = false) as ->;
    [|by rewrite andb_false_r].
  destruct (Qle_bool _ _) eqn:E; [|done]. apply Qle_bool_iff in E.
  rewrite H in E. by vm_compute in E.
Qed.

Lemma podeAcertar_dentro_da_janela n p t :
  pista n = p → naTela n = true → acertada n = false → perdida n = false →
  (Qabs (timestampSec n - t) == 199999 # 1000000)%Q →
  podeAcertar n p t = true ↔ naFaixaDeAcerto (posicaoY n).
Proof.
  intros Hp Hn Ha Hm H. unfold podeAcertar, naFaixaDeAcerto.
  rewrite Hp, Z.eqb_refl, Hn, Ha, Hm. simpl negb. rewrite !andb_true_l.
  assert (Qle_bool (Qabs (timestampSec n - t) * 1000)
            (inject_Z TOLERANCIA_ACERTO_MS) = true) as ->.
  { apply Qle_bool_iff. rewrite H. by vm_compute. }
  rewrite andb_true_r, andb_true_iff, !Qle_bool_iff. done.
Qed.

(** C4, as amended.  For a note of the lane of the key that is on screen,
    not hit and not lost, and a key press handled at music time [t]: with
    [|timestampSec - t| = 0.200001] the press does not hit the note; with
    [|timestampSec - t| = 0.199999] it hits the note exactly when the
    position of the note is in the hit zone, from
    [Y_ZONA_ACERTO - ALTURA_NOTA] to
    [Y_ZONA_ACERTO + ALTURA_ZONA_ACERTO + ALTURA_NOTA]; and it is not there,
    so the press does not hit it, when the position is the one that an
    update gives the note for the same time [t]. *)
Theorem janela_de_acerto (j : Jogador) (notas : list Nota) (p : Z) (t : Q)
    (i : nat) (nota : Nota) :
  notas !! i = Some nota →
  pista nota = p → naTela nota = true →
  acertada nota = false → perdida nota = false →
  ((Qabs (timestampSec nota - t) == 200001 # 1000000)%Q →
   (verificarAcertoNota j notas p t).2 !! i = Some nota)
  ∧ ((Qabs (timestampSec nota - t) == 199999 # 1000000)%Q →
     ∃ nota', (verificarAcertoNota j notas p t).2 !! i = Some nota'
              ∧ (acertada nota' = true ↔ naFaixaDeAcerto (posicaoY nota)))
  ∧ ((Qabs (timestampSec nota - t) == 199999 # 1000000)%Q →
     (posicaoY nota == inject_Z Y_ZONA_ACERTO
                       - (timestampSec nota - t) * VELOCIDADE_QUEDA_NOTA_PPS)%Q →
     (verificarAcertoNota j notas p t).2 !! i = Some nota).
Proof.
  intros Hi Hp Hn Ha Hm. rewrite verificarAcertoNota_notas, list_lookup_fmap, Hi.
  cbn [fmap option_fmap option_map]. split; [|split].
  - intros H. by rewrite podeAcertar_fora_da_janela.
  - intros H. eexists; split; [done|].
    rewrite <- (podeAcertar_dentro_da_janela nota p t) by done.
    destruct (podeAcertar nota p t); simpl; [done|]. rewrite Ha. done.
  - intros H Hy.
    destruct (podeAcertar nota p t) eqn:E; [|done].
    apply podeAcertar_dentro_da_janela in E; try done.
    destruct E as [E1 E2]. rewrite Hy in E1, E2.
    unfold Y_ZONA_ACERTO, ALTURA_JANELA, ALTURA_NOTA, ALTURA_ZONA_ACERTO,
      VELOCIDADE_QUEDA_NOTA_PPS in E1, E2.
    change (inject_Z (1200 - 100 - 45)) with 1055%Q in E1.
    change (inject_Z (1200 - 100)) with 1100%Q in E1, E2.
    change (inject_Z (1200 - 100 + 75 + 45)) with 1220%Q in E2.
    exfalso. revert H. apply Qabs_case; intros; lra.
Qed.

(** C4 for the short note at 1 s, pressed at 0.799999 s (out of the
    window) and at 0.800001 s (in the window, and above the hit zone). *)
Lemma janela_de_acerto_witness :
  let j := novoJogador teclasJogador1 in
  let t1 := (799999 # 1000000)%Q in
  let t2 := (800001 # 1000000)%Q in
  (verificarAcertoNota j [notaCurtaEm t1] 0 t1).2 !! 0%nat = Some (notaCurtaEm t1)
  ∧ (∃ nota', (verificarAcertoNota j [notaCurtaEm t2] 0 t2).2 !! 0%nat = Some nota'
              ∧ (acertada nota' = true
                 ↔ naFaixaDeAcerto (posicaoY (notaCurtaEm t2))))
  ∧ (verificarAcertoNota j [notaCurtaEm t2] 0 t2).2 !! 0%nat = Some (notaCurtaEm t2).
Proof.
  intros j t1 t2. split; [|split].
  - refine (proj1 (janela_de_acerto j [notaCurtaEm t1] 0 t1 0%nat (notaCurtaEm t1)
                     _ _ _ _ _) _); vm_compute; reflexivity.
  - refine (proj1 (proj2 (janela_de_acerto j [notaCurtaEm t2] 0 t2 0%nat
                            (notaCurtaEm t2) _ _ _ _ _)) _);
      vm_compute; reflexivity.
  - refine (proj2 (proj2 (janela_de_acerto j [notaCurtaEm t2] 0 t2 0%nat
                            (notaCurtaEm t2) _ _ _ _ _)) _ _);
      vm_compute; reflexivity.
Defined.

(** C4 as the specification states it fails: the short note of lane 0 at
    1 s is, after the update at 0.800001 s, on screen, not hit and not
    lost, and 0.199999 s away; the press of [A] at that time does not hit
    it, and pays nothing. *)
Lemma janela_de_acerto_contraexemplo :
  let t := (800001 # 1000000)%Q in
  let g1 := simular (jogoCarregado mestreCurta)
              [Pressionar Keyboard.Space 0; Atualizar t] in
  let g2 := reagir g1 (Pressionar Keyboard.A t) in
  ∃ nota, notasJ1 g1 = [nota]
          ∧ pista nota = 0 ∧ naTela nota = true
          ∧ acertada nota = false ∧ perdida nota = false
          ∧ (Qabs (timestampSec nota - t) == 199999 # 1000000)%Q
          ∧ notasJ1 g2 = [nota]
          ∧ pontuacao (jogador1 g2) = 0.
Proof. vm_compute. eexists. repeat split. Qed.

(** ** The flag of the short notes *)

Lemma acertarNota_jogador p t j n :
  mapeamentoTeclaPista (acertarNota p t j n).1 = mapeamentoTeclaPista j
  ∧ teclasPresionadas (acertarNota p t j n).1 = teclasPresionadas j
  ∧ pistaPermiteAcertoNotaCurta (acertarNota p t j n).1
    = pistaPermiteAcertoNotaCurta j.
Proof.
  unfold acertarNota. destruct (podeAcertar n p t); [|done].
  by destruct (ehNotaLonga _).
Qed.

Lemma acertarNotas_jogador p t notas : ∀ j,
  mapeamentoTeclaPista (acertarNotas p t j notas).1 = mapeamentoTeclaPista j
  ∧ teclasPresionadas (acertarNotas p t j notas).1 = teclasPresionadas j
  ∧ pistaPermiteAcertoNotaCurta (acertarNotas p t j notas).1
    = pistaPermiteAcertoNotaCurta j.
Proof.
  induction notas as [|n notas IH]; intros j; cbn [acertarNotas]; [done|].
  pose proof (acertarNota_jogador p t j n) as (H1 & H2 & H3).
  destruct (acertarNota p t j n) as [j1 n1]. cbn [fst] in *.
  specialize (IH j1). destruct (acertarNotas p t j1 notas) as [j2 r2].
  cbn [fst] in *.
  destruct IH as (I1 & I2 & I3). by rewrite I1, I2, I3.
Qed.

(** A key press takes no permission away: the flags after it are the flags
    before it, with [false] put at the lane of the key when the lane had no
    flag. *)
Lemma processarTeclaPressJogador_permissoes tecla t jogador notas :
  pistaPermiteAcertoNotaCurta (processarTeclaPressJogador tecla t jogador notas).1
  = match mapeamentoTeclaPista jogador !! tecla with
    | Some p => (indexar (pistaPermiteAcertoNotaCurta jogador) p).2
    | None => pistaPermiteAcertoNotaCurta jogador
    end.
Proof.
  unfold processarTeclaPressJogador.
  destruct (mapeamentoTeclaPista jogador !! tecla) as [p|]; [|done].
  cbn [pistaPermiteAcertoNotaCurta com_teclas].
  destruct (indexar (pistaPermiteAcertoNotaCurta jogador) p) as [permite f] eqn:E.
  destruct permite; [|done].
  unfold verificarAcertoNota.
  match goal with |- context [acertarNotas p ?t' ?j' notas] =>
    pose proof (acertarNotas_jogador p t' notas j') as (_ & _ & H);
    destruct (acertarNotas p t' j' notas) as [j2 n2] end.
  cbn [fst snd] in *. exact H.
Qed.

(** A key release gives the permission of the lane back. *)
Lemma processarTeclaReleaseJogador_permite tecla jogador p :
  mapeamentoTeclaPista jogador !! tecla = Some p →
  pistaPermiteAcertoNotaCurta (processarTeclaReleaseJogador tecla jogador) !! p
  = Some true.
Proof.
  intros H. unfold processarTeclaReleaseJogador. rewrite H. simpl.
  apply lookup_insert_eq.
Qed.

(** C7: the code does not do what the specification says.
    [verificarAcertoNota] returns [false] also when it has hit a note, so a
    key press never clears the flag of its lane: a flag that allows a hit
    before a press allows it after.  In the session in which player 1 hits
    the first of two short notes of lane 0 and the key is not released, the
    flag of lane 0 still allows a hit, and a second key event of the same
    key hits the second note. *)
Theorem permissao_nunca_retirada :
  (∀ tecla t jogador notas p,
     pistaPermiteAcertoNotaCurta jogador !! p = Some true →
     pistaPermiteAcertoNotaCurta
       (processarTeclaPressJogador tecla t jogador notas).1 !! p = Some true)
  ∧ (let g1 := simular (jogoCarregado mestreDuasCurtas)
                 [Pressionar Keyboard.Space 0; Atualizar (1 # 2);
                  Pressionar Keyboard.A (1 # 2)] in
     let g2 := simular g1 [Atualizar (6 # 10); Pressionar Keyboard.A (6 # 10)] in
     (ehNotaLonga <$> notasJ1 g1) = [false; false]
     ∧ (acertada <$> notasJ1 g1) = [true; false]
     ∧ pontuacao (jogador1 g1) = 10
     ∧ pistaPermiteAcertoNotaCurta (jogador1 g1) !! 0 = Some true
     ∧ bool_decide (Keyboard.A ∈ teclasPresionadas (jogador1 g2)) = true
     ∧ (acertada <$> notasJ1 g2) = [true; true]
     ∧ pontuacao (jogador1 g2) = 20).
Proof.
  split.
  - intros tecla t jogador notas p Hp.
    rewrite processarTeclaPressJogador_permissoes.
    destruct (mapeamentoTeclaPista jogador !! tecla) as [q|]; [|done].
    unfold indexar. destruct (pistaPermiteAcertoNotaCurta jogador !! q) eqn:E;
      [done|]. simpl. rewrite lookup_insert_ne; [done|]. intros ->. congruence.
  - vm_compute. repeat split.
Qed.

(** ** More of the game *)

Lemma Qltb_true a b : Qltb a b = true ↔ (a < b)%Q.
Proof.
  unfold Qltb. rewrite negb_true_iff. split.
  - intros H. apply Qnot_le_lt. intros Hle. apply Qle_bool_iff in Hle. congruence.
  - intros H. destruct (Qle_bool b a) eqn:E; [|done].
    apply Qle_bool_iff in E. exfalso. by apply (Qlt_not_le a b).
Qed.

Lemma Qltb_false a b : Qltb a b = false ↔ (b <= a)%Q.
Proof.
  unfold Qltb. rewrite negb_false_iff. apply Qle_bool_iff.
Qed.

Lemma Qle_bool_false a b : Qle_bool a b = false ↔ (b < a)%Q.
Proof.
  pose proof (Qltb_true b a) as H. unfold Qltb in H.
  rewrite negb_true_iff in H. exact H.
Qed.

(** Booleans of comparisons as inequalities. *)
Ltac comparacoes :=
  repeat match goal with
  | H : Qltb _ _ = true |- _ => apply Qltb_true in H
  | H : Qltb _ _ = false |- _ => apply Qltb_false in H
  | H : Qle_bool _ _ = true |- _ => apply Qle_bool_iff in H
  | H : Qle_bool _ _ = false |- _ => apply Qle_bool_false in H
  end.

Ltac constantes :=
  change raioCapeca with (45 # 2)%Q in *;
  change (inject_Z TOLERANCIA_ACERTO_MS / 1000)%Q with (200 # 1000)%Q in *;
  unfold pixelsSustain, Y_ZONA_ACERTO, ALTURA_JANELA, ALTURA_NOTA,
    ALTURA_ZONA_ACERTO, VELOCIDADE_QUEDA_NOTA_PPS, TOLERANCIA_ACERTO_MS in *;
  repeat match goal with
  | |- context [inject_Z ?z] =>
      let v := eval vm_compute in z in
      change (inject_Z z) with (v # 1)%Q
  | H : context [inject_Z ?z] |- _ =>
      let v := eval vm_compute in z in
      change (inject_Z z) with (v # 1)%Q in H
  end.

(** ** The window of a short note *)

(** A short note that is neither hit nor lost, after the update of a
    frame at music time [t]. *)
Lemma atualizarLogicaNota_curta (nota : Nota) (t : Q) :
  ehNotaLonga nota = false → acertada nota = false → perdida nota = false →
  let nota' := atualizarLogicaNota t nota in
  let y := (1100 - (timestampSec nota - t) * 800)%Q in
  posicaoY nota' = (inject_Z Y_ZONA_ACERTO
                    - (timestampSec nota - t) * VELOCIDADE_QUEDA_NOTA_PPS)%Q
  ∧ timestampSec nota' = timestampSec nota ∧ pista nota' = pista nota
  ∧ ehNotaLonga nota' = false ∧ acertada nota' = false
  ∧ ((1055 <= y)%Q → (y <= 1220)%Q →
     naTela nota' = true ∧ (perdida nota' = true ↔ (2395 # 2 < y)%Q)).
Proof.
  destruct nota as [ts tk pi tr y0 nt ac pe dn lg fim sa sc tp].
  cbn [ehNotaLonga acertada perdida timestampSec pista].
  intros -> -> ->.
  unfold atualizarLogicaNota, atualizarVisibilidadeNota, verificarNotaPerdida.
  cbn [perdida com_posicaoY posicaoY naTela acertada ehNotaLonga com_naTela
       com_perdida timestampSec negb andb orb].
  set (y := (inject_Z Y_ZONA_ACERTO - (ts - t) * VELOCIDADE_QUEDA_NOTA_PPS)%Q).
  assert (1100 - (ts - t) * 800 == y)%Q as Hy by (subst y; constantes; ring).
  assert (∀ b1 b2 b3 : bool, ∀ n1 n2 : Nota,
            posicaoY n1 = y → posicaoY n2 = y →
            posicaoY (if b1 then (if b2 then n1 else n2)
                      else (if b3 then n1 else n2)) = y) as Haux
    by (intros [] [] [] ? ? ? ?; done).
  split.
  { repeat match goal with
    | |- context [if ?b then _ else _] => destruct b
    end; reflexivity. }
  split.
  { repeat match goal with
    | |- context [if ?b then _ else _] => destruct b
    end; reflexivity. }
  split.
  { repeat match goal with
    | |- context [if ?b then _ else _] => destruct b
    end; reflexivity. }
  split.
  { repeat match goal with
    | |- context [if ?b then _ else _] => destruct b
    end; reflexivity. }
  split.
  { repeat match goal with
    | |- context [if ?b then _ else _] => destruct b
    end; reflexivity. }
  clear Haux. clearbody y. intros H1 H2. rewrite Hy in H1, H2.
  assert (Qltb 0 (y + raioCapeca) = true) as ->
    by (apply Qltb_true; constantes; lra).
  assert (Qltb (y - raioCapeca) (inject_Z ALTURA_JANELA) = true) as ->
    by (apply Qltb_true; constantes; lra).
  assert (Qltb (y + raioCapeca) 0 = false) as C3
    by (apply Qltb_false; constantes; lra).
  assert (Qltb (inject_Z ALTURA_JANELA) (y - raioCapeca) = false) as C4
    by (apply Qltb_false; constantes; lra).
  cbn [andb orb].
  destruct nt;
    cbn [perdida com_posicaoY posicaoY naTela acertada ehNotaLonga com_naTela
         com_perdida timestampSec pista negb andb orb];
    rewrite C3, C4;
    cbn [perdida com_posicaoY posicaoY naTela acertada ehNotaLonga com_naTela
         com_perdida timestampSec pista negb andb orb];
    destruct (Qltb (inject_Z (Y_ZONA_ACERTO + ALTURA_ZONA_ACERTO) + raioCapeca) y)
      eqn:C5;
    cbn [perdida naTela com_perdida];
    (split; [reflexivity|]); comparacoes; constantes; rewrite <- Hy in *;
    (split; [intros; try discriminate; lra|intros; try reflexivity; exfalso; lra]).
Qed.

(** In the exact arithmetic of the model, where the position is not
    rounded to a [float]: a short note that is neither hit nor lost, after
    the update of a frame at the music time [t], is hit by a press of its
    lane at that time exactly when the time to the note is from
    -0.121875 s to 0.05625 s. *)
Lemma janela_exata_nota_curta (j : Jogador) (nota : Nota) (t : Q) :
  ehNotaLonga nota = false → acertada nota = false → perdida nota = false →
  let r := acertarNota (pista nota) t j (atualizarLogicaNota t nota) in
  (acertada r.2 = true
   ↔ (- (121875 # 1000000) <= timestampSec nota - t
      ∧ timestampSec nota - t <= 5625 # 100000)%Q)
  ∧ pontuacao r.1 = pontuacao j + (if acertada r.2 then 10 else 0).
Proof.
  intros Hl Ha Hp.
  destruct (atualizarLogicaNota_curta nota t Hl Ha Hp)
    as (Hy & Hts & Hpi & Hl' & Ha' & Hband).
  set (nota' := atualizarLogicaNota t nota) in *.
  cbv zeta. unfold acertarNota.
  destruct (podeAcertar nota' (pista nota) t) eqn:E.
  - change (ehNotaLonga (com_acertada true nota')) with (ehNotaLonga nota').
    rewrite Hl'. cbn [fst snd acertada com_acertada pontuacao adicionarPontuacao].
    split; [|done]. split; [intros _|done].
    unfold podeAcertar in E. rewrite Hts, Hy in E.
    repeat (apply andb_prop in E as [E ?]). comparacoes.
    destruct Hband as [_ Hper]; [constantes; lra..|].
    destruct (perdida nota') eqn:Ep; [done|].
    assert (¬ (2395 # 2 < 1100 - (timestampSec nota - t) * 800)%Q) as Hn
      by (intros Hc; by apply Hper in Hc).
    apply Qnot_lt_le in Hn. constantes. lra.
  - cbn [fst snd]. rewrite Ha'. split; [|lia]. split; [done|].
    intros [H1 H2]. exfalso.
    destruct Hband as [Hn Hper]; [lra..|].
    assert (perdida nota' = false) as Hper'.
    { destruct (perdida nota') eqn:Ep; [|done].
      assert (2395 # 2 < 1100 - (timestampSec nota - t) * 800)%Q
        by (by apply Hper). lra. }
    unfold podeAcertar in E. rewrite Hts, Hy, Hpi, Z.eqb_refl, Ha', Hper', Hn in E.
    cbn [negb andb] in E.
    assert (Qle_bool (inject_Z (Y_ZONA_ACERTO - ALTURA_NOTA))
              (inject_Z Y_ZONA_ACERTO
               - (timestampSec nota - t) * VELOCIDADE_QUEDA_NOTA_PPS) = true) as E1
      by (apply Qle_bool_iff; constantes; lra).
    assert (Qle_bool (inject_Z Y_ZONA_ACERTO
                      - (timestampSec nota - t) * VELOCIDADE_QUEDA_NOTA_PPS)
              (inject_Z (Y_ZONA_ACERTO + ALTURA_ZONA_ACERTO + ALTURA_NOTA)) = true)
      as E2 by (apply Qle_bool_iff; constantes; lra).
    assert (Qle_bool (Qabs (timestampSec nota - t) * 1000)
              (inject_Z TOLERANCIA_ACERTO_MS) = true) as E3.
    { apply Qle_bool_iff. constantes. apply Qabs_case; intros; lra. }
    rewrite E1, E2, E3 in E. done.
Qed.

(** X10.  The window in which a short note can be hit is narrower than the
    tolerance of 200 ms.  For a short note that is neither hit nor lost,
    updated by a frame at the music time [t], and a press of its lane at
    that time: when the note is from 56.24 ms ahead to 121.87 ms behind,
    the press hits it and adds 10 points; when it is from 56.26 ms to
    200 ms ahead, or from 121.88 ms to 200 ms behind, the press does not
    hit it and adds nothing, though the note is within the tolerance.
    (The limits of the window are at 56.25 ms and 121.875 ms; within
    0.01 ms of them the rounding of the position to a [float] decides,
    and nothing is stated.) *)
Theorem janela_efetiva_nota_curta (j : Jogador) (nota : Nota) (t : Q) :
  ehNotaLonga nota = false → acertada nota = false → perdida nota = false →
  let r := acertarNota (pista nota) t j (atualizarLogicaNota t nota) in
  let d := (timestampSec nota - t)%Q in
  ((- (12187 # 100000) <= d ∧ d <= 5624 # 100000)%Q →
   acertada r.2 = true ∧ pontuacao r.1 = pontuacao j + 10)
  ∧ (((5626 # 100000 <= d ∧ d <= 2 # 10)
      ∨ (- (2 # 10) <= d ∧ d <= - (12188 # 100000)))%Q →
     acertada r.2 = false ∧ pontuacao r.1 = pontuacao j).
Proof.
  intros Hl Ha Hp.
  pose proof (janela_exata_nota_curta j nota t Hl Ha Hp) as [Hjan Hpts].
  cbv zeta in *.
  set (r := acertarNota (pista nota) t j (atualizarLogicaNota t nota)) in *.
  split.
  - intros Hd. assert (acertada r.2 = true) as Hh by (apply Hjan; lra).
    split; [done|]. by rewrite Hpts, Hh.
  - intros Hd. assert (acertada r.2 = false) as Hh.
    { apply not_true_is_false. intros E. apply Hjan in E. lra. }
    split; [done|]. rewrite Hpts, Hh. lia.
Qed.

(** X10 for a note at 1 s: a press at 1.1 s hits it, a press at 0.9 s
    does not. *)
Lemma janela_efetiva_nota_curta_witness :
  let j := novoJogador teclasJogador1 in
  let nota := novaNota {| Chart.n_tick := 384; Chart.traste := 0;
                          Chart.comprimento := 0 |} 1 1 J1 in
  let tarde := acertarNota (pista nota) (11 # 10) j
                 (atualizarLogicaNota (11 # 10) nota) in
  let cedo := acertarNota (pista nota) (9 # 10) j
                (atualizarLogicaNota (9 # 10) nota) in
  (acertada tarde.2 = true ∧ pontuacao tarde.1 = pontuacao j + 10)
  ∧ (acertada cedo.2 = false ∧ pontuacao cedo.1 = pontuacao j).
Proof.
  intros j nota tarde cedo. split.
  - apply (janela_efetiva_nota_curta j nota (11 # 10)); try reflexivity.
    vm_compute. split; discriminate.
  - apply (janela_efetiva_nota_curta j nota (9 # 10)); try reflexivity.
    left. vm_compute. split; discriminate.
Defined.

(** ** What the handlers keep *)

Lemma atualizada_refl n : atualizada n n.
Proof. unfold atualizada, mesmaNota. done. Qed.

Lemma atualizada_trans a b c : atualizada a b → atualizada b c → atualizada a c.
Proof.
  unfold atualizada, mesmaNota.
  intros ((?&?&?&?&?&?&?) & Ha & Hp & Hs) ((?&?&?&?&?&?&?) & Ha' & Hp' & Hs').
  split; [repeat split; congruence|]. split; [congruence|].
  split; [auto|]. intros Hl Hac. rewrite Hs', Hs; try done; congruence.
Qed.

Lemma atualizada_se (c : bool) n a b :
  atualizada n a → atualizada n b → atualizada n (if c then a else b).
Proof. by destruct c. Qed.

Lemma atualizada_naTela b n m : atualizada n m → atualizada n (com_naTela b m).
Proof. intros H. eapply atualizada_trans; [exact H|]. by destruct m. Qed.

Lemma atualizada_posicaoY y n m : atualizada n m → atualizada n (com_posicaoY y m).
Proof. intros H. eapply atualizada_trans; [exact H|]. by destruct m. Qed.

Lemma atualizada_sustainAtivo b n m :
  atualizada n m → atualizada n (com_sustainAtivo b m).
Proof. intros H. eapply atualizada_trans; [exact H|]. by destruct m. Qed.

Lemma atualizada_sustainCompleto b n m :
  atualizada n m → atualizada n (com_sustainCompleto b m).
Proof. intros H. eapply atualizada_trans; [exact H|]. by destruct m. Qed.

Lemma atualizada_tempoParticula z n m :
  atualizada n m → atualizada n (com_tempoParticula z m).
Proof. intros H. eapply atualizada_trans; [exact H|]. by destruct m. Qed.

Lemma atualizada_perdida n m :
  acertada m = false ∨ ehNotaLonga m = true →
  atualizada n m → atualizada n (com_perdida true m).
Proof.
  intros Hc H. eapply atualizada_trans; [exact H|].
  destruct m as [ts tk pi tr y nt ac pe dn lg fim sa sc tp].
  unfold atualizada, mesmaNota. simpl in *.
  repeat split; try done. intros -> ->. by destruct Hc.
Qed.

Lemma atualizada_perdida_1 n m :
  atualizada n m →
  atualizada n (if negb (acertada m) && negb (perdida m)
                then com_perdida true m else m).
Proof.
  intros H. destruct (acertada m) eqn:E; simpl; [done|].
  destruct (perdida m); simpl; [done|]. apply atualizada_perdida; auto.
Qed.

Lemma atualizada_perdida_2 n m :
  atualizada n m →
  atualizada n (if ehNotaLonga m && acertada m && negb (sustainCompleto m)
                then com_perdida true m else m).
Proof.
  intros H. destruct (ehNotaLonga m) eqn:E; simpl; [|done].
  destruct (_ && _); [|done]. apply atualizada_perdida; auto.
Qed.

Lemma atualizada_visibilidade n m :
  atualizada n m → atualizada n (atualizarVisibilidadeNota m).
Proof.
  intros H. unfold atualizarVisibilidadeNota. cbv zeta.
  repeat first
    [ exact H
    | apply atualizada_perdida_2
    | apply atualizada_perdida_1
    | apply atualizada_naTela
    | apply atualizada_se ].
Qed.

Lemma atualizada_verificar t n m :
  atualizada n m →
  atualizada n (if naTela m && negb (acertada m)
                then verificarNotaPerdida m t else m).
Proof.
  intros H. destruct (naTela m); simpl; [|done].
  destruct (acertada m) eqn:E; simpl; [done|].
  unfold verificarNotaPerdida.
  repeat first [exact H | apply atualizada_se | apply atualizada_perdida; auto].
Qed.

Lemma atualizarLogicaNota_atualizada t n : atualizada n (atualizarLogicaNota t n).
Proof.
  unfold atualizarLogicaNota. cbv zeta.
  apply atualizada_se.
  - apply atualizada_visibilidade, atualizada_posicaoY, atualizada_refl.
  - apply atualizada_verificar, atualizada_visibilidade, atualizada_posicaoY,
      atualizada_refl.
Qed.

Lemma atualizarSustainNota_atualizada t dt j n m :
  atualizada n m → atualizada n (atualizarSustainNota t dt j m).2.
Proof.
  intros H. unfold atualizarSustainNota.
  destruct (_ || _); [done|].
  destruct (teclaPresionadaParaPista j (pista m) && _); cbv zeta.
  - destruct (_ <=? 0);
      match goal with |- context [if ?c then _ else _] => destruct c end;
      cbn [snd];
      repeat first
        [ exact H
        | apply atualizada_sustainAtivo | apply atualizada_sustainCompleto
        | apply atualizada_tempoParticula ].
  - match goal with |- context [if ?c then _ else _] => destruct c end;
      cbn [snd];
      repeat first
        [ exact H
        | apply atualizada_sustainAtivo | apply atualizada_sustainCompleto
        | apply atualizada_tempoParticula ].
Qed.

Lemma atualizarSustainParaJogador_atualizada notas : ∀ notas0 j t dt,
  Forall2 atualizada notas0 notas →
  Forall2 atualizada notas0 (atualizarSustainParaJogador j notas t dt).2.
Proof.
  induction notas as [|n notas IH]; intros notas0 j t dt H;
    cbn [atualizarSustainParaJogador].
  - by apply Forall2_nil_inv_r in H as ->.
  - apply Forall2_cons_inv_r in H as (n0 & r0 & Hn & Hr & ->).
    pose proof (atualizarSustainNota_atualizada t dt j n0 n Hn) as Hn'.
    destruct (atualizarSustainNota t dt j n) as [j1 n1]. cbn [snd] in Hn'.
    specialize (IH r0 j1 t dt Hr).
    destruct (atualizarSustainParaJogador j1 notas t dt) as [j2 r2].
    cbn [snd] in *. by constructor.
Qed.

Lemma atualizarLogicaJogador_atualizada notas t :
  Forall2 atualizada notas (atualizarLogicaJogador notas t).
Proof.
  unfold atualizarLogicaJogador. induction notas as [|n notas IH]; simpl;
    constructor; [apply atualizarLogicaNota_atualizada|done].
Qed.

Lemma Forall2_atualizada_refl notas : Forall2 atualizada notas notas.
Proof. induction notas; constructor; [apply atualizada_refl|done]. Qed.

Lemma atualizar_atualizada g dt t tocando :
  Forall2 atualizada (notasJ1 g) (notasJ1 (atualizar g dt t tocando))
  ∧ Forall2 atualizada (notasJ2 g) (notasJ2 (atualizar g dt t tocando)).
Proof.
  unfold atualizar. destruct (negb (jogoRodando g));
    [split; apply Forall2_atualizada_refl|].
  pose proof (atualizarSustainParaJogador_atualizada _ _ (jogador1 g)
                (t + OFFSET_LATENCIA_AUDIO_SEC)%Q dt
                (atualizarLogicaJogador_atualizada (notasJ1 g)
                   (t + OFFSET_LATENCIA_AUDIO_SEC)%Q)) as H1.
  pose proof (atualizarSustainParaJogador_atualizada _ _ (jogador2 g)
                (t + OFFSET_LATENCIA_AUDIO_SEC)%Q dt
                (atualizarLogicaJogador_atualizada (notasJ2 g)
                   (t + OFFSET_LATENCIA_AUDIO_SEC)%Q)) as H2.
  destruct (atualizarSustainParaJogador (jogador1 g) _ _ _) as [j1 n1].
  destruct (atualizarSustainParaJogador (jogador2 g) _ _ _) as [j2 n2].
  done.
Qed.

(** A note that can be hit is neither hit nor lost. *)
Lemma podeAcertar_true n p t :
  podeAcertar n p t = true →
  pista n = p ∧ acertada n = false ∧ perdida n = false ∧ naTela n = true.
Proof.
  unfold podeAcertar. intros H. repeat (apply andb_prop in H as [H ?]).
  apply Z.eqb_eq in H.
  repeat match goal with E : negb _ = true |- _ => apply negb_true_iff in E end.
  done.
Qed.

Lemma pressionada_refl n : pressionada n n.
Proof. unfold pressionada, mesmaNota. done. Qed.

Lemma acertarNota_pressionada p t j n : pressionada n (acertarNota p t j n).2.
Proof.
  unfold acertarNota. destruct (podeAcertar n p t) eqn:E;
    [|apply pressionada_refl].
  apply podeAcertar_true in E as (_ & Ha & Hp & _). cbv zeta.
  destruct (ehNotaLonga _); cbn [snd];
    destruct n as [ts tk pi tr y nt ac pe dn lg fim sa sc tp];
    unfold pressionada, mesmaNota; simpl in *; subst; done.
Qed.

Lemma acertarNotas_pressionada p t notas : ∀ j,
  Forall2 pressionada notas (acertarNotas p t j notas).2.
Proof.
  induction notas as [|n notas IH]; intros j; cbn [acertarNotas]; [constructor|].
  pose proof (acertarNota_pressionada p t j n) as Hn.
  destruct (acertarNota p t j n) as [j1 n1]. cbn [snd] in Hn.
  specialize (IH j1). destruct (acertarNotas p t j1 notas) as [j2 r2].
  cbn [snd] in *. by constructor.
Qed.

Lemma Forall2_pressionada_refl notas : Forall2 pressionada notas notas.
Proof. induction notas; constructor; [apply pressionada_refl|done]. Qed.

Lemma processarTeclaPressJogador_pressionada tecla t j notas :
  Forall2 pressionada notas (processarTeclaPressJogador tecla t j notas).2.
Proof.
  unfold processarTeclaPressJogador.
  destruct (mapeamentoTeclaPista j !! tecla) as [p|];
    [|apply Forall2_pressionada_refl].
  destruct (indexar _ p) as [[] f]; [|apply Forall2_pressionada_refl].
  unfold verificarAcertoNota.
  match goal with |- context [acertarNotas p ?t' ?j' notas] =>
    pose proof (acertarNotas_pressionada p t' notas j') as H;
    destruct (acertarNotas p t' j' notas) as [j2 n2] end.
  exact H.
Qed.

Lemma processarTeclaPress_pressionada g tecla t :
  jogoIniciado g = true →
  Forall2 pressionada (notasJ1 g) (notasJ1 (processarTeclaPress g tecla t))
  ∧ Forall2 pressionada (notasJ2 g) (notasJ2 (processarTeclaPress g tecla t)).
Proof.
  intros Hi. unfold processarTeclaPress. rewrite Hi.
  rewrite andb_false_r. cbn [andb].
  destruct (negb (jogoRodando g)); [split; apply Forall2_pressionada_refl|].
  pose proof (processarTeclaPressJogador_pressionada tecla t (jogador1 g) (notasJ1 g))
    as H1.
  pose proof (processarTeclaPressJogador_pressionada tecla t (jogador2 g) (notasJ2 g))
    as H2.
  destruct (processarTeclaPressJogador tecla t (jogador1 g) _) as [j1 n1].
  destruct (processarTeclaPressJogador tecla t (jogador2 g) _) as [j2 n2].
  done.
Qed.

(** X11.  What is decided of a note stays decided.  An update, a key
    press (in a game that has started) and a key release leave every note
    the note it was.  An update hits no note and takes no hit back, a note
    that was lost stays lost, and a short note that was hit is not lost.
    A key press loses no note and takes no loss back, a note that was hit
    stays hit, and a note that was lost is not hit.  A key release changes
    no note. *)
Theorem decidido_fica_decidido (g : Jogo) :
  (∀ dt t tocando,
     Forall2 atualizada (notasJ1 g) (notasJ1 (atualizar g dt t tocando))
     ∧ Forall2 atualizada (notasJ2 g) (notasJ2 (atualizar g dt t tocando)))
  ∧ (jogoIniciado g = true → ∀ tecla t,
       Forall2 pressionada (notasJ1 g) (notasJ1 (processarTeclaPress g tecla t))
       ∧ Forall2 pressionada (notasJ2 g) (notasJ2 (processarTeclaPress g tecla t)))
  ∧ (∀ tecla,
       notasJ1 (processarTeclaRelease g tecla) = notasJ1 g
       ∧ notasJ2 (processarTeclaRelease g tecla) = notasJ2 g).
Proof.
  split; [exact (atualizar_atualizada g)|].
  split; [intros Hi tecla t; by apply processarTeclaPress_pressionada|].
  intros tecla. unfold processarTeclaRelease. by destruct (negb _).
Qed.

Lemma decidido_fica_decidido_witness :
  let g := simular (jogoCarregado mestreDuasCurtas)
             [Pressionar Keyboard.Space 0; Atualizar (1 # 2)] in
  Forall2 pressionada (notasJ1 g) (notasJ1 (processarTeclaPress g Keyboard.A (1 # 2)))
  ∧ Forall2 pressionada (notasJ2 g)
      (notasJ2 (processarTeclaPress g Keyboard.A (1 # 2))).
Proof.
  intros g. apply (proj1 (proj2 (decidido_fica_decidido g))). reflexivity.
Defined.

(** ** The points of a key press *)

Lemma acertarNota_pontos p t j n :
  pontuacao (acertarNota p t j n).1
  = pontuacao j + (if podeAcertar n p t then pontosDoAcerto n else 0).
Proof.
  unfold acertarNota, pontosDoAcerto. destruct (podeAcertar n p t); simpl; [|lia].
  by destruct (ehNotaLonga n).
Qed.

Lemma acertarNotas_pontos p t notas : ∀ j,
  pontuacao (acertarNotas p t j notas).1
  = pontuacao j + 10 * Z.of_nat (length (curtasAoAlcance notas p t))
    + 5 * Z.of_nat (length (longasAoAlcance notas p t)).
Proof.
  unfold curtasAoAlcance, longasAoAlcance.
  induction notas as [|n notas IH]; intros j; cbn [acertarNotas List.filter].
  - simpl. lia.
  - pose proof (acertarNota_pontos p t j n) as Hn.
    destruct (acertarNota p t j n) as [j1 n1]. cbn [fst] in Hn.
    specialize (IH j1). destruct (acertarNotas p t j1 notas) as [j2 r2].
    cbn [fst] in *. rewrite IH, Hn. unfold pontosDoAcerto.
    destruct (podeAcertar n p t), (ehNotaLonga n); simpl length; lia.
Qed.

(** X12.  A key press hits every note of the lane that can be hit, not the
    first one only: [verificarAcertoNota] marks all of them, leaves the
    other notes as they are, and adds 10 points for each short one and 5
    for each long one. *)
Theorem verificarAcertoNota_acerta_todas (j : Jogador) (notas : list Nota)
    (p : Z) (t : Q) :
  let r := verificarAcertoNota j notas p t in
  r.2 = (λ n, if podeAcertar n p t then com_acertada true n else n) <$> notas
  ∧ pontuacao r.1.2
    = pontuacao j + 10 * Z.of_nat (length (curtasAoAlcance notas p t))
      + 5 * Z.of_nat (length (longasAoAlcance notas p t)).
Proof.
  cbv zeta. split; [apply verificarAcertoNota_notas|].
  unfold verificarAcertoNota.
  pose proof (acertarNotas_pontos p t notas j) as H.
  by destruct (acertarNotas p t j notas).
Qed.

(** ** The scores *)

Lemma processarTeclaPressJogador_pontos tecla t j notas :
  pontuacao j ≤ pontuacao (processarTeclaPressJogador tecla t j notas).1.
Proof.
  unfold processarTeclaPressJogador.
  destruct (mapeamentoTeclaPista j !! tecla) as [p|]; [|done].
  destruct (indexar _ p) as [[] f]; [|done].
  unfold verificarAcertoNota.
  match goal with |- context [acertarNotas p ?t' ?j' notas] =>
    pose proof (acertarNotas_pontos p t' notas j') as H;
    destruct (acertarNotas p t' j' notas) as [j2 n2] end.
  cbn [fst snd pontuacao com_permissoes com_teclas] in *. lia.
Qed.

(** X13.  No handler takes points away: an update and a key press (in a
    game that has started) leave each score at least what it was, and a
    key release leaves it as it was. *)
Theorem pontuacao_nunca_diminui (g : Jogo) :
  (∀ dt t tocando,
     pontuacao (jogador1 g) ≤ pontuacao (jogador1 (atualizar g dt t tocando))
     ∧ pontuacao (jogador2 g) ≤ pontuacao (jogador2 (atualizar g dt t tocando)))
  ∧ (jogoIniciado g = true → ∀ tecla t,
       pontuacao (jogador1 g) ≤ pontuacao (jogador1 (processarTeclaPress g tecla t))
       ∧ pontuacao (jogador2 g)
         ≤ pontuacao (jogador2 (processarTeclaPress g tecla t)))
  ∧ (∀ tecla,
       pontuacao (jogador1 (processarTeclaRelease g tecla)) = pontuacao (jogador1 g)
       ∧ pontuacao (jogador2 (processarTeclaRelease g tecla))
         = pontuacao (jogador2 g)).
Proof.
  split; [|split].
  - intros dt t tocando. unfold atualizar.
    destruct (negb (jogoRodando g)); [done|].
    pose proof (atualizarSustainParaJogador_incompleto
                  (atualizarLogicaJogador (notasJ1 g) (t + OFFSET_LATENCIA_AUDIO_SEC)%Q)
                  (jogador1 g) (t + OFFSET_LATENCIA_AUDIO_SEC)%Q dt) as [_ H1].
    pose proof (atualizarSustainParaJogador_incompleto
                  (atualizarLogicaJogador (notasJ2 g) (t + OFFSET_LATENCIA_AUDIO_SEC)%Q)
                  (jogador2 g) (t + OFFSET_LATENCIA_AUDIO_SEC)%Q dt) as [_ H2].
    destruct (atualizarSustainParaJogador (jogador1 g) _ _ _) as [j1 n1].
    destruct (atualizarSustainParaJogador (jogador2 g) _ _ _) as [j2 n2].
    simpl in *. lia.
  - intros Hi tecla t. unfold processarTeclaPress. rewrite Hi.
    rewrite andb_false_r. cbn [andb].
    destruct (negb (jogoRodando g)); [done|].
    pose proof (processarTeclaPressJogador_pontos tecla t (jogador1 g) (notasJ1 g)).
    pose proof (processarTeclaPressJogador_pontos tecla t (jogador2 g) (notasJ2 g)).
    destruct (processarTeclaPressJogador tecla t (jogador1 g) _) as [j1 n1].
    destruct (processarTeclaPressJogador tecla t (jogador2 g) _) as [j2 n2].
    done.
  - intros tecla. unfold processarTeclaRelease, processarTeclaReleaseJogador.
    destruct (negb _); [done|]. simpl.
    by destruct (mapeamentoTeclaPista (jogador1 g) !! tecla),
                (mapeamentoTeclaPista (jogador2 g) !! tecla).
Qed.

Lemma pontuacao_nunca_diminui_witness :
  let g := simular (jogoCarregado mestreDuasCurtas)
             [Pressionar Keyboard.Space 0; Atualizar (1 # 2)] in
  pontuacao (jogador1 g) ≤ pontuacao (jogador1 (processarTeclaPress g Keyboard.A (1 # 2)))
  ∧ pontuacao (jogador2 g)
    ≤ pontuacao (jogador2 (processarTeclaPress g Keyboard.A (1 # 2))).
Proof.
  intros g. apply (proj1 (proj2 (pontuacao_nunca_diminui g))). reflexivity.
Defined.

(** ** The keys of the two players *)

Lemma teclas_disjuntas tecla :
  teclasJogador1 !! tecla = None ∨ teclasJogador2 !! tecla = None.
Proof.
  destruct (decide (tecla ∈ [Keyboard.A; Keyboard.S; Keyboard.D; Keyboard.F;
                             Keyboard.G])) as [Hin|Hnin].
  - right. apply not_elem_of_list_to_map_1. simpl. intros H2.
    repeat (apply elem_of_cons in Hin as [->|Hin];
            [repeat (apply elem_of_cons in H2 as [H2|H2]; [discriminate H2|]);
             by apply elem_of_nil in H2|]).
    by apply elem_of_nil in Hin.
  - left. by apply not_elem_of_list_to_map_1.
Qed.

Lemma processarTeclaPressJogador_outra tecla t j notas :
  mapeamentoTeclaPista j !! tecla = None →
  processarTeclaPressJogador tecla t j notas = (j, notas).
Proof. intros H. unfold processarTeclaPressJogador. by rewrite H. Qed.

(** X14.  With the key maps that the constructor of [Jogo] gives the
    players, no key press in a game that has started acts for both: it
    leaves one of the players, and the notes of that player, as they
    were. *)
Theorem tecla_de_um_jogador (g : Jogo) (tecla : Keyboard.Key) (t : Q) :
  mapeamentoTeclaPista (jogador1 g) = teclasJogador1 →
  mapeamentoTeclaPista (jogador2 g) = teclasJogador2 →
  jogoIniciado g = true →
  (jogador1 (processarTeclaPress g tecla t) = jogador1 g
   ∧ notasJ1 (processarTeclaPress g tecla t) = notasJ1 g)
  ∨ (jogador2 (processarTeclaPress g tecla t) = jogador2 g
     ∧ notasJ2 (processarTeclaPress g tecla t) = notasJ2 g).
Proof.
  intros H1 H2 Hi. unfold processarTeclaPress. rewrite Hi.
  rewrite andb_false_r. cbn [andb].
  destruct (negb (jogoRodando g)); [by left|].
  destruct (teclas_disjuntas tecla) as [Hn|Hn]; [left|right].
  - rewrite (processarTeclaPressJogador_outra tecla t (jogador1 g))
      by (by rewrite H1).
    by destruct (processarTeclaPressJogador tecla t (jogador2 g) (notasJ2 g)).
  - rewrite (processarTeclaPressJogador_outra tecla t (jogador2 g))
      by (by rewrite H2).
    by destruct (processarTeclaPressJogador tecla t (jogador1 g) (notasJ1 g)).
Qed.

Lemma tecla_de_um_jogador_witness :
  let g := simular (jogoCarregado mestreDuasCurtas)
             [Pressionar Keyboard.Space 0; Atualizar (1 # 2)] in
  (jogador1 (processarTeclaPress g Keyboard.A (1 # 2)) = jogador1 g
   ∧ notasJ1 (processarTeclaPress g Keyboard.A (1 # 2)) = notasJ1 g)
  ∨ (jogador2 (processarTeclaPress g Keyboard.A (1 # 2)) = jogador2 g
     ∧ notasJ2 (processarTeclaPress g Keyboard.A (1 # 2)) = notasJ2 g).
Proof.
  intros g. apply (tecla_de_um_jogador g Keyboard.A (1 # 2)); reflexivity.
Defined.

(** ** Short notes *)

Lemma exclusiva_atualizada n n' : exclusiva n → atualizada n n' → exclusiva n'.
Proof.
  unfold exclusiva. intros He ((_&_&_&_&_&Hl&_) & Ha & Hp & Hs) Hl' [Ha' Hp'].
  rewrite Hl in Hl'. rewrite Ha in Ha'. apply (He Hl'). split; [done|].
  by rewrite <- Hs.
Qed.

Lemma exclusiva_pressionada n n' : exclusiva n → pressionada n n' → exclusiva n'.
Proof.
  unfold exclusiva. intros He ((_&_&_&_&_&Hl&_) & Hp & Ha & Hs) Hl' [Ha' Hp'].
  rewrite Hl in Hl'. rewrite Hp in Hp'. apply (He Hl'). split; [|done].
  by rewrite <- (Hs Hp').
Qed.

Lemma Forall_exclusiva {R : Nota → Nota → Prop} notas notas' :
  (∀ n n', exclusiva n → R n n' → exclusiva n') →
  Forall2 R notas notas' → Forall exclusiva notas → Forall exclusiva notas'.
Proof.
  intros HR H. induction H as [|n n' l l' Hn _ IH]; [done|].
  intros [He Hl]%Forall_cons. constructor; eauto.
Qed.

Lemma instanciasDe_exclusiva d mestre :
  Forall (λ n, acertada n = false ∧ perdida n = false) mestre →
  Forall exclusiva (instanciasDe d mestre).
Proof.
  intros H. unfold instanciasDe. rewrite merge_sort_Permutation.
  apply Forall_fmap, Forall_forall. intros n Hn.
  apply list_elem_of_filter in Hn as [_ Hn].
  rewrite Forall_forall in H. destruct (H n Hn) as [Ha Hp].
  intros _ [Ha' _]. destruct n; simpl in *. congruence.
Qed.

(** The notes of the players in a game are not both hit and lost when
    they are short. *)
Lemma reagir_exclusiva g e :
  Forall (λ n, acertada n = false ∧ perdida n = false) (todasNotasMusicaMestre g) →
  Forall exclusiva (notasJ1 g) → Forall exclusiva (notasJ2 g) →
  todasNotasMusicaMestre (reagir g e) = todasNotasMusicaMestre g
  ∧ Forall exclusiva (notasJ1 (reagir g e))
  ∧ Forall exclusiva (notasJ2 (reagir g e)).
Proof.
  intros Hm H1 H2. destruct e as [t|tecla t|tecla]; cbn [reagir].
  - destruct (atualizar_atualizada g tempoPorFrame t true) as [A1 A2].
    split; [|split; eapply Forall_exclusiva; eauto using exclusiva_atualizada].
    unfold atualizar. destruct (negb _); [done|].
    destruct (atualizarSustainParaJogador (jogador1 g) _ _ _) as [j1 n1].
    by destruct (atualizarSustainParaJogador (jogador2 g) _ _ _) as [j2 n2].
  - unfold processarTeclaPress.
    destruct (_ && _).
    { unfold iniciarJogo. destruct (_ || _); [done|]. simpl.
      split; [done|]. split; by apply instanciasDe_exclusiva. }
    destruct (negb (jogoRodando g)); [done|].
    pose proof (processarTeclaPressJogador_pressionada tecla t (jogador1 g) (notasJ1 g))
      as P1.
    pose proof (processarTeclaPressJogador_pressionada tecla t (jogador2 g) (notasJ2 g))
      as P2.
    destruct (processarTeclaPressJogador tecla t (jogador1 g) _) as [j1 n1].
    destruct (processarTeclaPressJogador tecla t (jogador2 g) _) as [j2 n2].
    simpl in *.
    split; [done|split; eapply Forall_exclusiva; eauto using exclusiva_pressionada].
  - unfold processarTeclaRelease. by destruct (negb _).
Qed.

(** X15.  In every session of a game whose master list has notes that
    are neither hit nor lost, as [carregarDadosChart] makes them, no short
    note of a player is both hit and lost, after any updates, key presses
    and key releases. *)
Theorem nota_curta_exclusiva (mestre : list Nota) (eventos : list Evento) :
  Forall (λ n, acertada n = false ∧ perdida n = false) mestre →
  Forall exclusiva (notasJ1 (simular (jogoCarregado mestre) eventos))
  ∧ Forall exclusiva (notasJ2 (simular (jogoCarregado mestre) eventos)).
Proof.
  intros Hm. unfold simular.
  assert (∀ g, Forall (λ n, acertada n = false ∧ perdida n = false)
                 (todasNotasMusicaMestre g) →
               Forall exclusiva (notasJ1 g) → Forall exclusiva (notasJ2 g) →
               Forall exclusiva (notasJ1 (fold_left reagir eventos g))
               ∧ Forall exclusiva (notasJ2 (fold_left reagir eventos g))) as H.
  { induction eventos as [|e eventos IH]; intros g Hg H1 H2; [done|].
    cbn [fold_left].
    destruct (reagir_exclusiva g e Hg H1 H2) as (Hm' & H1' & H2').
    apply IH; [by rewrite Hm'|done|done]. }
  apply H; [done|constructor|constructor].
Qed.

Lemma nota_curta_exclusiva_witness :
  let eventos := [Pressionar Keyboard.Space 0; Atualizar (1 # 2);
                  Pressionar Keyboard.A (1 # 2); Atualizar (6 # 10);
                  Atualizar 2] in
  Forall exclusiva (notasJ1 (simular (jogoCarregado mestreDuasCurtas) eventos))
  ∧ Forall exclusiva (notasJ2 (simular (jogoCarregado mestreDuasCurtas) eventos)).
Proof.
  intros eventos. apply (nota_curta_exclusiva mestreDuasCurtas eventos).
  repeat (constructor; [split; reflexivity|]). constructor.
Defined.

End Partida.

(** * Texts *)

Section Textos.

Local Notation "a +:+ b" := (String.append a b) (at level 60, right associativity).

Lemma append_String (x : ascii) (a b : string) :
  String x a +:+ b = String x (a +:+ b).
Proof. reflexivity. Qed.

Lemma append_assoc (a b c : string) : (a +:+ b) +:+ c = a +:+ (b +:+ c).
Proof.
  induction a as [|x a IH]; [done|]. rewrite !append_String. by rewrite IH.
Qed.

Lemma append_vazio (a : string) : a +:+ EmptyString = a.
Proof. induction a as [|x a IH]; [done|]. rewrite append_String. by rewrite IH. Qed.

Lemma string_of_list_ascii_app (a b : list ascii) :
  string_of_list_ascii (a ++ b) = string_of_list_ascii a +:+ string_of_list_ascii b.
Proof.
  induction a as [|x a IH]; [done|].
  cbn [app string_of_list_ascii]. rewrite append_String. by rewrite IH.
Qed.

Lemma list_ascii_of_string_app (a b : string) :
  list_ascii_of_string (a +:+ b) = list_ascii_of_string a ++ list_ascii_of_string b.
Proof.
  induction a as [|x a IH]; [done|].
  rewrite append_String. cbn [app list_ascii_of_string]. by rewrite IH.
Qed.

End Textos.

(** * Loading the chart *)

Section Carga.
Import Chart ParserChart.



Lemma converterNotas_jogaveis (c : DadosChart Q) notasChart :
  ∃ convertidas,
    converterNotas (novaCalculadoraTempo c) notasChart = Valor convertidas
    ∧ ticksEPistas (filter (λ n, dono n = J1) convertidas)
      = (λ n, (n_tick n, Chart.traste n))
          <$> List.filter (λ n, Chart.traste n <? NUMERO_PISTAS) notasChart
    ∧ ticksEPistas (filter (λ n, dono n = J2) convertidas)
      = (λ n, (n_tick n, Chart.traste n))
          <$> List.filter (λ n, Chart.traste n <? NUMERO_PISTAS) notasChart.
Proof.
  induction notasChart as [|n resto IH]; cbn [converterNotas List.filter].
  { by exists []. }
  destruct IH as (conv & Hconv & H1 & H2).
  destruct (Chart.traste n <? NUMERO_PISTAS) eqn:E; [|by exists conv].
  unfold segundosDoTick, ticksParaSegundos.
  destruct (percorrerSegmentos_retorna
              (referenciaChart (novaCalculadoraTempo c))
              (mudancasTempoOrdenadas (novaCalculadoraTempo c))
              (n_tick n) (of_int 0) 0) as (ra & ->).
  destruct (percorrerSegmentos_retorna
              (referenciaChart (novaCalculadoraTempo c))
              (mudancasTempoOrdenadas (novaCalculadoraTempo c))
              (n_tick n + comprimento n) (of_int 0) 0) as (rb & ->).
  cbn [mbind resultado_bind ligar].
  destruct (0 <? comprimento n); cbn [mbind resultado_bind ligar];
    rewrite Hconv; cbn [mbind resultado_bind ligar];
    (eexists; split; [reflexivity|]);
    rewrite !filter_cons; cbn [dono novaNota];
    rewrite !(decide_True (P := J1 = J1)), !(decide_True (P := J2 = J2)),
      !(decide_False (P := J2 = J1)), !(decide_False (P := J1 = J2)) by done;
    unfold ticksEPistas in *; rewrite !fmap_cons;
    cbn [tickOriginal pista novaNota]; by rewrite H1, H2.
Qed.

(** The chart of the file of the examples. *)
Lemma parse_duas_dificuldades :
  fazerParsingChart (Some arquivo_duas_dificuldades)
  = Valor (Some chart_duas_dificuldades).
Proof. vm_compute. reflexivity. Qed.



Lemma instanciasDe_ticks d mestre :
  ticksEPistas (instanciasDe d mestre)
  ≡ₚ ticksEPistas (filter (λ n, dono n = d) mestre).
Proof.
  unfold instanciasDe, ticksEPistas. rewrite merge_sort_Permutation.
  by rewrite <- list_fmap_compose.
Qed.

(** X17.  When the chart is parsed and its music is found, the game that
    [carregarDadosChart] and [iniciarJogo] leave runs, and has for each
    player one note for each note of the chart whose fret is below
    [NUMERO_PISTAS], with its tick and with the fret as the lane; the
    other notes of the chart are dropped. *)
Theorem notas_dos_dois_jogadores (arquivo : option string) (c : DadosChart Q)
    (abre : string → bool) :
  fazerParsingChart arquivo = Valor (Some c) →
  carregarAudio abre c = true →
  ∃ g, carregarDadosChart arquivo abre = Valor g
       ∧ jogoRodando (iniciarJogo g) = true
       ∧ ticksEPistas (notasJ1 (iniciarJogo g)) ≡ₚ notasJogaveis c
       ∧ ticksEPistas (notasJ2 (iniciarJogo g)) ≡ₚ notasJogaveis c.
Proof.
  intros Hp Ha. unfold carregarDadosChart. rewrite Hp.
  cbn [mbind resultado_bind ligar].
  destruct (converterNotas_jogaveis c (notas c)) as (conv & -> & H1 & H2).
  cbn [mbind resultado_bind ligar]. eexists. split; [reflexivity|].
  unfold iniciarJogo. cbn [chartCarregado jogoIniciado]. rewrite Ha.
  cbn [negb orb jogoRodando notasJ1 notasJ2 todasNotasMusicaMestre].
  split; [done|]. unfold notasJogaveis. rewrite <- H1 at 1. rewrite <- H2.
  rewrite !instanciasDe_ticks. unfold ticksEPistas.
  split; apply fmap_Permutation; by rewrite merge_sort_Permutation.
Qed.

Lemma notas_dos_dois_jogadores_witness :
  ∃ g, carregarDadosChart (Some arquivo_duas_dificuldades) abreTudo = Valor g
       ∧ jogoRodando (iniciarJogo g) = true
       ∧ ticksEPistas (notasJ1 (iniciarJogo g))
         ≡ₚ notasJogaveis chart_duas_dificuldades
       ∧ ticksEPistas (notasJ2 (iniciarJogo g))
         ≡ₚ notasJogaveis chart_duas_dificuldades.
Proof.
  apply (notas_dos_dois_jogadores (Some arquivo_duas_dificuldades)
           chart_duas_dificuldades abreTudo).
  - vm_compute. reflexivity.
  - reflexivity.
Defined.

End Carga.

(** * The ends of the lines *)

Section FimDeLinha.
Import Chart ParserChart.

Local Notation "a +:+ b" := (String.append a b) (at level 60, right associativity).

(** *** Trimming *)

Lemma tirar_inicio_brancos (b s : string) :
  Forall (λ c, branco c = true) (list_ascii_of_string b) →
  tirar_inicio branco (b +:+ s) = tirar_inicio branco s.
Proof.
  induction b as [|c b IH]; [done|]. intros [Hc Hb]%Forall_cons.
  rewrite append_String. cbn [tirar_inicio]. rewrite Hc. by apply IH.
Qed.

Lemma tirar_inicio_app (s b : string) :
  Forall (λ c, branco c = true) (list_ascii_of_string b) →
  tirar_inicio branco (s +:+ b)
  = if String.eqb (tirar_inicio branco s) EmptyString then EmptyString
    else tirar_inicio branco s +:+ b.
Proof.
  intros Hb. induction s as [|c s IH].
  - change (EmptyString +:+ b) with b. cbn [tirar_inicio String.eqb].
    rewrite <- (append_vazio b). rewrite tirar_inicio_brancos by done. done.
  - rewrite append_String. cbn [tirar_inicio]. destruct (branco c); [done|].
    by rewrite append_String.
Qed.

Lemma inverter_app (a b : string) : inverter (a +:+ b) = inverter b +:+ inverter a.
Proof.
  unfold inverter. rewrite list_ascii_of_string_app, rev_app_distr.
  apply string_of_list_ascii_app.
Qed.

Lemma inverter_brancos (b : string) :
  Forall (λ c, branco c = true) (list_ascii_of_string b) →
  Forall (λ c, branco c = true) (list_ascii_of_string (inverter b)).
Proof.
  intros H. unfold inverter. rewrite list_ascii_of_string_of_list_ascii.
  by apply Forall_rev.
Qed.

(** Blanks after a line are trimmed away. *)
Lemma aparar_brancos (s b : string) :
  Forall (λ c, branco c = true) (list_ascii_of_string b) →
  aparar (s +:+ b) = aparar s.
Proof.
  intros Hb. unfold aparar. rewrite tirar_inicio_app by done.
  destruct (String.eqb (tirar_inicio branco s) EmptyString) eqn:E.
  - apply String.eqb_eq in E. by rewrite E.
  - rewrite inverter_app. rewrite tirar_inicio_brancos; [done|].
    by apply inverter_brancos.
Qed.

Lemma processarLinha_brancos e (l b : string) :
  Forall (λ c, branco c = true) (list_ascii_of_string b) →
  processarLinha e (l +:+ b) = processarLinha e l.
Proof. intros Hb. unfold processarLinha. by rewrite aparar_brancos. Qed.

(** *** Lines *)

Lemma getlines_aux_linha (l s : string) : ∀ atual,
  semQuebra l →
  getlines_aux (l +:+ nl +:+ s) atual
  = string_of_list_ascii (rev atual ++ list_ascii_of_string l) :: getlines_aux s [].
Proof.
  induction l as [|c l IH]; intros atual Hl.
  - change (EmptyString +:+ nl +:+ s) with (String (ascii_of_nat 10) s).
    cbn [getlines_aux]. change (codigo (ascii_of_nat 10) =? 10) with true.
    cbv iota. by rewrite app_nil_r.
  - apply Forall_cons in Hl as [Hc Hl]. rewrite append_String.
    cbn [getlines_aux]. apply Z.eqb_neq in Hc. rewrite Hc.
    rewrite IH by done. cbn [rev list_ascii_of_string]. by rewrite <- app_assoc.
Qed.

Lemma semQuebra_cr l : semQuebra l → semQuebra (l +:+ String (ascii_of_nat 13) EmptyString).
Proof.
  intros H. unfold semQuebra. rewrite list_ascii_of_string_app.
  apply Forall_app. split; [done|]. by constructor.
Qed.

Lemma getlines_juntar linhas :
  Forall semQuebra linhas → getlines (juntar linhas) = linhas.
Proof.
  intros H. induction H as [|l linhas Hl _ IH]; [done|].
  unfold getlines in *. cbn [juntar fold_right].
  rewrite getlines_aux_linha by done. cbn [rev app].
  rewrite string_of_list_ascii_of_string. f_equal. exact IH.
Qed.

Lemma getlines_juntar_crlf linhas :
  Forall semQuebra linhas →
  getlines (juntarCom crlf linhas)
  = (λ l, l +:+ String (ascii_of_nat 13) EmptyString) <$> linhas.
Proof.
  intros H. induction H as [|l linhas Hl _ IH]; [done|].
  unfold getlines in *.
  change (juntarCom crlf (l :: linhas)) with (l +:+ crlf +:+ juntarCom crlf linhas).
  replace (l +:+ crlf +:+ juntarCom crlf linhas)
    with ((l +:+ String (ascii_of_nat 13) EmptyString) +:+ nl +:+ juntarCom crlf linhas)
    by (by rewrite append_assoc).
  rewrite getlines_aux_linha by (by apply semQuebra_cr). cbn [rev app].
  rewrite string_of_list_ascii_of_string. rewrite fmap_cons. f_equal. exact IH.
Qed.

Lemma processarLinhas_cr linhas : ∀ e,
  processarLinhas e ((λ l, l +:+ String (ascii_of_nat 13) EmptyString) <$> linhas)
  = processarLinhas e linhas.
Proof.
  induction linhas as [|l linhas IH]; intros e; [done|].
  rewrite fmap_cons. cbn [processarLinhas].
  rewrite processarLinha_brancos by (by constructor).
  destruct (processarLinha e l) as [e1| |]; simpl; [apply IH|done|done].
Qed.

(** *** The byte order mark *)

Lemma lerArquivoUtf8_linha (f : ascii) (fim l s : string) :
  codigo f ≠ 239 → codigo f ≠ 187 → codigo f ≠ 191 →
  lerArquivoUtf8 (Some (l +:+ String f fim +:+ s))
  = lerArquivoUtf8 (Some l) +:+ String f fim +:+ s.
Proof.
  intros H1%Z.eqb_neq H2%Z.eqb_neq H3%Z.eqb_neq.
  assert (Hv : ∀ x : string, EmptyString +:+ x = x) by done.
  destruct l as [|a [|b [|c l]]]; cbn [lerArquivoUtf8];
    rewrite ?append_String, ?Hv, ?append_String.
  - destruct (fim +:+ s) as [|x [|y r]]; [done|done|]. by rewrite H1.
  - destruct (fim +:+ s) as [|x r]; [done|]. by rewrite H2, andb_false_r.
  - by rewrite H3, andb_false_r.
  - rewrite <- !append_String.
    by destruct ((codigo a =? 239) && (codigo b =? 187) && (codigo c =? 191)).
Qed.

Lemma lerArquivoUtf8_semQuebra l :
  semQuebra l → semQuebra (lerArquivoUtf8 (Some l)).
Proof.
  intros H. destruct l as [|a [|b [|c l]]]; cbn [lerArquivoUtf8]; try done.
  destruct ((codigo a =? 239) && (codigo b =? 187) && (codigo c =? 191)); [|done].
  by do 3 apply Forall_cons in H as [_ H].
Qed.

Lemma juntarCom_nao_vazio (f : ascii) (fim l s : string) :
  String.eqb (l +:+ String f fim +:+ s) EmptyString = false.
Proof. destruct l; [done|]. by rewrite append_String. Qed.

(** X18.  A chart file whose lines end with a carriage return and a line
    feed is read as the file of the same lines that end with a line feed:
    the same chart, or the same error. *)
Theorem fim_de_linha_crlf (linhas : list string) :
  Forall semQuebra linhas →
  fazerParsingChart (Some (juntarCom crlf linhas))
  = fazerParsingChart (Some (juntar linhas)).
Proof.
  intros H. destruct H as [|l linhas Hl Hls]; [done|].
  unfold fazerParsingChart. cbv zeta.
  change (juntarCom crlf (l :: linhas))
    with (l +:+ String (ascii_of_nat 13) nl +:+ juntarCom crlf linhas).
  change (juntar (l :: linhas))
    with (l +:+ String (ascii_of_nat 10) EmptyString +:+ juntar linhas).
  rewrite !lerArquivoUtf8_linha by done.
  rewrite !juntarCom_nao_vazio.
  pose proof (lerArquivoUtf8_semQuebra l Hl) as Hl'.
  change (lerArquivoUtf8 (Some l) +:+ String (ascii_of_nat 13) nl +:+ juntarCom crlf linhas)
    with (juntarCom crlf (lerArquivoUtf8 (Some l) :: linhas)).
  change (lerArquivoUtf8 (Some l) +:+ String (ascii_of_nat 10) EmptyString +:+ juntar linhas)
    with (juntar (lerArquivoUtf8 (Some l) :: linhas)).
  rewrite getlines_juntar_crlf, getlines_juntar by (by constructor).
  by rewrite processarLinhas_cr.
Qed.

Lemma fim_de_linha_crlf_witness :
  fazerParsingChart
    (Some (juntarCom crlf ["[Song]"; "{"; "  Resolution = 192"; "}";
                           "[ExpertSingle]"; "{"; "  192 = N 0 0"; "}"]%string))
  = fazerParsingChart
      (Some (juntar ["[Song]"; "{"; "  Resolution = 192"; "}";
                     "[ExpertSingle]"; "{"; "  192 = N 0 0"; "}"]%string)).
Proof.
  apply fim_de_linha_crlf.
  repeat (constructor; [by repeat (constructor; [by vm_compute|])|]).
  constructor.
Defined.

End FimDeLinha.

(** * The score as text *)

Section Pontuacao.

Local Notation "a +:+ b" := (String.append a b) (at level 60, right associativity).

(** *** The loop *)

Lemma agrupar_resultado inv : ∀ k res,
  agrupar inv k res = agrupar inv k EmptyString +:+ res.
Proof.
  induction inv as [|c inv IH]; intros k res; cbn [agrupar]; [done|].
  destruct ((0 <? k) && (Z.rem k 3 =? 0)).
  - rewrite (IH _ (String c (String "," res))), (IH _ (String c (String "," EmptyString))).
    by rewrite append_assoc.
  - rewrite (IH _ (String c res)), (IH _ (String c EmptyString)).
    by rewrite append_assoc.
Qed.

(** From the first character on, the count decides by its rest modulo 3. *)
Lemma agrupar_mais_tres inv : ∀ k res,
  0 < k → agrupar inv (k + 3) res = agrupar inv k res.
Proof.
  induction inv as [|c inv IH]; intros k res Hk; cbn [agrupar]; [done|].
  assert ((0 <? k + 3) = true) as -> by (apply Z.ltb_lt; lia).
  assert ((0 <? k) = true) as -> by (apply Z.ltb_lt; lia).
  assert (Z.rem (k + 3) 3 = Z.rem k 3) as ->.
  { rewrite !Z.rem_mod_nonneg by lia.
    replace (k + 3) with (k + 1 * 3) by lia. apply Z.mod_add. lia. }
  replace (k + 3 + 1) with (k + 1 + 3) by lia. apply IH. lia.
Qed.

Lemma agrupar_tres inv :
  inv ≠ [] →
  agrupar inv 3 EmptyString = agrupar inv 0 EmptyString +:+ String "," EmptyString.
Proof.
  destruct inv as [|c inv]; [done|]. intros _. cbn [agrupar].
  change ((0 <? 3) && (Z.rem 3 3 =? 0)) with true.
  change ((0 <? 0) && (Z.rem 0 3 =? 0)) with false. cbv iota.
  change (3 + 1) with (1 + 3). rewrite agrupar_mais_tres by lia.
  change (0 + 1) with 1.
  by rewrite (agrupar_resultado inv 1 (String c (String "," EmptyString))),
    (agrupar_resultado inv 1 (String c EmptyString)), append_assoc.
Qed.

(** Without the commas, the result is the text. *)
Lemma semVirgulas_app a b :
  semVirgulas (a +:+ b) = semVirgulas a +:+ semVirgulas b.
Proof.
  induction a as [|c a IH]; [done|]. rewrite append_String. cbn [semVirgulas].
  destruct (Ascii.eqb c ","); [done|]. rewrite append_String. by rewrite IH.
Qed.

Lemma semVirgulas_agrupar inv : ∀ k res,
  Forall (λ c, c ≠ ","%char) inv →
  semVirgulas (agrupar inv k res)
  = string_of_list_ascii (rev inv) +:+ semVirgulas res.
Proof.
  induction inv as [|c inv IH]; intros k res Hc; cbn [agrupar]; [done|].
  apply Forall_cons in Hc as [Hc Hinv]. rewrite IH by done.
  assert (semVirgulas (String c (if (0 <? k) && (Z.rem k 3 =? 0)
                                 then String "," res else res))
          = String c (semVirgulas res)) as ->.
  { cbn [semVirgulas]. apply Ascii.eqb_neq in Hc. rewrite Hc.
    destruct (_ && _); [|done]. cbn [semVirgulas]. by rewrite Ascii.eqb_refl. }
  cbn [rev]. rewrite string_of_list_ascii_app. cbn [string_of_list_ascii].
  by rewrite append_assoc.
Qed.

(** *** The digits *)

Lemma digito_nao_virgula d : digito (d mod 10) ≠ ","%char.
Proof.
  pose proof (Z.mod_pos_bound d 10 ltac:(lia)) as H.
  assert (d mod 10 = 0 ∨ d mod 10 = 1 ∨ d mod 10 = 2 ∨ d mod 10 = 3
          ∨ d mod 10 = 4 ∨ d mod 10 = 5 ∨ d mod 10 = 6 ∨ d mod 10 = 7
          ∨ d mod 10 = 8 ∨ d mod 10 = 9) as Hd by lia.
  repeat (destruct Hd as [->|Hd]; [discriminate|]). by rewrite Hd.
Qed.

Lemma decimal_resto n : ∀ v res,
  decimal n v res = decimal n v EmptyString +:+ res.
Proof.
  induction n as [|n IH]; intros v res; cbn [decimal]; [done|].
  destruct (v <? 10); [done|].
  rewrite (IH _ (String _ res)), (IH _ (String _ EmptyString)).
  by rewrite append_assoc.
Qed.

Lemma decimal_sem_virgula n : ∀ v res,
  Forall (λ c, c ≠ ","%char) (list_ascii_of_string res) →
  Forall (λ c, c ≠ ","%char) (list_ascii_of_string (decimal n v res)).
Proof.
  induction n as [|n IH]; intros v res Hres; cbn [decimal]; [done|].
  assert (Forall (λ c, c ≠ ","%char)
            (list_ascii_of_string (String (digito (v mod 10)) res))) as H
    by (constructor; [apply digito_nao_virgula|done]).
  destruct (v <? 10); [done|]. by apply IH.
Qed.

Lemma to_string_sem_virgula v :
  Forall (λ c, c ≠ ","%char) (list_ascii_of_string (to_string v)).
Proof.
  unfold to_string. destruct (v <? 0).
  - constructor; [discriminate|]. apply decimal_sem_virgula. constructor.
  - apply decimal_sem_virgula. constructor.
Qed.

(** X19.  [formatarPontuacao] adds commas and nothing else: without its
    commas, the text of a score is the text of the number. *)
Theorem formatarPontuacao_sem_virgulas (pontuacao : Z) :
  semVirgulas (formatarPontuacao pontuacao) = to_string pontuacao.
Proof.
  unfold formatarPontuacao. rewrite semVirgulas_agrupar.
  - rewrite rev_involutive, string_of_list_ascii_of_string.
    apply append_vazio.
  - apply Forall_rev, to_string_sem_virgula.
Qed.

Lemma decimal_digitos n : ∀ m v res,
  0 ≤ v → v < 10 ^ Z.of_nat (S n) → v < 10 ^ Z.of_nat (S m) →
  decimal (S n) v res = decimal (S m) v res.
Proof.
  induction n as [|n IH]; intros m v res H0 Hn Hm.
  - cbn [decimal]. change (10 ^ Z.of_nat 1) with 10 in Hn.
    by assert ((v <? 10) = true) as -> by (apply Z.ltb_lt; lia).
  - cbn [decimal]. fold (decimal (S n)).
    destruct (v <? 10) eqn:E; [done|]. apply Z.ltb_ge in E.
    destruct m as [|m].
    { change (10 ^ Z.of_nat 1) with 10 in Hm. lia. }
    fold (decimal (S m)). apply IH.
    + apply Z.div_pos; lia.
    + apply Z.div_lt_upper_bound; [lia|].
      rewrite <- Z.pow_succ_r by lia. by rewrite <- Nat2Z.inj_succ.
    + apply Z.div_lt_upper_bound; [lia|].
      rewrite <- Z.pow_succ_r by lia. by rewrite <- Nat2Z.inj_succ.
Qed.

Lemma decimal_nao_vazio n v res : decimal (S n) v res ≠ EmptyString.
Proof.
  cbn [decimal]. destruct (v <? 10); [done|].
  rewrite decimal_resto. destruct (decimal n (v / 10) EmptyString); done.
Qed.

Lemma decimal_passo n v res :
  10 ≤ v →
  decimal (S n) v res = decimal n (v / 10) (String (digito (v mod 10)) res).
Proof.
  intros Hv. cbn [decimal].
  by assert ((v <? 10) = false) as -> by (apply Z.ltb_ge; lia).
Qed.

(** The text of a number from 1000 on is the text of its thousands and
    its last three digits. *)
Lemma to_string_milhares v :
  1000 ≤ v → v ≤ INT_MAX →
  to_string v = to_string (v / 1000) +:+ tresDigitos (v mod 1000).
Proof.
  intros Hv Hmax. unfold to_string, INT_MAX in *.
  assert ((v <? 0) = false) as -> by (apply Z.ltb_ge; lia).
  assert (0 ≤ v / 1000 < 10000000) as Hq.
  { split; [apply Z.div_pos; lia|]. apply Z.div_lt_upper_bound; lia. }
  assert ((v / 1000 <? 0) = false) as -> by (apply Z.ltb_ge; lia).
  rewrite (decimal_passo 9 v) by lia.
  rewrite (decimal_passo 8) by (apply Z.div_le_lower_bound; lia).
  rewrite (decimal_passo 7)
    by (rewrite Z.div_div by lia; apply Z.div_le_lower_bound; lia).
  rewrite decimal_resto. rewrite !Z.div_div by lia.
  change (10 * 10) with 100. change (10 * 100) with 1000.
  assert (decimal 7 (v / 1000) EmptyString = decimal 10 (v / 1000) EmptyString)
    as ->.
  { apply (decimal_digitos 6 9).
    - lia.
    - change (10 ^ Z.of_nat 7) with 10000000. lia.
    - change (10 ^ Z.of_nat 10) with 10000000000. lia. }
  f_equal. unfold tresDigitos.
  assert (v mod 1000 / 100 = v / 100 mod 10) as -> by
    (Z.to_euclidean_division_equations; lia).
  assert (v mod 1000 / 10 mod 10 = v / 10 mod 10) as -> by
    (Z.to_euclidean_division_equations; lia).
  assert (v mod 1000 mod 10 = v mod 10) as -> by
    (Z.to_euclidean_division_equations; lia).
  done.
Qed.

(** The text of a number below 1000 has three characters at most. *)
Lemma to_string_curto v :
  0 ≤ v → v < 1000 → (String.length (to_string v) ≤ 3)%nat.
Proof.
  intros H0 Hv. unfold to_string.
  assert ((v <? 0) = false) as -> by (apply Z.ltb_ge; lia).
  destruct (Z_lt_ge_dec v 10) as [H1|H1].
  { cbn [decimal]. assert ((v <? 10) = true) as -> by (apply Z.ltb_lt; lia).
    simpl. lia. }
  rewrite (decimal_passo 9 v) by lia.
  destruct (Z_lt_ge_dec (v / 10) 10) as [H2|H2].
  { cbn [decimal]. assert ((v / 10 <? 10) = true) as -> by (apply Z.ltb_lt; lia).
    simpl. lia. }
  rewrite (decimal_passo 8) by lia.
  cbn [decimal]. assert ((v / 10 / 10 <? 10) = true) as ->.
  { apply Z.ltb_lt. rewrite Z.div_div by lia. apply Z.div_lt_upper_bound; lia. }
  simpl. lia.
Qed.

Lemma agrupar_curto inv :
  (length inv ≤ 3)%nat →
  agrupar inv 0 EmptyString = string_of_list_ascii (rev inv).
Proof.
  intros H. destruct inv as [|a [|b [|c [|d inv]]]]; try done.
  simpl in H. lia.
Qed.

(** X20.  The text of a score that is not negative: below 1000 it is the
    text of the number, and from 1000 on it is the text of the thousands,
    a comma, and the last three digits. *)
Theorem formatarPontuacao_milhares (pontuacao : Z) :
  0 ≤ pontuacao → pontuacao ≤ INT_MAX →
  formatarPontuacao pontuacao
  = if pontuacao <? 1000 then to_string pontuacao
    else formatarPontuacao (pontuacao / 1000)
         +:+ String "," (tresDigitos (pontuacao mod 1000)).
Proof.
  intros H0 Hmax. destruct (pontuacao <? 1000) eqn:E.
  - apply Z.ltb_lt in E. unfold formatarPontuacao.
    rewrite agrupar_curto.
    + by rewrite rev_involutive, string_of_list_ascii_of_string.
    + rewrite length_rev.
      pose proof (to_string_curto pontuacao H0 E) as Hl.
      rewrite <- (string_of_list_ascii_of_string (to_string pontuacao)) in Hl.
      revert Hl. generalize (list_ascii_of_string (to_string pontuacao)).
      intros l. clear. induction l as [|c l IH]; simpl; [done|].
      intros H. assert (String.length (string_of_list_ascii l) = length l) as Hq.
      { clear. induction l; simpl; congruence. }
      lia.
  - apply Z.ltb_ge in E. unfold formatarPontuacao.
    rewrite to_string_milhares by done.
    rewrite list_ascii_of_string_app, rev_app_distr.
    unfold tresDigitos at 1. cbn [list_ascii_of_string rev app agrupar].
    change ((0 <? 0) && (Z.rem 0 3 =? 0)) with false.
    change ((0 <? 0 + 1) && (Z.rem (0 + 1) 3 =? 0)) with false.
    change ((0 <? 0 + 1 + 1) && (Z.rem (0 + 1 + 1) 3 =? 0)) with false.
    cbv iota. change (0 + 1 + 1 + 1) with 3.
    rewrite agrupar_resultado, agrupar_tres.
    + by rewrite append_assoc.
    + intros Hnil. apply (f_equal (@rev ascii)) in Hnil.
      rewrite rev_involutive in Hnil. simpl in Hnil.
      apply (f_equal string_of_list_ascii) in Hnil.
      rewrite string_of_list_ascii_of_string in Hnil.
      unfold to_string in Hnil. destruct (_ <? 0); [done|].
      by apply decimal_nao_vazio in Hnil.
Qed.

Lemma formatarPontuacao_milhares_witness :
  formatarPontuacao 1234567
  = if 1234567 <? 1000 then to_string 1234567
    else formatarPontuacao (1234567 / 1000)
         +:+ String "," (tresDigitos (1234567 mod 1000)).
Proof.
  apply (formatarPontuacao_milhares 1234567).
  - lia.
  - unfold INT_MAX. lia.
Defined.

(** Scores as the panel shows them. *)
Example formatarPontuacao_exemplos :
  formatarPontuacao 0 = "0"%string
  ∧ formatarPontuacao 999 = "999"%string
  ∧ formatarPontuacao 1000 = "1,000"%string
  ∧ formatarPontuacao 1234567 = "1,234,567"%string
  ∧ formatarPontuacao INT_MAX = "2,147,483,647"%string
  ∧ formatarPontuacao (-123) = "-,123"%string.
Proof. repeat split; vm_compute; reflexivity. Qed.

End Pontuacao.

(** * Lines of text for the panel *)

Section Quebra.

Local Notation "a +:+ b" := (String.append a b) (at level 60, right associativity).

(** *** Words *)

Lemma string_of_list_ascii_nao_vazio l :
  l ≠ [] → string_of_list_ascii l ≠ EmptyString.
Proof. by destruct l. Qed.

Lemma palavras_aux_palavras s : ∀ atual,
  Forall (λ c, isspace c = false) atual →
  Forall ehPalavra (palavras_aux s atual).
Proof.
  assert (∀ atual, atual ≠ [] → Forall (λ c, isspace c = false) atual →
                   ehPalavra (string_of_list_ascii (rev atual))) as Hw.
  { intros atual Hne Hs. split.
    - apply string_of_list_ascii_nao_vazio. intros Hr.
      apply (f_equal (@rev ascii)) in Hr. by rewrite rev_involutive in Hr.
    - rewrite list_ascii_of_string_of_list_ascii. by apply Forall_rev. }
  induction s as [|c s IH]; intros atual Hs; cbn [palavras_aux].
  - destruct atual as [|a atual]; constructor; [|constructor]. by apply Hw.
  - destruct (isspace c) eqn:E.
    + destruct atual as [|a atual]; [by apply IH|].
      constructor; [by apply Hw|by apply IH].
    + apply IH. by constructor.
Qed.

Lemma palavras_palavras s : Forall ehPalavra (palavras s).
Proof. by apply palavras_aux_palavras. Qed.

Lemma palavras_aux_espaco a : ∀ b atual,
  palavras_aux (a +:+ String " " b) atual
  = palavras_aux a atual ++ palavras_aux b [].
Proof.
  induction a as [|c a IH]; intros b atual.
  - change (EmptyString +:+ String " " b) with (String " " b).
    cbn [palavras_aux]. change (isspace " ") with true. cbv iota.
    by destruct atual.
  - rewrite append_String. cbn [palavras_aux].
    destruct (isspace c).
    + destruct atual; by rewrite IH.
    + apply IH.
Qed.

Lemma palavras_aux_palavra w : ∀ atual,
  Forall (λ c, isspace c = false) (list_ascii_of_string w) →
  w ≠ EmptyString ∨ atual ≠ [] →
  palavras_aux w atual
  = [string_of_list_ascii (rev atual ++ list_ascii_of_string w)].
Proof.
  induction w as [|c w IH]; intros atual Hs Hne; cbn [palavras_aux].
  - destruct Hne as [?|Hne]; [done|]. destruct atual; [done|].
    by rewrite app_nil_r.
  - apply Forall_cons in Hs as [-> Hs]. rewrite IH; [|done|by right].
    cbn [rev list_ascii_of_string]. by rewrite <- app_assoc.
Qed.

Lemma palavras_palavra w : ehPalavra w → palavras w = [w].
Proof.
  intros [Hne Hs]. unfold palavras. rewrite palavras_aux_palavra; [|done|by left].
  cbn [rev app]. by rewrite string_of_list_ascii_of_string.
Qed.

Lemma palavras_testada atual w :
  ehPalavra w →
  palavras (if String.eqb atual EmptyString then w else atual +:+ String " " w)
  = palavras atual ++ [w].
Proof.
  intros Hw. destruct (String.eqb atual EmptyString) eqn:E.
  - apply String.eqb_eq in E as ->. by rewrite palavras_palavra.
  - unfold palavras at 1. rewrite palavras_aux_espaco.
    fold (palavras w). by rewrite (palavras_palavra w Hw).
Qed.

(** *** The loop *)

Section Largura.
Variable largura : string → Q.
Variable larguraMaxima : Q.

Lemma quebrarPalavras_palavras restantes : ∀ atual linhas,
  Forall ehPalavra restantes →
  concat (palavras <$> quebrarPalavras largura larguraMaxima restantes atual linhas)
  = concat (palavras <$> linhas) ++ palavras atual ++ restantes.
Proof.
  induction restantes as [|w restantes IH]; intros atual linhas Hr;
    cbn [quebrarPalavras].
  - rewrite app_nil_r. destruct (String.eqb atual EmptyString) eqn:E.
    + apply String.eqb_eq in E as ->. by rewrite app_nil_r.
    + rewrite fmap_app, concat_app. simpl. by rewrite app_nil_r.
  - apply Forall_cons in Hr as [Hw Hr]. cbv zeta.
    destruct (Qle_bool _ larguraMaxima).
    + rewrite IH by done. rewrite palavras_testada by done.
      by rewrite <- !app_assoc.
    + destruct (String.eqb atual EmptyString) eqn:E; cbn [negb].
      * apply String.eqb_eq in E as ->. rewrite IH by done.
        rewrite fmap_app, concat_app. cbn [fmap list_fmap concat].
        rewrite (palavras_palavra w) by done.
        change (palavras EmptyString) with (@nil string).
        rewrite app_nil_r. cbn [app]. by rewrite <- !app_assoc.
      * rewrite IH by done. rewrite fmap_app, concat_app.
        cbn [fmap list_fmap concat].
        rewrite (palavras_palavra w) by done. rewrite app_nil_r.
        by rewrite <- !app_assoc.
Qed.

Lemma quebrarPalavras_linhas (P : string → Prop) restantes : ∀ atual linhas,
  (∀ l, (largura l <= larguraMaxima)%Q → l ≠ EmptyString → P l) →
  Forall P restantes → Forall P linhas → (atual = EmptyString ∨ P atual) →
  Forall ehPalavra restantes →
  Forall P (quebrarPalavras largura larguraMaxima restantes atual linhas).
Proof.
  induction restantes as [|w restantes IH]; intros atual linhas Hcabe Hr Hl Ha Hw;
    cbn [quebrarPalavras].
  - destruct (String.eqb atual EmptyString) eqn:E; [done|].
    apply String.eqb_neq in E. destruct Ha as [?|Ha]; [done|].
    apply Forall_app. split; [done|]. by constructor.
  - apply Forall_cons in Hr as [HPw Hr]. apply Forall_cons in Hw as [[Hne Hsp] Hw].
    cbv zeta. destruct (Qle_bool _ larguraMaxima) eqn:Ef.
    + apply IH; try done. right. apply Hcabe; [by apply Qle_bool_iff|].
      destruct (String.eqb atual EmptyString); [done|].
      destruct atual; [by destruct w|done].
    + destruct (String.eqb atual EmptyString) eqn:E; cbn [negb].
      * apply IH; try done; [|by left]. apply Forall_app. split; [done|].
        by constructor.
      * apply String.eqb_neq in E. destruct Ha as [?|Ha]; [done|].
        apply IH; try done; [|by right]. apply Forall_app. split; [done|].
        by constructor.
Qed.

End Largura.

(** X21.  The lines of [quebrarTexto] hold the words of the text, each one
    whole and in its place, and no line is empty, whatever the widths of
    the texts in the font are. *)
Theorem quebrarTexto_palavras (largura : string → Q) (texto : string)
    (larguraMaxima : Q) :
  concat (palavras <$> quebrarTexto largura texto larguraMaxima) = palavras texto
  ∧ Forall (λ linha, linha ≠ EmptyString) (quebrarTexto largura texto larguraMaxima).
Proof.
  unfold quebrarTexto. destruct (String.eqb texto EmptyString) eqn:E.
  { apply String.eqb_eq in E as ->. by split. }
  split.
  - rewrite quebrarPalavras_palavras by apply palavras_palavras. done.
  - apply quebrarPalavras_linhas; try done.
    + eapply Forall_impl; [apply palavras_palavras|]. by intros w [? _].
    + by left.
    + apply palavras_palavras.
Qed.

(** X22.  A line of [quebrarTexto] is at most as wide as the maximum, or
    it is one word of the text alone. *)
Theorem quebrarTexto_cabe (largura : string → Q) (texto : string)
    (larguraMaxima : Q) :
  Forall (λ linha, (largura linha <= larguraMaxima)%Q ∨ linha ∈ palavras texto)
    (quebrarTexto largura texto larguraMaxima).
Proof.
  unfold quebrarTexto. destruct (String.eqb texto EmptyString); [done|].
  apply quebrarPalavras_linhas; try done.
  - by left.
  - apply Forall_forall. by right.
  - by left.
  - apply palavras_palavras.
Qed.

(** A status message in a panel that is 250 wide, at 10 for each byte. *)
Example quebrarTexto_exemplo :
  quebrarTexto larguraFixa "Fim de Jogo! J1: 120 J2: 95  Pressione ESPACO para Reiniciar." 250
  = ["Fim de Jogo! J1: 120 J2:"; "95 Pressione ESPACO para"; "Reiniciar."]%string
  ∧ quebrarTexto larguraFixa "  Supercalifragilistic  expialidocious  " 100
    = ["Supercalifragilistic"; "expialidocious"]%string
  ∧ quebrarTexto larguraFixa "   " 100 = [].
Proof. repeat split; vm_compute; reflexivity. Qed.

End Quebra.

(** * The particles *)

Section Particulas.

Lemma atualizarParticula_vida dt p p' :
  atualizarParticula dt p = Some p' →
  tempoVida p' = tempoVida p - dt ∧ 0 < tempoVida p'.
Proof.
  unfold atualizarParticula. destruct (_ <=? 0) eqn:E; [done|].
  apply Z.leb_gt in E. intros [= <-]. simpl. lia.
Qed.

Lemma atualizarParticulas_vida dt particulas (limite : Z) :
  Forall (λ p, tempoVida p ≤ limite) particulas →
  Forall (λ p, 0 < tempoVida p ≤ limite - dt) (atualizarParticulas dt particulas).
Proof.
  intros H. unfold atualizarParticulas. apply Forall_forall. intros p' Hp'.
  apply list_elem_of_omap in Hp' as (p & Hp & Hup).
  rewrite Forall_forall in H. specialize (H p Hp).
  apply atualizarParticula_vida in Hup as [-> ?]. lia.
Qed.

(** X23.  Every particle is erased in time: after [n] updates of a step
    [dt] above zero, no particle is left of those whose time to live was
    above zero and [n * dt] at most; and a particle that an update leaves
    has a time to live above zero. *)
Theorem particulas_extintas (dt : Z) (n : nat) (particulas : list Particula) :
  0 < dt →
  Forall (λ p, 0 < tempoVida p ≤ Z.of_nat n * dt) particulas →
  Nat.iter n (atualizarParticulas dt) particulas = []
  ∧ Forall (λ p, 0 < tempoVida p) (atualizarParticulas dt particulas).
Proof.
  intros Hdt H. split.
  - revert particulas H. induction n as [|n IH]; intros particulas H.
    + destruct particulas as [|p ps]; [done|].
      apply Forall_cons in H as [H _]. simpl in H. lia.
    + rewrite Nat.iter_succ_r. apply IH.
      eapply Forall_impl.
      * apply (atualizarParticulas_vida dt particulas (Z.of_nat (S n) * dt)).
        eapply Forall_impl; [exact H|]. simpl. intros; lia.
      * simpl. intros p Hp. lia.
  - eapply Forall_impl.
    + apply (atualizarParticulas_vida dt particulas (Z.of_nat n * dt)).
      eapply Forall_impl; [exact H|]. simpl. intros; lia.
    + simpl. intros; lia.
Qed.

Lemma particulas_extintas_witness :
  Nat.iter 67 (atualizarParticulas tempoPorFrame) particulasDeExemplo = []
  ∧ Forall (λ p, 0 < tempoVida p)
      (atualizarParticulas tempoPorFrame particulasDeExemplo).
Proof.
  apply (particulas_extintas tempoPorFrame 67 particulasDeExemplo).
  - reflexivity.
  - repeat (constructor; [vm_compute; split; [reflexivity|discriminate]|]).
    constructor.
Defined.

(** The particle of the example after one update of the game: it has
    moved by its speed times 6 ms, and its alpha is 200. *)
Example atualizarParticulas_exemplo :
  ∃ p, atualizarParticulas tempoPorFrame particulasDeExemplo = [p]
       ∧ tempoVida p = 394000 ∧ alfa p = 200
       ∧ ((posicao p).1 == 40 + 100 * (6 # 1000))%Q
       ∧ ((posicao p).2 == 1100 - 50 * (6 # 1000))%Q.
Proof. eexists. split; [vm_compute; reflexivity|]. repeat split. Qed.

End Particulas.
